(** * online_ths: the limit-up spreadsheet pipeline of server.js

    A shallow embedding of the pure core of [server.js] (the same
    functions are repeated verbatim in [process_excel_cli.js]): the column
    resolver, the category-field trimmer, the category-priority paginator
    and the stats aggregator.

    Conventions of the embedding.
    - A JavaScript string is its sequence of UTF-16 code units
      ([list N]); [text.length], [slice], [endsWith], [lastIndexOf] and the
      regular expressions of the source (none carries the [u] flag) all
      work on code units.
    - JavaScript numbers that the modelled code computes are integers
      (counters, lengths, indices, the width budget); they are embedded
      as [Z]. The constraint of the paginator comes from [parseInt] and is
      an integer or NaN ([jsnumber]). Numeric cells are integer valued
      and printed in decimal, as [String] does for integers of magnitude
      below 10^21; fractions are outside the embedding.
    - A plain object used as a map ([categoryCounts]) is the list of its
      own properties in creation order, read through [Object.prototype]
      and enumerated the way [Object.entries] does. *)

From Stdlib Require Import ZArith Lia Ascii String.
From stdpp Require Import base numbers list.

Local Open Scope Z_scope.

(** ** JavaScript values *)

Abbreviation jsstring := (list N).

(** Code units of an ASCII literal. *)
Fixpoint u16 (s : string) : jsstring :=
  match s with
  | EmptyString => []
  | String a s' => N_of_ascii a :: u16 s'
  end.

(** A raw cell value: what [XLSX.utils.sheet_to_json] may store in a row
    (a string, a number or a boolean), or what a property read may give
    for an absent cell. *)
Inductive jsval : Type :=
  | JUndefined
  | JNull
  | JBool (b : bool)
  | JNum (n : Z)
  | JStr (s : jsstring).

#[global] Instance jsval_eq_dec : EqDecision jsval.
Proof. solve_decision. Defined.

(** The number that the paginator is given as [maxConstraint]: an
    integer, or NaN, which is what [parseInt] makes of a form field that
    does not start with digits. *)
Inductive jsnumber : Type :=
  | Num (n : Z)
  | NaN.

(** An integer stands for itself where such a number is expected. *)
Coercion Num : Z >-> jsnumber.
Bind Scope Z_scope with jsnumber.

(** [x > y] for an integer [x]: every comparison with NaN is false. *)
Definition greaterThan (x : Z) (y : jsnumber) : bool :=
  match y with
  | Num m => x >? m
  | NaN => false
  end.

Fixpoint digitsOfUint (d : Decimal.uint) : jsstring :=
  match d with
  | Decimal.Nil => []
  | Decimal.D0 d' => 48%N :: digitsOfUint d'
  | Decimal.D1 d' => 49%N :: digitsOfUint d'
  | Decimal.D2 d' => 50%N :: digitsOfUint d'
  | Decimal.D3 d' => 51%N :: digitsOfUint d'
  | Decimal.D4 d' => 52%N :: digitsOfUint d'
  | Decimal.D5 d' => 53%N :: digitsOfUint d'
  | Decimal.D6 d' => 54%N :: digitsOfUint d'
  | Decimal.D7 d' => 55%N :: digitsOfUint d'
  | Decimal.D8 d' => 56%N :: digitsOfUint d'
  | Decimal.D9 d' => 57%N :: digitsOfUint d'
  end.

(** [String(n)] for an integer [n]. *)
Definition numberToString (n : Z) : jsstring :=
  match n with
  | Z0 => [48%N]
  | Zpos p => digitsOfUint (Pos.to_uint p)
  | Zneg p => 45%N :: digitsOfUint (Pos.to_uint p)
  end.

(** [String(v)], which is also the property key [v] is coerced to in
    [obj[v]]. *)
Definition ToString (v : jsval) : jsstring :=
  match v with
  | JUndefined => u16 "undefined"
  | JNull => u16 "null"
  | JBool b => if b then u16 "true" else u16 "false"
  | JNum n => numberToString n
  | JStr s => s
  end.

(** [v === s] for a string [s]: no coercion. *)
Definition strictEqStr (v : jsval) (s : jsstring) : bool :=
  match v with
  | JStr t => bool_decide (t = s)
  | _ => false
  end.

(** ** String primitives *)

Definition plus : N := 43%N.
Definition space : N := 32%N.

(** The class [\s] of the regular expressions, which is also the set that
    [String.prototype.trim] removes (WhiteSpace and LineTerminator). *)
Definition isWhiteSpace (c : N) : bool :=
  ((9 <=? c) && (c <=? 13) || (c =? 32) || (c =? 160) || (c =? 5760)
   || (8192 <=? c) && (c <=? 8202) || (c =? 8232) || (c =? 8233)
   || (c =? 8239) || (c =? 8287) || (c =? 12288) || (c =? 65279))%N.

Fixpoint trimStart (s : jsstring) : jsstring :=
  match s with
  | [] => []
  | c :: s' => if isWhiteSpace c then trimStart s' else s
  end.

Definition trimEnd (s : jsstring) : jsstring :=
  reverse (trimStart (reverse s)).

(** [s.trim()] *)
Definition trim (s : jsstring) : jsstring := trimEnd (trimStart s).

(** [s.replace(/\s+/g, ' ')]: every maximal run of white space becomes one
    space. [inRun] tells that the previous code unit belonged to the run
    being replaced. *)
Fixpoint collapseRuns (inRun : bool) (s : jsstring) : jsstring :=
  match s with
  | [] => []
  | c :: s' =>
      if isWhiteSpace c
      then (if inRun then collapseRuns true s' else space :: collapseRuns true s')
      else c :: collapseRuns false s'
  end.

Definition replaceWhiteSpaceRuns (s : jsstring) : jsstring := collapseRuns false s.

(** [s.endsWith(c)] for a one-unit string [c]. *)
Definition endsWith (s : jsstring) (c : N) : bool :=
  match list.last s with
  | Some d => (d =? c)%N
  | None => false
  end.

(** [s.slice(0, i)] for [0 <= i]. *)
Definition slice0 (s : jsstring) (i : nat) : jsstring := take i s.

(** [s.slice(0, -1)] *)
Definition dropLast (s : jsstring) : jsstring := take (length s - 1)%nat s.

(** [s.lastIndexOf(c)] for a one-unit string [c]: the scan runs from the
    last position [i - 1] down to 0 and gives -1 when [c] does not occur. *)
Fixpoint lastIndexBelow (s : jsstring) (c : N) (i : nat) : Z :=
  match i with
  | O => -1
  | S i' =>
      match s !! i' with
      | Some d => if (d =? c)%N then Z.of_nat i' else lastIndexBelow s c i'
      | None => lastIndexBelow s c i'
      end
  end.

Definition lastIndexOf (s : jsstring) (c : N) : Z := lastIndexBelow s c (length s).

(** [s.includes(t)] *)
Fixpoint isPrefixOf (t s : jsstring) : bool :=
  match t, s with
  | [], _ => true
  | _ :: _, [] => false
  | a :: t', b :: s' => (a =? b)%N && isPrefixOf t' s'
  end.

Fixpoint includes (s t : jsstring) : bool :=
  isPrefixOf t s ||
  match s with
  | [] => false
  | _ :: s' => includes s' t
  end.

(** ** The width metric (server.js, calculateChineseLength) *)

(** The class [[U+4E00-U+9FFF]] of the regular expression. *)
Definition isChinese (c : N) : bool := ((19968 <=? c) && (c <=? 40959))%N.

Definition calculateChineseLength (text : jsval) : Z :=
  match text with
  | JUndefined | JNull => 0
  | _ =>
      let text := ToString text in
      let chineseCount := Z.of_nat (length (filter isChinese text)) in
      let totalLength := chineseCount * 2 + (Z.of_nat (length text) - chineseCount) in
      totalLength
  end.

(** ** The category-field trimmer
    (server.js, normalizeReasonCategory and trimReasonCategoryField) *)

Definition normalizeReasonCategory (reasonCategory : jsval) : jsstring :=
  match reasonCategory with
  | JUndefined | JNull => []
  | _ =>
      let reasonCategory := trim (ToString reasonCategory) in
      let reasonCategory := replaceWhiteSpaceRuns reasonCategory in
      reasonCategory
  end.

(** [while (result.endsWith('+')) result = result.slice(0, -1);] Every turn
    removes one code unit, so [fuel] turns are enough for a string of
    length [fuel]. *)
Fixpoint stripPlusLoop (fuel : nat) (result : jsstring) : jsstring :=
  match fuel with
  | O => result
  | S fuel' =>
      if endsWith result plus then stripPlusLoop fuel' (dropLast result) else result
  end.

Definition stripTrailingPlus (result : jsstring) : jsstring :=
  stripPlusLoop (length result) result.

(** [for (let i = reasonCategory.length; i > 0; i--) { ... } return "";]
    entered with the loop variable equal to [i]. *)
Fixpoint truncateLoop (reasonCategory : jsstring) (maxLength : Z) (i : nat) : jsstring :=
  match i with
  | O => []
  | S i' =>
      let truncated := slice0 reasonCategory i in
      if calculateChineseLength (JStr truncated) <=? maxLength then
        let lastPlusIndex := lastIndexOf truncated plus in
        let truncated :=
          if negb (lastPlusIndex =? -1) && (lastPlusIndex <? Z.of_nat (length truncated) - 1)
          then slice0 truncated (Z.to_nat lastPlusIndex)
          else truncated in
        stripTrailingPlus truncated
      else truncateLoop reasonCategory maxLength i'
  end.

Definition trimReasonCategoryField (reasonCategory : jsstring) (maxLength : Z) : jsstring :=
  if calculateChineseLength (JStr reasonCategory) <=? maxLength then
    let result := reasonCategory in
    stripTrailingPlus result
  else truncateLoop reasonCategory maxLength (length reasonCategory).

(** The default value of the parameter [maxLength]. *)
Definition defaultMaxLength : Z := 36.

(** ** Rows *)

(** A row object: its own properties in the order of [Object.keys]. *)
Abbreviation row := (list (jsstring * jsval)).

(** [row[k]], read from the own properties; a key that the row does not
    own reads as [undefined]. *)
Fixpoint getProp (r : row) (k : jsstring) : jsval :=
  match r with
  | [] => JUndefined
  | (k', v) :: r' => if bool_decide (k' = k) then v else getProp r' k
  end.

(** [row[k] = v] for a key [k] that is not an array index: an existing
    property keeps its place, a new one is created last. *)
Fixpoint setProp (r : row) (k : jsstring) (v : jsval) : row :=
  match r with
  | [] => [(k, v)]
  | (k', v') :: r' =>
      if bool_decide (k' = k) then (k', v) :: r' else (k', v') :: setProp r' k v
  end.

(** The canonical column names '涨停原因' and '涨停原因类别', and the sentinel
    group "其他概念". *)
Definition reasonCol : jsstring := [28072; 20572; 21407; 22240]%N.
Definition reasonCategoryCol : jsstring := [28072; 20572; 21407; 22240; 31867; 21035]%N.
Definition otherConcept : jsstring := [20854; 20182; 27010; 24565]%N.

(** server.js, processReasonCategoryField. The [catch] branch is not
    reachable on the values of [jsval]: [String], [trim], [replace] and the
    trimmer do not throw on them. *)
Definition processReasonCategoryField (data : list row) : list row :=
  map (fun row =>
         let newRow := row in
         let normalized := normalizeReasonCategory (getProp newRow reasonCategoryCol) in
         setProp newRow reasonCategoryCol
                 (JStr (trimReasonCategoryField normalized defaultMaxLength)))
      data.

(** The composition the pipeline applies to one raw cell. *)
Definition trimCell (x : jsval) : jsstring :=
  trimReasonCategoryField (normalizeReasonCategory x) defaultMaxLength.

(** ** The column resolver (server.js, findColumn) *)

Definition findColumn (data : list row) (columnName : jsstring) : option jsstring :=
  match data with
  | [] => None
  | firstRow :: _ =>
      let columns := map fst firstRow in
      if bool_decide (columnName ∈ columns) then Some columnName
      else
        match List.find (fun col => bool_decide (trim col = columnName)) columns with
        | Some col => Some col
        | None => List.find (fun col => includes col columnName) columns
        end
  end.

(** ** A plain object used as a counter map *)

(** The values [categoryCounts] holds: a number, or the string that
    [+ 1] makes of an inherited member of [Object.prototype]. *)
Inductive countval : Type :=
  | CNum (n : Z)
  | CStr (s : jsstring).

#[global] Instance countval_eq_dec : EqDecision countval.
Proof. solve_decision. Defined.

(** The own properties of the object, in creation order. *)
Abbreviation jsobject := (list (jsstring * countval)).

Fixpoint getOwn (o : jsobject) (k : jsstring) : option countval :=
  match o with
  | [] => None
  | (k', v) :: o' => if bool_decide (k' = k) then Some v else getOwn o' k
  end.

Fixpoint setOwn (o : jsobject) (k : jsstring) (v : countval) : jsobject :=
  match o with
  | [] => [(k, v)]
  | (k', v') :: o' =>
      if bool_decide (k' = k) then (k', v) :: o' else (k', v') :: setOwn o' k v
  end.

Definition protoKey : jsstring := u16 "__proto__".

(** The function-valued members of [Object.prototype]. *)
Definition prototypeMethods : list jsstring :=
  [ u16 "constructor"; u16 "__defineGetter__"; u16 "__defineSetter__";
    u16 "hasOwnProperty"; u16 "__lookupGetter__"; u16 "__lookupSetter__";
    u16 "isPrototypeOf"; u16 "propertyIsEnumerable"; u16 "toString";
    u16 "valueOf"; u16 "toLocaleString" ].

(** Every key that a read of [{}] finds on [Object.prototype]. *)
Definition prototypeKeys : list jsstring := protoKey :: prototypeMethods.

(** [String(f)] for a built-in function named [name]. *)
Definition nativeFunctionText (name : jsstring) : jsstring :=
  u16 "function " ++ name ++ u16 "() { [native code] }".

(** [String(Object.prototype[k])] when [k] is inherited: [constructor] is
    the function [Object], [__proto__] reads as [Object.prototype] itself,
    every other member is a function that carries its key as name. *)
Definition inheritedText (k : jsstring) : option jsstring :=
  if bool_decide (k = protoKey) then Some (u16 "[object Object]")
  else if bool_decide (k = u16 "constructor") then Some (nativeFunctionText (u16 "Object"))
  else if bool_decide (k ∈ prototypeMethods) then Some (nativeFunctionText k)
  else None.

(** [(o[k] || 0) + 1]: an own number is incremented; an own or inherited
    value that is not a number is truthy and [+] concatenates "1" to its
    string form; an absent property counts from 0. *)
Definition increment (o : jsobject) (k : jsstring) : countval :=
  match getOwn o k with
  | Some (CNum n) => CNum ((if n =? 0 then 0 else n) + 1)
  | Some (CStr s) =>
      match s with
      | [] => CNum (0 + 1)
      | _ => CStr (s ++ u16 "1")
      end
  | None =>
      match inheritedText k with
      | Some text => CStr (text ++ u16 "1")
      | None => CNum (0 + 1)
      end
  end.

(** [o[k] = v] for a primitive [v]: the key [__proto__] reaches the setter
    of [Object.prototype], which ignores a value that is neither an object
    nor null; any other key becomes or stays an own property. *)
Definition assign (o : jsobject) (k : jsstring) (v : countval) : jsobject :=
  if bool_decide (k = protoKey) then o else setOwn o k v.

(** The truth value of [o[k]]. *)
Definition truthyProp (o : jsobject) (k : jsstring) : bool :=
  match getOwn o k with
  | Some (CNum n) => negb (n =? 0)
  | Some (CStr s) => negb (bool_decide (s = []))
  | None => bool_decide (is_Some (inheritedText k))
  end.

(** Array indices: the canonical decimal strings of 0 .. 2^32 - 2. *)
Fixpoint parseDigits (acc : Z) (s : jsstring) : option Z :=
  match s with
  | [] => Some acc
  | c :: s' =>
      if ((48 <=? c) && (c <=? 57))%N
      then parseDigits (acc * 10 + Z.of_N (c - 48)) s'
      else None
  end.

Definition arrayIndex (k : jsstring) : option Z :=
  match k with
  | [] => None
  | c :: rest =>
      if (c =? 48)%N && negb (bool_decide (rest = [])) then None
      else
        match parseDigits 0 k with
        | Some n => if n <? 4294967295 then Some n else None
        | None => None
        end
  end.

Definition isArrayIndex (k : jsstring) : bool := bool_decide (is_Some (arrayIndex k)).

Definition indexOf (k : jsstring) : Z := default 0 (arrayIndex k).

(** ** [Array.prototype.sort]

    The sort of the language is stable; for a comparator that orders the
    elements consistently every stable sort returns the same array, here
    computed by insertion. [cmp a b] is the comparator's result with NaN
    already read as 0. Where the comparator is not consistent (a counter
    that is a string compares as NaN) the language leaves the order to the
    engine; the statements below that cover such inputs do not depend on
    the order. *)
Section ArraySort.
Context {A : Type} (cmp : A -> A -> Z).

Fixpoint insertSorted (x : A) (l : list A) : list A :=
  match l with
  | [] => [x]
  | y :: l' => if cmp x y <=? 0 then x :: l else y :: insertSorted x l'
  end.

Fixpoint arraySort (l : list A) : list A :=
  match l with
  | [] => []
  | x :: l' => insertSorted x (arraySort l')
  end.
End ArraySort.

(** [Object.entries(o)]: the array-index keys in ascending numeric order,
    then the other keys in creation order. *)
Definition entries (o : jsobject) : jsobject :=
  arraySort (fun a b => indexOf a.1 - indexOf b.1) (filter (fun e => isArrayIndex e.1) o)
  ++ filter (fun e => ¬ isArrayIndex e.1) o.

(** [Number(v)] of a counter; [None] is NaN. The strings that [increment]
    builds start with the text of an inherited member and are no numeric
    literals. *)
Definition toNumber (v : countval) : option Z :=
  match v with
  | CNum n => Some n
  | CStr _ => None
  end.

(** [(a, b) => b[1] - a[1]] *)
Definition byCountDescending (a b : jsstring * countval) : Z :=
  match toNumber b.2, toNumber a.2 with
  | Some nb, Some na => nb - na
  | _, _ => 0
  end.

(** [data.forEach(row => { const category = row[col];
      categoryCounts[category] = (categoryCounts[category] || 0) + 1; })]
    starting from [categoryCounts]. *)
Definition countCategories (col : jsstring) (data : list row) (categoryCounts : jsobject)
  : jsobject :=
  fold_left (fun categoryCounts row =>
               let category := ToString (getProp row col) in
               assign categoryCounts category (increment categoryCounts category))
            data categoryCounts.

(** ** The stats aggregator (server.js, getCategoryStats) *)

(** An entry [{ category, count }] of the result. *)
Record categoryStat : Type := { category : jsstring; count : countval }.

Definition getCategoryStats (data : list row) : list categoryStat :=
  let categoryCounts := countCategories reasonCol data [] in
  map (fun '(category, count) => {| category := category; count := count |})
      (arraySort byCountDescending (entries categoryCounts)).

(** ** The paginator (server.js, splitIntoPagesByCategoryPriority) *)

(** The group order: the keys of the counter map without the sentinel,
    by descending count, then the sentinel when it was counted. *)
Definition sortedCategoriesOf (categoryCounts : jsobject) : list jsstring :=
  let sortedCategories :=
    map fst (arraySort byCountDescending
               (filter (fun e => e.1 ≠ otherConcept) (entries categoryCounts))) in
  if truthyProp categoryCounts otherConcept
  then sortedCategories ++ [otherConcept]
  else sortedCategories.

(** [sortedCategories.forEach(cat => { ... })], threading the two arrays
    [reorderedData] and [otherConceptData]. *)
Definition reorderStep (data : list row) (categoryCol : jsstring)
    (acc : list row * list row) (cat : jsstring) : list row * list row :=
  let '(reorderedData, otherConceptData) := acc in
  let catData := filter (fun row => strictEqStr (getProp row categoryCol) cat) data in
  if bool_decide (cat = otherConcept)
  then (reorderedData, otherConceptData ++ catData)
  else (reorderedData ++ catData, otherConceptData).

Definition reorder (data : list row) (categoryCol : jsstring)
    (sortedCategories : list jsstring) : list row :=
  let '(reorderedData, otherConceptData) :=
    fold_left (reorderStep data categoryCol) sortedCategories ([], []) in
  reorderedData ++ otherConceptData.

(** The inner [while (j < reorderedData.length)] loop. [rest] is
    [reorderedData] from index [j] on, [categories] the [Set] as the list
    of its members in insertion order; the result is the value of [j] when
    the loop is left. *)
Fixpoint windowEnd (categoryCol : jsstring) (maxConstraint : jsnumber) (rest : list row)
    (categories : list jsval) (categoryCount itemCount : Z) (j : nat) : nat :=
  match rest with
  | [] => j
  | r :: rest' =>
      let currentCategory := getProp r categoryCol in
      let '(categories, categoryCount) :=
        if bool_decide (currentCategory ∈ categories)
        then (categories, categoryCount)
        else (categories ++ [currentCategory], categoryCount + 1) in
      let itemCount := itemCount + 1 in
      if greaterThan (categoryCount * 2 + itemCount) maxConstraint then j
      else windowEnd categoryCol maxConstraint rest' categories categoryCount itemCount (S j)
  end.

(** [reorderedData.slice(i, j)] *)
Definition slice {A : Type} (l : list A) (i j : nat) : list A := take (j - i)%nat (drop i l).

(** The outer [while (i < reorderedData.length)] loop. Every turn moves [i]
    forward, so [fuel] turns are enough when at most [fuel] rows are left. *)
Fixpoint pagesLoop (fuel : nat) (categoryCol : jsstring) (maxConstraint : jsnumber)
    (reorderedData : list row) (i : nat) (pages : list (list row)) : list (list row) :=
  match fuel with
  | O => pages
  | S fuel' =>
      if (i <? length reorderedData)%nat then
        let j := windowEnd categoryCol maxConstraint (drop i reorderedData) [] 0 0 i in
        let j := if (j =? i)%nat then (i + 1)%nat else j in
        pagesLoop fuel' categoryCol maxConstraint reorderedData j
                  (pages ++ [slice reorderedData i j])
      else pages
  end.

Definition paginate (categoryCol : jsstring) (maxConstraint : jsnumber)
    (reorderedData : list row) : list (list row) :=
  pagesLoop (length reorderedData) categoryCol maxConstraint reorderedData 0 [].

Definition splitIntoPagesByCategoryPriority (data : list row) (categoryCol : jsstring)
    (maxConstraint : jsnumber) : list (list row) :=
  let categoryCounts := countCategories categoryCol data [] in
  let sortedCategories := sortedCategoriesOf categoryCounts in
  let reorderedData := reorder data categoryCol sortedCategories in
  paginate categoryCol maxConstraint reorderedData.

(** The default value of the parameter [maxConstraint]. *)
Definition defaultMaxConstraint : Z := 33.

Definition mkRow (reason : jsval) : row := [(reasonCol, reason)].

(** ** The header normalizer (server.js, cleanDateFields) *)

Definition isDigit (c : N) : bool := ((48 <=? c) && (c <=? 57))%N.

Definition dot : N := 46%N.

(** A match of [/\d{4}\.\d{2}\.\d{2}$/] that covers the whole of [t]. *)
Definition isDateSuffix (t : jsstring) : bool :=
  match t with
  | [y1; y2; y3; y4; p1; m1; m2; p2; d1; d2] =>
      isDigit y1 && isDigit y2 && isDigit y3 && isDigit y4 && (p1 =? dot)%N
      && isDigit m1 && isDigit m2 && (p2 =? dot)%N && isDigit d1 && isDigit d2
  | _ => false
  end.

(** [col.replace(/\d{4}\.\d{2}\.\d{2}$/, '')]: the pattern is tied to the
    end of the input, so the only place where it can match is the last ten
    code units. *)
Definition stripDateSuffix (col : jsstring) : jsstring :=
  if isDateSuffix (drop (length col - 10) col)
  then take (length col - 10) col
  else col.

(** The object [newHeaders]: own properties with string values. *)
Abbreviation headerMap := (list (jsstring * jsstring)).

Fixpoint getHeader (h : headerMap) (k : jsstring) : option jsstring :=
  match h with
  | [] => None
  | (k', v) :: h' => if bool_decide (k' = k) then Some v else getHeader h' k
  end.

Fixpoint setHeader (h : headerMap) (k v : jsstring) : headerMap :=
  match h with
  | [] => [(k, v)]
  | (k', v') :: h' =>
      if bool_decide (k' = k) then (k', v) :: h' else (k', v') :: setHeader h' k v
  end.

(** [newHeaders[col] = cleanedCol]: a string assigned to [__proto__] is
    ignored by the setter of [Object.prototype]. *)
Definition assignHeader (h : headerMap) (col cleanedCol : jsstring) : headerMap :=
  if bool_decide (col = protoKey) then h else setHeader h col cleanedCol.

(** The property key that [newRow[newHeaders[oldKey]]] addresses: the own
    string, else the string form of the member that [oldKey] names on
    [Object.prototype], else "undefined". *)
Definition headerKey (newHeaders : headerMap) (oldKey : jsstring) : jsstring :=
  match getHeader newHeaders oldKey with
  | Some newKey => newKey
  | None =>
      match inheritedText oldKey with
      | Some text => text
      | None => u16 "undefined"
      end
  end.

(** A new own property whose key is the array index [n] takes its place
    among the array-index keys, which an object lists first, in ascending
    order. *)
Fixpoint insertIndexed (r : row) (k : jsstring) (n : Z) (v : jsval) : row :=
  match r with
  | [] => [(k, v)]
  | (k', v') :: r' =>
      match arrayIndex k' with
      | Some n' => if n <? n' then (k, v) :: r else (k', v') :: insertIndexed r' k n v
      | None => (k, v) :: r
      end
  end.

(** An own data property is written: an existing one keeps its place, a
    new one is listed among the array indices or, for any other key,
    last. *)
Definition defineProp (r : row) (k : jsstring) (v : jsval) : row :=
  match arrayIndex k with
  | Some n => if bool_decide (k ∈ map fst r) then setProp r k v else insertIndexed r k n v
  | None => setProp r k v
  end.

(** [newRow[k] = v] on an object that started as [{}]. The first component
    tells that the prototype was set to null before: until then the key
    [__proto__] reaches the setter of [Object.prototype], which changes the
    prototype for null and ignores every other value of a cell. *)
Definition assignProp (obj : bool * row) (k : jsstring) (v : jsval) : bool * row :=
  let '(nullProto, props) := obj in
  if bool_decide (k = protoKey) && negb nullProto
  then ((match v with JNull => true | _ => false end), props)
  else (nullProto, defineProp props k v).

(** The new row of one input row: [Object.keys(row).forEach(oldKey => ...)]
    on [newRow = {}]. *)
Definition cleanRow (newHeaders : headerMap) (row : row) : list (jsstring * jsval) :=
  snd (fold_left (fun newRow oldKey =>
                    let newKey := headerKey newHeaders oldKey in
                    assignProp newRow newKey (getProp row oldKey))
                 (map fst row) (false, [])).

Definition cleanDateFields (data : list row) : list row :=
  match data with
  | [] => data
  | firstRow :: _ =>
      let newHeaders :=
        fold_left (fun newHeaders col =>
                     let cleanedCol := stripDateSuffix col in
                     assignHeader newHeaders col cleanedCol)
                  (map fst firstRow) [] in
      map (cleanRow newHeaders) data
  end.

(** ** The renaming of the resolved columns (server.js, the upload
    handler; process_excel_cli.js, the main script) *)

(** The canonical names '最终涨停时间' and '连续涨停天数(天)', and the name
    '涨停原因揭秘' of the columns that are dropped. *)
Definition finalLimitTime : jsstring := [26368; 32456; 28072; 20572; 26102; 38388]%N.
Definition continuousLimitDays : jsstring :=
  [36830; 32493; 28072; 20572; 22825; 25968; 40; 22825; 41]%N.
Definition reasonDisclosure : jsstring := [28072; 20572; 21407; 22240; 25581; 31192]%N.

(** [delete row[k]] *)
Definition deleteProp (r : row) (k : jsstring) : row := filter (fun e => e.1 <> k) r.

(** [Object.keys(newRow).forEach(key => { if (key.includes('涨停原因揭秘'))
    delete newRow[key]; })] *)
Definition dropDisclosure (newRow : row) : row :=
  fold_left (fun newRow key =>
               if includes key reasonDisclosure then deleteProp newRow key else newRow)
            (map fst newRow) newRow.

(** The function that the handler maps over [cleanedData]. The four
    resolved names come from findColumn: each contains a canonical name and
    so is no member of [Object.prototype], and [row[...]] is an own
    read. *)
Definition renameRow (finalLimitTimeCol continuousLimitDaysCol limitReasonCol
    limitReasonCategoryCol : jsstring) (row : row) : list (jsstring * jsval) :=
  let newRow := row in
  let newRow := deleteProp newRow finalLimitTimeCol in
  let newRow := deleteProp newRow continuousLimitDaysCol in
  let newRow := deleteProp newRow limitReasonCol in
  let newRow := deleteProp newRow limitReasonCategoryCol in
  let newRow := setProp newRow finalLimitTime (getProp row finalLimitTimeCol) in
  let newRow := setProp newRow continuousLimitDays (getProp row continuousLimitDaysCol) in
  let newRow := setProp newRow reasonCol (getProp row limitReasonCol) in
  let newRow := setProp newRow reasonCategoryCol (getProp row limitReasonCategoryCol) in
  dropDisclosure newRow.

(** ** The sort of the rows (server.js, sortData) *)

(** [s < t] on two strings: the code units are compared from the left,
    and a proper prefix comes first. *)
Fixpoint strLt (s t : jsstring) : bool :=
  match s, t with
  | _, [] => false
  | [], _ :: _ => true
  | c :: s', d :: t' =>
      if (c <? d)%N then true else if (d <? c)%N then false else strLt s' t'
  end.

(** One entry of [pages] in the response of the handler. *)
Module Page.
Record t : Type := {
  pageNumber : Z;
  recordCount : nat;
  data : list row
}.
End Page.

(** The response of the handler for a sheet that has the four columns. *)
Module Response.
Record t : Type := {
  originalColumns : list jsstring;
  cleanedColumns : list jsstring;
  finalLimitTimeCol : jsstring;
  continuousLimitDaysCol : jsstring;
  limitReasonCol : jsstring;
  limitReasonCategoryCol : jsstring;
  recordCount : nat;
  pages : list Page.t;
  categoryStats : list categoryStat;
  maxConstraint : jsnumber
}.
End Response.

Section Pipeline.
(** [Number(s)] of a string: the value of a numeric literal, [None] for
    NaN. The grammar of the literals is left open. *)
Context (stringToNumber : jsstring -> option Z).

(** [Number(v)]; [None] is NaN. *)
Definition ToNumber (v : jsval) : option Z :=
  match v with
  | JUndefined => None
  | JNull => Some 0
  | JBool b => Some (if b then 1 else 0)
  | JNum n => Some n
  | JStr s => stringToNumber s
  end.

(** [x - y] *)
Definition minus (x y : jsval) : option Z :=
  match ToNumber x, ToNumber y with
  | Some n, Some m => Some (n - m)
  | _, _ => None
  end.

(** [x < y]: two strings are compared as strings, any other pair as
    numbers, and a comparison with NaN is false. *)
Definition lessThan (x y : jsval) : bool :=
  match x, y with
  | JStr s, JStr t => strLt s t
  | _, _ =>
      match ToNumber x, ToNumber y with
      | Some n, Some m => n <? m
      | _, _ => false
      end
  end.

(** The comparator of sortData; [None] is NaN. *)
Definition compareRows (a b : row) : option Z :=
  let daysDiff := minus (getProp b continuousLimitDays) (getProp a continuousLimitDays) in
  if negb (bool_decide (daysDiff = Some 0)) then daysDiff
  else if lessThan (getProp a finalLimitTime) (getProp b finalLimitTime) then Some (-1)
  else if lessThan (getProp b finalLimitTime) (getProp a finalLimitTime) then Some 1
  else Some 0.

(** [data.sort(...)]: the sort reads a comparator result NaN as 0. *)
Definition sortData (data : list row) : list row :=
  arraySort (fun a b => match compareRows a b with Some v => v | None => 0 end) data.

(** ** The upload handler (server.js, app.post('/api/upload')) *)

(** [Object.keys(data[0] || {})] *)
Definition firstKeys (data : list row) : list jsstring :=
  match data with
  | firstRow :: _ => map fst firstRow
  | [] => []
  end.

(** The handler from the parsed sheet [data] to the response: [None] is
    the status 400 for a missing column. [maxConstraint] is the value that
    [req.body.maxConstraint ? parseInt(req.body.maxConstraint) : 33]
    gives: the integer that the form field starts with, NaN when it starts
    with none, 33 without the field. *)
Definition processUpload (maxConstraint : jsnumber) (data : list row)
  : option Response.t :=
  let originalColumns := firstKeys data in
  let cleanedData := cleanDateFields data in
  let cleanedColumns := firstKeys cleanedData in
  match findColumn cleanedData finalLimitTime,
        findColumn cleanedData continuousLimitDays,
        findColumn cleanedData reasonCol,
        findColumn cleanedData reasonCategoryCol with
  | Some finalLimitTimeCol, Some continuousLimitDaysCol,
    Some limitReasonCol, Some limitReasonCategoryCol =>
      let renamedData :=
        map (renameRow finalLimitTimeCol continuousLimitDaysCol limitReasonCol
                       limitReasonCategoryCol) cleanedData in
      let processedData := processReasonCategoryField renamedData in
      let sortedData := sortData processedData in
      let pages := splitIntoPagesByCategoryPriority sortedData reasonCol maxConstraint in
      Some {| Response.originalColumns := originalColumns;
              Response.cleanedColumns := cleanedColumns;
              Response.finalLimitTimeCol := finalLimitTimeCol;
              Response.continuousLimitDaysCol := continuousLimitDaysCol;
              Response.limitReasonCol := limitReasonCol;
              Response.limitReasonCategoryCol := limitReasonCategoryCol;
              Response.recordCount := length data;
              Response.pages :=
                imap (fun index page =>
                        {| Page.pageNumber := Z.of_nat index + 1;
                           Page.recordCount := length page;
                           Page.data := take (min 5 (length page)) page |}) pages;
              Response.categoryStats := getCategoryStats sortedData;
              Response.maxConstraint := maxConstraint |}
  | _, _, _, _ => None
  end.
End Pipeline.

(** ** The export of a page (process_excel_cli.js) *)

(** The copy of a row that the export writes: [filteredRow[key] = row[key]]
    for the keys that do not contain the disclosure name. *)
Definition exportRow (row : row) : list (jsstring * jsval) :=
  snd (fold_left (fun filteredRow key =>
                    if negb (includes key reasonDisclosure)
                    then assignProp filteredRow key (getProp row key)
                    else filteredRow)
                 (map fst row) (false, [])).

(** ** Notions the statements use *)

(** The width as the specification words it: a code unit in
    U+4E00..U+9FFF counts 2, any other counts 1. *)
Definition unitWidth (c : N) : Z := if isChinese c then 2 else 1.

Definition widthBySpec (s : jsstring) : Z :=
  foldr (fun c acc => unitWidth c + acc) 0 s.

(** The last code unit of [s] is white space. *)
Definition endsWithWhiteSpace (s : jsstring) : bool :=
  match list.last s with
  | Some c => isWhiteSpace c
  | None => false
  end.

(** The first code unit of [s] is white space. *)
Definition startsWithWhiteSpace (s : jsstring) : bool :=
  match s with
  | c :: _ => isWhiteSpace c
  | [] => false
  end.

(** The number of distinct values of the grouping field in a page. *)
Definition distinctGroups (categoryCol : jsstring) (page : list row) : nat :=
  length (remove_dups (map (fun r => getProp r categoryCol) page)).

(** The budget of a page: twice its distinct groups plus its rows stay
    within [maxConstraint]; nothing is within NaN. *)
Definition withinConstraint (categoryCol : jsstring) (maxConstraint : jsnumber)
    (page : list row) : Prop :=
  match maxConstraint with
  | Num m => 2 * Z.of_nat (distinctGroups categoryCol page) + Z.of_nat (length page) <= m
  | NaN => False
  end.

(** What the paginator promises of a page: it is within the constraint,
    or it consists of one row. *)
Definition pageOk (categoryCol : jsstring) (maxConstraint : jsnumber) (page : list row)
  : Prop :=
  withinConstraint categoryCol maxConstraint page \/ length page = 1%nat.

(** [a] stands at some position of [l] and [b] at a later one. *)
Definition occursBefore {A : Type} (l : list A) (a b : A) : Prop :=
  exists i j : nat, (i < j)%nat /\ l !! i = Some a /\ l !! j = Some b.

(** Scanning [keys] from the left, [a] is met before [b] is. *)
Fixpoint firstSeenBefore (keys : list jsstring) (a b : jsstring) : bool :=
  match keys with
  | [] => false
  | k :: keys' =>
      if bool_decide (k = a) then negb (bool_decide (k = b))
      else if bool_decide (k = b) then false
      else firstSeenBefore keys' a b
  end.

(** The property key under which a row is counted: its cell, as a
    string. *)
Definition keyOf (col : jsstring) (r : row) : jsstring := ToString (getProp r col).

(** How often [k] occurs in [keys]. *)
Definition occurrences (k : jsstring) (keys : list jsstring) : Z :=
  Z.of_nat (length (filter (fun k' => k' = k) keys)).

(** The keys met so far, each at the place of its first occurrence. *)
Definition addNew (acc : list jsstring) (k : jsstring) : list jsstring :=
  if bool_decide (k ∈ acc) then acc else acc ++ [k].

(** The number a property holds, 0 when it is absent or holds a string. *)
Definition numOf (v : option countval) : Z :=
  match v with
  | Some (CNum n) => n
  | _ => 0
  end.

(** A property that is absent or holds a positive number. *)
Definition goodCount (v : option countval) : Prop :=
  v = None \/ exists n : Z, v = Some (CNum n) /\ 0 < n.

(** The order in which [Object.entries] lists two keys of a counter map
    that was filled in the order of [keys]: array indices come first, in
    ascending numeric order; the other keys follow in the order in which
    they were first met. *)
Definition enumeratedBefore (keys : list jsstring) (a b : jsstring) : Prop :=
  match arrayIndex a, arrayIndex b with
  | Some m, Some n => m < n
  | Some _, None => True
  | None, Some _ => False
  | None, None => firstSeenBefore keys a b = true
  end.

(** The sum of the numbers a list of properties holds. *)
Definition totalOf (o : jsobject) : Z :=
  foldr (fun e acc => numOf (Some e.2) + acc) 0 o.

(** The sum of the [count] fields of a result of the stats aggregator. *)
Definition totalCount (stats : list categoryStat) : Z :=
  foldr (fun st acc => numOf (Some (count st)) + acc) 0 stats.

(** The rows of one group, in the order of the input: the array
    [catData] of the paginator. *)
Definition rowsOfCategory (data : list row) (categoryCol : jsstring) (cat : jsstring)
  : list row :=
  filter (fun row => strictEqStr (getProp row categoryCol) cat) data.

(** Datasets that the statements below evaluate the code on. *)
Definition tiedReasons : list row :=
  [mkRow (JStr (u16 "b")); mkRow (JStr (u16 "1"))].

Definition mixedReasons : list row :=
  [mkRow (JStr (u16 "b")); mkRow (JStr (u16 "1")); mkRow (JStr (u16 "b")); mkRow (JNum 5)].

Definition lostRows : list row :=
  [mkRow (JStr (u16 "A")); mkRow (JNum 5); mkRow (JStr protoKey)].

Definition sentinelFirst : list row :=
  [mkRow (JStr otherConcept); mkRow (JStr otherConcept); mkRow (JStr (u16 "A"))].

(** A row that the paginator can place: its grouping value is a string,
    and not the string "__proto__". *)
Definition groupable (categoryCol : jsstring) (r : row) : bool :=
  match getProp r categoryCol with
  | JStr s => negb (bool_decide (s = protoKey))
  | _ => false
  end.

(** A first row without the key "days" itself: one key contains it, a
    later one trims to it. *)
Definition trimmedKeysRow : row :=
  [(u16 "days (d)", JNum 2); (u16 " days ", JNum 1)].

(** Three groups of decreasing size, met in the order A, B, C. *)
Definition rankedReasons : list row :=
  [mkRow (JStr (u16 "A")); mkRow (JStr (u16 "B")); mkRow (JStr (u16 "B"));
   mkRow (JStr (u16 "C")); mkRow (JStr (u16 "C")); mkRow (JStr (u16 "C"))].

(** Two groups of two rows, which a budget of 6 cannot hold in one
    page. *)
Definition twoPairs : list row :=
  [mkRow (JStr (u16 "A")); mkRow (JStr (u16 "A"));
   mkRow (JStr (u16 "B")); mkRow (JStr (u16 "B"))].

(** A sheet whose headers carry a date, and a row in which two headers
    are cleaned to the same name. *)
Definition datedSheet : list row :=
  [[(u16 "code", JStr (u16 "600000"));
    (reasonCol ++ u16 "2024.03.15", JStr (u16 "AI"));
    (u16 "price2024.03.15", JNum 12)]].

Definition collidingRow : row :=
  [(u16 "price2024.03.14", JNum 11); (u16 "price2024.03.15", JNum 12)].

(** A cleaned row with a disclosure column and a padded reason column. *)
Definition disclosedRow : row :=
  [(u16 "code", JStr (u16 "600000"));
   (finalLimitTime, JStr (u16 "09:30:00"));
   (continuousLimitDays, JNum 2);
   (reasonCol ++ u16 " ", JStr (u16 "AI"));
   (reasonCategoryCol, JStr (u16 "AI+chips"));
   (reasonDisclosure ++ u16 "2024", JStr (u16 "text"))].

(** The two values that sortData compares, when the day count is a
    number and the time a string. *)
Definition sortKey (r : row) : option (Z * jsstring) :=
  match getProp r continuousLimitDays, getProp r finalLimitTime with
  | JNum n, JStr t => Some (n, t)
  | _, _ => None
  end.

(** Rows of a sheet after the renaming, and a sheet with dated headers. *)
Definition boardRow (code : string) (days : Z) (time reason category : string) : row :=
  [(u16 "code", JStr (u16 code));
   (finalLimitTime, JStr (u16 time));
   (continuousLimitDays, JNum days);
   (reasonCol, JStr (u16 reason));
   (reasonCategoryCol, JStr (u16 category))].

Definition board : list row :=
  [boardRow "600001" 1 "09:45:00" "AI" "AI+chips";
   boardRow "600002" 3 "10:15:00" "robots" "robots+";
   boardRow "600003" 1 "09:31:00" "AI" "AI";
   boardRow "600004" 1 "09:45:00" "chips" "chips+AI"].

Definition datedBoardRow (code : string) (days : Z) (time reason category : string) : row :=
  [(u16 "code", JStr (u16 code));
   (finalLimitTime ++ u16 "2024.03.15", JStr (u16 time));
   (continuousLimitDays ++ u16 "2024.03.15", JNum days);
   (reasonCol ++ u16 "2024.03.15", JStr (u16 reason));
   (reasonCategoryCol ++ u16 "2024.03.15", JStr (u16 category));
   (reasonDisclosure ++ u16 "2024.03.15", JStr (u16 "text"))].

Definition datedBoard : list row :=
  [datedBoardRow "600001" 1 "09:45:00" "AI" "AI+chips";
   datedBoardRow "600002" 3 "10:15:00" "robots" "robots+";
   datedBoardRow "600003" 1 "09:31:00" "AI" "AI";
   datedBoardRow "600004" 1 "09:45:00" "chips" "chips+AI"].

(** A reading of the strings for sheets in which the sort compares no
    string as a number. *)
Definition noNumber (s : jsstring) : option Z := None.

(** The first row has a column for [name]: a key, other than "__proto__",
    that is the name itself or the name followed by a date. *)
Definition hasHeader (firstRow : row) (name : jsstring) : Prop :=
  exists k, k ∈ map fst firstRow /\ k <> protoKey /\ stripDateSuffix k = name.

(** A row with a key that only the export would have to drop, were it to
    reach a page. *)
Definition pageRow : row :=
  [(u16 "code", JStr (u16 "600001"));
   (reasonDisclosure, JStr (u16 "text"));
   (reasonCol, JStr (u16 "AI"))].

(** * Properties *)

(** ** Unit checks of the embedding *)

Example width_zhongwen : calculateChineseLength (JStr [20013; 25991]%N) = 4.
Proof. reflexivity. Qed.
Example width_abc : calculateChineseLength (JStr (u16 "abc")) = 3.
Proof. reflexivity. Qed.
Example trim_ex1 : trimReasonCategoryField (u16 "ab+cd+") 36 = u16 "ab+cd".
Proof. reflexivity. Qed.
Example trim_ex2 : trimReasonCategoryField (u16 "ab+cd+ef") 7 = u16 "ab+cd".
Proof. vm_compute. reflexivity. Qed.
Example norm_ex : normalizeReasonCategory (JStr (u16 "  a   b  ")) = u16 "a b".
Proof. vm_compute. reflexivity. Qed.
Example norm_num : normalizeReasonCategory (JNum (-120)) = u16 "-120".
Proof. vm_compute. reflexivity. Qed.
Example width_mixed : calculateChineseLength (JStr (20013%N :: u16 "a")) = 3.
Proof. reflexivity. Qed.
Example stats_AAB :
  getCategoryStats [mkRow (JStr (u16 "A")); mkRow (JStr (u16 "A")); mkRow (JStr (u16 "B"))]
  = [ {| category := u16 "A"; count := CNum 2 |};
      {| category := u16 "B"; count := CNum 1 |} ].
Proof. reflexivity. Qed.
Example pages_two_groups :
  splitIntoPagesByCategoryPriority
    [mkRow (JStr (u16 "B")); mkRow (JStr (u16 "A"))] reasonCol defaultMaxConstraint
  = [[mkRow (JStr (u16 "B")); mkRow (JStr (u16 "A"))]].
Proof. reflexivity. Qed.
Example pages_small_budget :
  splitIntoPagesByCategoryPriority
    [mkRow (JStr (u16 "A")); mkRow (JStr (u16 "B")); mkRow (JStr otherConcept);
     mkRow (JStr (u16 "B"))] reasonCol 5
  = [[mkRow (JStr (u16 "B")); mkRow (JStr (u16 "B"))]; [mkRow (JStr (u16 "A"))];
     [mkRow (JStr otherConcept)]].
Proof. reflexivity. Qed.
Example findColumn_trimmed :
  findColumn [[(u16 " days ", JNum 1); (u16 "days (d)", JNum 2)]] (u16 "days")
  = Some (u16 " days ").
Proof. reflexivity. Qed.

(** ** The width metric *)

Lemma calculateChineseLength_spec (s : jsstring) :
  calculateChineseLength (JStr s) = widthBySpec s.
Proof.
  unfold calculateChineseLength, ToString.
  induction s as [|c s IH]; [reflexivity|].
  rewrite filter_cons. unfold widthBySpec in *. cbn [foldr]. unfold unitWidth at 1.
  destruct (isChinese c); destruct (decide _) as [H|H]; cbn in H; try tauto;
    cbn [length]; lia.
Qed.

Lemma widthBySpec_app (s t : jsstring) :
  widthBySpec (s ++ t) = widthBySpec s + widthBySpec t.
Proof.
  unfold widthBySpec. induction s as [|c s IH]; cbn [foldr app]; lia.
Qed.

Lemma widthBySpec_nonneg (s : jsstring) : 0 <= widthBySpec s.
Proof.
  unfold widthBySpec. induction s as [|c s IH]; cbn [foldr]; [lia|].
  unfold unitWidth at 1. destruct (isChinese c); lia.
Qed.

Lemma width_prefix (s t : jsstring) :
  s `prefix_of` t ->
  calculateChineseLength (JStr s) <= calculateChineseLength (JStr t).
Proof.
  intros [k ->]. rewrite !calculateChineseLength_spec, widthBySpec_app.
  pose proof (widthBySpec_nonneg k). lia.
Qed.

(** ** The trimmer returns a prefix without a trailing plus sign *)

Lemma slice0_prefix (s : jsstring) (i : nat) : slice0 s i `prefix_of` s.
Proof. apply prefix_take. Qed.

Lemma dropLast_prefix (s : jsstring) : dropLast s `prefix_of` s.
Proof. apply prefix_take. Qed.

Lemma endsWith_nonempty (s : jsstring) (c : N) : endsWith s c = true -> s <> [].
Proof. intros H ->. discriminate. Qed.

Lemma dropLast_length (s : jsstring) : s <> [] -> S (length (dropLast s)) = length s.
Proof.
  intros H. unfold dropLast. rewrite length_take.
  destruct s; [congruence|]. cbn [length]. lia.
Qed.

Lemma stripPlusLoop_prefix (fuel : nat) (s : jsstring) :
  stripPlusLoop fuel s `prefix_of` s.
Proof.
  revert s. induction fuel as [|fuel IH]; intros s; cbn [stripPlusLoop]; [done|].
  destruct (endsWith s plus); [|done].
  etransitivity; [apply IH | apply dropLast_prefix].
Qed.

Lemma stripPlusLoop_endsWith (fuel : nat) (s : jsstring) :
  (length s <= fuel)%nat -> endsWith (stripPlusLoop fuel s) plus = false.
Proof.
  revert s. induction fuel as [|fuel IH]; intros s Hlen; cbn [stripPlusLoop].
  - destruct s; [reflexivity | cbn [length] in Hlen; lia].
  - destruct (endsWith s plus) eqn:E; [|exact E].
    apply IH. pose proof (dropLast_length s (endsWith_nonempty _ _ E)). lia.
Qed.

Lemma stripPlusLoop_id (fuel : nat) (s : jsstring) :
  endsWith s plus = false -> stripPlusLoop fuel s = s.
Proof. intros H. destruct fuel; cbn [stripPlusLoop]; [done|]. by rewrite H. Qed.

Lemma stripTrailingPlus_prefix (s : jsstring) : stripTrailingPlus s `prefix_of` s.
Proof. apply stripPlusLoop_prefix. Qed.

Lemma stripTrailingPlus_endsWith (s : jsstring) :
  endsWith (stripTrailingPlus s) plus = false.
Proof. by apply stripPlusLoop_endsWith. Qed.

Lemma truncateLoop_prefix (s : jsstring) (m : Z) (i : nat) :
  truncateLoop s m i `prefix_of` s.
Proof.
  induction i as [|i IH]; cbn [truncateLoop]; [apply prefix_nil|].
  destruct (_ <=? m); [|exact IH].
  etransitivity; [apply stripTrailingPlus_prefix|].
  destruct (_ && _).
  - etransitivity; apply slice0_prefix.
  - apply slice0_prefix.
Qed.

Lemma truncateLoop_endsWith (s : jsstring) (m : Z) (i : nat) :
  endsWith (truncateLoop s m i) plus = false.
Proof.
  induction i as [|i IH]; cbn [truncateLoop]; [reflexivity|].
  destruct (_ <=? m); [apply stripTrailingPlus_endsWith | exact IH].
Qed.

Lemma truncateLoop_width (s : jsstring) (m : Z) (i : nat) :
  0 <= m -> calculateChineseLength (JStr (truncateLoop s m i)) <= m.
Proof.
  intros Hm. induction i as [|i IH]; cbn [truncateLoop]; [exact Hm|].
  destruct (_ <=? m) eqn:E; [|exact IH].
  apply Z.leb_le in E.
  etransitivity; [apply width_prefix, stripTrailingPlus_prefix|].
  destruct (_ && _); [|exact E].
  etransitivity; [apply width_prefix, slice0_prefix | exact E].
Qed.

Lemma trimReasonCategoryField_prefix (s : jsstring) (m : Z) :
  trimReasonCategoryField s m `prefix_of` s.
Proof.
  unfold trimReasonCategoryField.
  destruct (_ <=? m); [apply stripTrailingPlus_prefix | apply truncateLoop_prefix].
Qed.

Lemma trimReasonCategoryField_endsWith (s : jsstring) (m : Z) :
  endsWith (trimReasonCategoryField s m) plus = false.
Proof.
  unfold trimReasonCategoryField.
  destruct (_ <=? m); [apply stripTrailingPlus_endsWith | apply truncateLoop_endsWith].
Qed.

Lemma trimReasonCategoryField_width (s : jsstring) (m : Z) :
  0 <= m -> calculateChineseLength (JStr (trimReasonCategoryField s m)) <= m.
Proof.
  intros Hm. unfold trimReasonCategoryField.
  destruct (_ <=? m) eqn:E; [|by apply truncateLoop_width].
  apply Z.leb_le in E.
  etransitivity; [apply width_prefix, stripTrailingPlus_prefix | exact E].
Qed.

(** A string within the budget and without a trailing plus sign is
    returned as it is. *)
Lemma trimReasonCategoryField_fixed (s : jsstring) (m : Z) :
  calculateChineseLength (JStr s) <= m -> endsWith s plus = false ->
  trimReasonCategoryField s m = s.
Proof.
  intros Hw He. unfold trimReasonCategoryField.
  apply Z.leb_le in Hw. rewrite Hw. by apply stripPlusLoop_id.
Qed.

(** C5: whatever the input string and the width budget, the string that
    trimReasonCategoryField returns does not end with the character '+'. *)
Theorem trimReasonCategoryField_no_trailing_plus (s : jsstring) (maxLength : Z) :
  list.last (trimReasonCategoryField s maxLength) <> Some plus.
Proof.
  pose proof (trimReasonCategoryField_endsWith s maxLength) as H.
  unfold endsWith in H. intros E. rewrite E in H.
  by rewrite N.eqb_refl in H.
Qed.

(** C3, amended: for every input string and every width budget
    [maxLength] that is not negative, the width of the returned string,
    where a code unit in U+4E00..U+9FFF counts 2 and any other counts 1,
    is at most [maxLength]. *)
Theorem trimReasonCategoryField_within_budget (s : jsstring) (maxLength : Z) :
  0 <= maxLength ->
  calculateChineseLength (JStr (trimReasonCategoryField s maxLength)) <= maxLength
  /\ widthBySpec (trimReasonCategoryField s maxLength) <= maxLength.
Proof.
  intros Hm. rewrite <- calculateChineseLength_spec.
  split; by apply trimReasonCategoryField_width.
Qed.

Lemma trimReasonCategoryField_within_budget_witness :
  0 <= 7
  /\ calculateChineseLength
       (JStr (trimReasonCategoryField (u16 "ab+cd+ef" ++ [20013; 25991]%N) 7)) <= 7
  /\ widthBySpec (trimReasonCategoryField (u16 "ab+cd+ef" ++ [20013; 25991]%N) 7) <= 7.
Proof.
  split; [lia|].
  apply (trimReasonCategoryField_within_budget (u16 "ab+cd+ef" ++ [20013; 25991]%N) 7).
  lia.
Defined.

(** C3 as stated fails for a negative budget: no prefix fits, the empty
    string is returned, and its width 0 exceeds the budget. *)
Lemma trimReasonCategoryField_negative_budget :
  trimReasonCategoryField (u16 "a") (-1) = []
  /\ ~ calculateChineseLength (JStr (trimReasonCategoryField (u16 "a") (-1))) <= -1.
Proof. split; [reflexivity|]. vm_compute. intros H. apply H. reflexivity. Qed.

(** ** The trimmed field is a prefix of the normalized cell *)

Lemma getProp_setProp (r : row) (k : jsstring) (v : jsval) :
  getProp (setProp r k v) k = v.
Proof.
  induction r as [|[k' v'] r IH]; cbn [setProp getProp].
  - by rewrite bool_decide_eq_true_2.
  - destruct (bool_decide (k' = k)) eqn:E; cbn [getProp]; by rewrite E.
Qed.

(** C10: in every row that processReasonCategoryField returns, the category
    field is a string, and that string is a prefix of what
    normalizeReasonCategory makes of the raw cell of the input row. *)
Theorem processReasonCategoryField_prefix (data : list row) :
  Forall2 (fun row newRow =>
             exists trimmed : jsstring,
               getProp newRow reasonCategoryCol = JStr trimmed
               /\ trimmed `prefix_of` normalizeReasonCategory (getProp row reasonCategoryCol))
          data (processReasonCategoryField data).
Proof.
  unfold processReasonCategoryField.
  induction data as [|r data IH]; cbn [map]; constructor; [|exact IH].
  eexists. split; [apply getProp_setProp | apply trimReasonCategoryField_prefix].
Qed.

(** ** Normal forms of the white-space normalization *)

Lemma collapseRuns_length (b : bool) (s : jsstring) :
  (length (collapseRuns b s) <= length s)%nat.
Proof.
  revert b. induction s as [|c s IH]; intros b; cbn [collapseRuns length]; [lia|].
  pose proof (IH true). pose proof (IH false).
  destruct (isWhiteSpace c); [destruct b|]; cbn [length]; lia.
Qed.

(** Collapsing is idempotent; a run that is already open stays open. *)
Lemma collapseRuns_idem (s : jsstring) (b b' : bool) :
  (b' = true -> b = true) ->
  collapseRuns b' (collapseRuns b s) = collapseRuns b s.
Proof.
  revert b b'. induction s as [|c s IH]; intros b b' Hb; cbn [collapseRuns]; [done|].
  destruct (isWhiteSpace c) eqn:Ec.
  - destruct b.
    + by apply IH.
    + destruct b'; [by specialize (Hb eq_refl)|].
      cbn [collapseRuns]. change (isWhiteSpace space) with true. cbn iota.
      f_equal. by apply IH.
  - cbn [collapseRuns]. rewrite Ec. f_equal. by apply IH.
Qed.

(** A prefix of a collapsed string is collapsed. *)
Lemma collapseRuns_fixed_prefix (s k : jsstring) (b : bool) :
  collapseRuns b (s ++ k) = s ++ k -> collapseRuns b s = s.
Proof.
  revert b. induction s as [|c s IH]; intros b; [done|].
  cbn [app collapseRuns]. destruct (isWhiteSpace c) eqn:Ec.
  - destruct b.
    + intros H. apply (f_equal length) in H. cbn [length] in H.
      pose proof (collapseRuns_length true (s ++ k)). lia.
    + intros H. injection H as <- H. f_equal. by apply IH.
  - intros H. injection H as H. f_equal. by apply IH.
Qed.

Lemma trimStart_length (s : jsstring) : (length (trimStart s) <= length s)%nat.
Proof.
  induction s as [|c s IH]; cbn [trimStart length]; [lia|].
  destruct (isWhiteSpace c); cbn [length]; lia.
Qed.

Lemma trimStart_starts (s : jsstring) : startsWithWhiteSpace (trimStart s) = false.
Proof.
  induction s as [|c s IH]; cbn [trimStart]; [done|].
  destruct (isWhiteSpace c) eqn:Ec; [exact IH | exact Ec].
Qed.

Lemma trimStart_id (s : jsstring) : startsWithWhiteSpace s = false -> trimStart s = s.
Proof.
  destruct s as [|c s]; cbn [startsWithWhiteSpace trimStart]; [done|]. by intros ->.
Qed.

Lemma trimStart_snoc (w : jsstring) (h : N) :
  isWhiteSpace h = false -> trimStart (w ++ [h]) = trimStart w ++ [h].
Proof.
  intros Hh. induction w as [|c w IH]; cbn [app trimStart].
  - by rewrite Hh.
  - by destruct (isWhiteSpace c).
Qed.

Lemma trimEnd_cons (h : N) (u : jsstring) :
  isWhiteSpace h = false -> trimEnd (h :: u) = h :: trimEnd u.
Proof.
  intros Hh. unfold trimEnd.
  by rewrite reverse_cons, trimStart_snoc, reverse_snoc.
Qed.

Lemma trimEnd_id (s : jsstring) : endsWithWhiteSpace s = false -> trimEnd s = s.
Proof.
  destruct s as [|c s _] using rev_ind; [done|].
  unfold endsWithWhiteSpace, trimEnd. rewrite last_snoc, reverse_snoc.
  cbn [trimStart]. intros ->. by rewrite <- reverse_snoc, reverse_involutive.
Qed.

Lemma trimEnd_shorter (s : jsstring) :
  endsWithWhiteSpace s = true -> (length (trimEnd s) < length s)%nat.
Proof.
  destruct s as [|c s _] using rev_ind; [done|].
  unfold endsWithWhiteSpace, trimEnd. rewrite last_snoc, reverse_snoc.
  cbn [trimStart]. intros ->. rewrite length_reverse, length_app. cbn [length].
  pose proof (trimStart_length (reverse s)). rewrite length_reverse in H. lia.
Qed.

Lemma trim_starts (s : jsstring) : startsWithWhiteSpace (trim s) = false.
Proof.
  unfold trim. pose proof (trimStart_starts s) as H.
  destruct (trimStart s) as [|h u]; [done|]. cbn in H.
  by rewrite trimEnd_cons.
Qed.

Lemma collapseRuns_starts (s : jsstring) :
  startsWithWhiteSpace s = false -> startsWithWhiteSpace (collapseRuns false s) = false.
Proof.
  destruct s as [|c s]; cbn [startsWithWhiteSpace collapseRuns]; [done|].
  intros Hc. by rewrite Hc.
Qed.

Lemma startsWithWhiteSpace_prefix (r s : jsstring) :
  r `prefix_of` s -> startsWithWhiteSpace s = false -> startsWithWhiteSpace r = false.
Proof. intros [k ->]. by destruct r. Qed.

(** What normalizeReasonCategory returns does not start with white space
    and is collapsed. *)
Lemma normalizeReasonCategory_starts (x : jsval) :
  startsWithWhiteSpace (normalizeReasonCategory x) = false.
Proof.
  destruct x; cbn [normalizeReasonCategory]; try done;
    apply collapseRuns_starts, trim_starts.
Qed.

Lemma normalizeReasonCategory_collapsed (x : jsval) :
  collapseRuns false (normalizeReasonCategory x) = normalizeReasonCategory x.
Proof.
  destruct x; cbn [normalizeReasonCategory]; try done;
    by apply collapseRuns_idem.
Qed.

Lemma trimCell_starts (x : jsval) : startsWithWhiteSpace (trimCell x) = false.
Proof.
  eapply startsWithWhiteSpace_prefix;
    [apply trimReasonCategoryField_prefix | apply normalizeReasonCategory_starts].
Qed.

Lemma trimCell_collapsed (x : jsval) : collapseRuns false (trimCell x) = trimCell x.
Proof.
  destruct (trimReasonCategoryField_prefix (normalizeReasonCategory x) defaultMaxLength)
    as [k Hk].
  apply (collapseRuns_fixed_prefix _ k). fold (trimCell x) in Hk.
  rewrite <- Hk. apply normalizeReasonCategory_collapsed.
Qed.

(** Normalizing a trimmed field again removes at most its trailing white
    space. *)
Lemma normalize_trimCell (x : jsval) :
  endsWithWhiteSpace (trimCell x) = false ->
  normalizeReasonCategory (JStr (trimCell x)) = trimCell x.
Proof.
  intros He. cbn [normalizeReasonCategory ToString]. unfold trim.
  rewrite (trimStart_id _ (trimCell_starts x)), (trimEnd_id _ He).
  apply trimCell_collapsed.
Qed.

Lemma normalize_trimCell_shorter (x : jsval) :
  endsWithWhiteSpace (trimCell x) = true ->
  (length (normalizeReasonCategory (JStr (trimCell x))) < length (trimCell x))%nat.
Proof.
  intros He. cbn [normalizeReasonCategory ToString]. unfold trim, replaceWhiteSpaceRuns.
  rewrite (trimStart_id _ (trimCell_starts x)).
  pose proof (trimEnd_shorter _ He).
  pose proof (collapseRuns_length false (trimEnd (trimCell x))). lia.
Qed.

(** C4, amended: applying the trimmer of a cell (normalizeReasonCategory,
    then trimReasonCategoryField at the default budget 36) to its own
    result gives that result again exactly when the result does not end
    with a white-space character; a result that ends with white space is
    shortened by the second application. *)
Theorem trimCell_idempotent_iff (x : jsval) :
  trimCell (JStr (trimCell x)) = trimCell x <-> endsWithWhiteSpace (trimCell x) = false.
Proof.
  split.
  - intros Heq. destruct (endsWithWhiteSpace (trimCell x)) eqn:He; [|done].
    exfalso. apply (f_equal length) in Heq.
    pose proof (normalize_trimCell_shorter x He) as Hlt.
    pose proof (prefix_length _ _
      (trimReasonCategoryField_prefix (normalizeReasonCategory (JStr (trimCell x)))
         defaultMaxLength)) as Hle.
    unfold trimCell at 1 in Heq. lia.
  - intros He. unfold trimCell at 1. rewrite (normalize_trimCell x He).
    apply trimReasonCategoryField_fixed.
    + by apply trimReasonCategoryField_width.
    + apply trimReasonCategoryField_endsWith.
Qed.

(** C4 as stated fails: the cell "a +" is trimmed to "a " (the plus sign is
    stripped after the normalization), and trimming "a " gives "a". *)
Lemma trimCell_not_idempotent :
  trimCell (JStr (u16 "a +")) = u16 "a "
  /\ trimCell (JStr (trimCell (JStr (u16 "a +")))) = u16 "a"
  /\ trimCell (JStr (trimCell (JStr (u16 "a +")))) <> trimCell (JStr (u16 "a +")).
Proof.
  split; [reflexivity|]. split; [reflexivity|].
  vm_compute. discriminate.
Qed.

(** ** The column resolver *)

Lemma isPrefixOf_spec (t s : jsstring) :
  isPrefixOf t s = true <-> t `prefix_of` s.
Proof.
  revert s. induction t as [|a t IH]; intros s; cbn [isPrefixOf].
  - split; [intros _; apply prefix_nil | done].
  - destruct s as [|b s].
    + split; [done | intros H; by apply prefix_nil_inv in H].
    + rewrite andb_true_iff, N.eqb_eq, IH. split.
      * intros [-> H]. by apply prefix_cons.
      * intros H. split; [by apply prefix_cons_inv_1 in H | by apply prefix_cons_inv_2 in H].
Qed.

(** [includes s t] holds exactly when [t] occurs in [s] as a substring. *)
Lemma includes_spec (s t : jsstring) :
  includes s t = true <-> exists a b : jsstring, s = a ++ t ++ b.
Proof.
  induction s as [|c s IH]; cbn [includes]; rewrite orb_true_iff, isPrefixOf_spec.
  - split.
    + intros [[b ->]|?]; [by exists [], b | done].
    + intros (a & b & H). left. symmetry in H.
      apply app_eq_nil in H as [-> H]. apply app_eq_nil in H as [-> ->]. done.
  - rewrite IH. split.
    + intros [[b ->]|(a & b & ->)]; [by exists [], b | by exists (c :: a), b].
    + intros (a & b & H). destruct a as [|c' a].
      * left. exists b. exact H.
      * right. injection H as -> ->. by exists a, b.
Qed.

Lemma find_none_iff {A : Type} (f : A -> bool) (l : list A) :
  List.find f l = None <-> forall x, x ∈ l -> f x = false.
Proof.
  induction l as [|y l IH]; cbn [List.find].
  - split; [intros _ x Hx; by apply elem_of_nil in Hx | done].
  - destruct (f y) eqn:E.
    + split; [done|]. intros H. rewrite H in E; [done | by left].
    + rewrite IH. split.
      * intros H x Hx. apply elem_of_cons in Hx as [->|Hx]; auto.
      * intros H x Hx. apply H. by right.
Qed.

(** C8: findColumn returns the target name itself as soon as the first
    row has a key equal to it, whatever other keys match after trimming or
    as a substring; and it returns null (None) when the dataset is empty
    or no key of the first row matches exactly, after trimming, or by
    containing the target name. *)
Theorem findColumn_exact_first_and_not_found
    (data : list row) (columnName : jsstring) :
  (forall firstRow rest,
      data = firstRow :: rest -> columnName ∈ map fst firstRow ->
      findColumn data columnName = Some columnName)
  /\ (data = [] -> findColumn data columnName = None)
  /\ (forall firstRow rest,
        data = firstRow :: rest ->
        (forall key, key ∈ map fst firstRow ->
           key <> columnName /\ trim key <> columnName
           /\ ~ exists a b : jsstring, key = a ++ columnName ++ b) ->
        findColumn data columnName = None).
Proof.
  split; [|split].
  - intros firstRow rest -> Hin. cbn [findColumn].
    by rewrite bool_decide_eq_true_2.
  - by intros ->.
  - intros firstRow rest -> Hno. cbn [findColumn].
    rewrite bool_decide_eq_false_2; [|intros Hin; by destruct (Hno _ Hin) as [? _]].
    assert (List.find (fun col => bool_decide (trim col = columnName)) (map fst firstRow)
            = None) as ->.
    { apply find_none_iff. intros key Hkey. apply bool_decide_eq_false_2.
      by destruct (Hno _ Hkey) as (_ & ? & _). }
    apply find_none_iff. intros key Hkey.
    destruct (includes key columnName) eqn:E; [|done].
    apply includes_spec in E. by destruct (Hno _ Hkey) as (_ & _ & ?).
Qed.

(** The three clauses of C8 at concrete rows: an exact key beats a key
    that matches after trimming and one that contains the name, and a row
    without any match gives null. *)
Lemma findColumn_exact_first_and_not_found_witness :
  findColumn [[(u16 " days ", JNum 1); (u16 "days (d)", JNum 2); (u16 "days", JNum 3)]]
             (u16 "days") = Some (u16 "days")
  /\ findColumn [] (u16 "days") = None
  /\ findColumn [[(u16 "time", JNum 1); (u16 "day", JNum 2)]] (u16 "days") = None.
Proof.
  split; [|split].
  - eapply (proj1 (findColumn_exact_first_and_not_found _ (u16 "days")));
      [reflexivity|]. apply list_elem_of_In. cbn. tauto.
  - by apply (proj1 (proj2 (findColumn_exact_first_and_not_found [] (u16 "days")))).
  - eapply (proj2 (proj2 (findColumn_exact_first_and_not_found _ (u16 "days"))));
      [reflexivity|].
    intros key Hkey. apply list_elem_of_In in Hkey. cbn in Hkey.
    destruct Hkey as [<-|[<-|[]]];
      (split; [discriminate|]; split; [vm_compute; discriminate|];
       rewrite <- includes_spec; vm_compute; discriminate).
Defined.

(** ** The windows of the paginator *)

Section Windows.
Context (categoryCol : jsstring) (maxConstraint : Z).

Local Abbreviation cat := (fun r : row => getProp r categoryCol).

(** The [Set] of the inner loop holds the groups of the rows admitted so
    far, each once; [categoryCount] is its size. *)
Lemma categories_distinctGroups (categories : list jsval) (seen : list row) :
  NoDup categories ->
  (forall v, v ∈ categories <-> v ∈ map cat seen) ->
  length categories = distinctGroups categoryCol seen.
Proof.
  intros Hnd Hin. unfold distinctGroups. apply Permutation_length.
  apply NoDup_Permutation; [done | apply NoDup_remove_dups|].
  intros v. rewrite elem_of_remove_dups. apply Hin.
Qed.

(** The inner loop, entered with the rows [seen] already admitted, leaves
    [j] after [k] more rows, and the rows admitted then are within the
    constraint, unless none was admitted at all. *)
Lemma windowEnd_spec (rest seen : list row) (categories : list jsval)
    (categoryCount itemCount : Z) (j : nat) :
  NoDup categories ->
  (forall v, v ∈ categories <-> v ∈ map cat seen) ->
  categoryCount = Z.of_nat (length categories) ->
  itemCount = Z.of_nat (length seen) ->
  (seen = [] \/ withinConstraint categoryCol maxConstraint seen) ->
  exists k : nat,
    windowEnd categoryCol maxConstraint rest categories categoryCount itemCount j
    = (j + k)%nat
    /\ (k <= length rest)%nat
    /\ (seen ++ take k rest = []
        \/ withinConstraint categoryCol maxConstraint (seen ++ take k rest)).
Proof.
  revert seen categories categoryCount itemCount j.
  induction rest as [|r rest IH];
    intros seen categories categoryCount itemCount j Hnd Hin Hcc Hic Hseen.
  - exists 0%nat. cbn [windowEnd length take]. rewrite app_nil_r.
    repeat split; [lia | lia | exact Hseen].
  - cbn [windowEnd]. fold (cat r).
    set (categories' := if bool_decide (cat r ∈ categories)
                        then categories else categories ++ [cat r]).
    set (categoryCount' := if bool_decide (cat r ∈ categories)
                           then categoryCount else categoryCount + 1).
    assert (NoDup categories') as Hnd'.
    { unfold categories'. case_bool_decide; [done|].
      apply list.NoDup_app. repeat split; [done | | apply NoDup_singleton].
      intros v Hv Hv'. apply list_elem_of_singleton in Hv' as ->. done. }
    assert (forall v, v ∈ categories' <-> v ∈ map cat (seen ++ [r])) as Hin'.
    { intros v. rewrite map_app, elem_of_app. cbn [map].
      rewrite list_elem_of_singleton, <- Hin. unfold categories'.
      case_bool_decide as Hr.
      - split; [tauto | intros [?| ->]; done].
      - by rewrite elem_of_app, list_elem_of_singleton. }
    assert (categoryCount' = Z.of_nat (length categories')) as Hcc'.
    { unfold categoryCount', categories'. case_bool_decide; [done|].
      rewrite length_app. cbn [length]. lia. }
    assert (itemCount + 1 = Z.of_nat (length (seen ++ [r]))) as Hic'.
    { rewrite length_app. cbn [length]. lia. }
    replace (if bool_decide (cat r ∈ categories)
             then (categories, categoryCount)
             else (categories ++ [cat r], categoryCount + 1))
      with (categories', categoryCount')
      by (unfold categories', categoryCount'; by case_bool_decide).
    cbn iota.
    cbn [greaterThan].
    destruct (categoryCount' * 2 + (itemCount + 1) >? maxConstraint) eqn:Hgt.
    + exists 0%nat. cbn [take]. rewrite app_nil_r.
      repeat split; [lia | lia | exact Hseen].
    + assert (withinConstraint categoryCol maxConstraint (seen ++ [r])) as Hwithin.
      { unfold withinConstraint.
        rewrite <- (categories_distinctGroups categories' (seen ++ [r]) Hnd' Hin').
        rewrite Z.gtb_ltb, Z.ltb_ge in Hgt. lia. }
      destruct (IH (seen ++ [r]) categories' categoryCount' (itemCount + 1) (S j)
                  Hnd' Hin' Hcc' Hic' (or_intror Hwithin)) as (k & Hk & Hle & Hw).
      exists (S k). rewrite Hk. cbn [take length].
      rewrite <- app_assoc in Hw. cbn [app] in Hw.
      repeat split; [lia | lia | exact Hw].
Qed.

(** The outer loop, entered at index [i] with enough fuel, appends pages
    that are not empty, that satisfy [pageOk], and whose concatenation
    is the rest of the array from [i] on. *)
Lemma pagesLoop_spec (fuel : nat) (reorderedData : list row) (i : nat)
    (pages : list (list row)) :
  (i <= length reorderedData)%nat ->
  (length reorderedData - i <= fuel)%nat ->
  exists new : list (list row),
    pagesLoop fuel categoryCol maxConstraint reorderedData i pages = pages ++ new
    /\ concat new = drop i reorderedData
    /\ Forall (pageOk categoryCol maxConstraint) new
    /\ Forall (fun page => page <> []) new.
Proof.
  revert i pages. induction fuel as [|fuel IH]; intros i pages Hi Hfuel.
  - exists []. cbn [pagesLoop concat]. rewrite app_nil_r, drop_ge by lia. done.
  - cbn [pagesLoop]. destruct (i <? length reorderedData)%nat eqn:Hlt.
    2: { apply Nat.ltb_ge in Hlt. exists []. cbn [concat].
         rewrite app_nil_r, drop_ge by lia. done. }
    apply Nat.ltb_lt in Hlt.
    destruct (windowEnd_spec (drop i reorderedData) [] [] 0 0 i)
      as (k & Hk & Hle & Hw);
      [apply NoDup_nil_2 | done | done | done | by left |].
    rewrite length_drop in Hle. cbn [app] in Hw. rewrite Hk.
    set (k' := if k is O then 1%nat else k).
    assert ((if (i + k =? i)%nat then (i + 1)%nat else (i + k)%nat) = (i + k')%nat) as ->.
    { unfold k'. destruct k; [by rewrite Nat.add_0_r, Nat.eqb_refl|].
      by rewrite (proj2 (Nat.eqb_neq _ _)) by lia. }
    assert (1 <= k' <= length reorderedData - i)%nat as Hk'
      by (unfold k'; destruct k; lia).
    destruct (IH (i + k')%nat (pages ++ [slice reorderedData i (i + k')]))
      as (new & Hnew & Hcat & Hok & Hne); [lia | lia |].
    exists (slice reorderedData i (i + k') :: new).
    rewrite Hnew, <- app_assoc. cbn [app concat]. unfold slice.
    replace (i + k' - i)%nat with k' by lia.
    assert (length (take k' (drop i reorderedData)) = k') as Hlen
      by (rewrite length_take, length_drop; lia).
    repeat split.
    + by rewrite Hcat, <- drop_drop, take_drop.
    + constructor; [|exact Hok]. unfold pageOk, k' in *. destruct k.
      * right. exact Hlen.
      * left. destruct Hw as [Hw|Hw]; [|exact Hw].
        rewrite Hw in Hlen. cbn [length] in Hlen. lia.
    + constructor; [|exact Hne]. intros E. rewrite E in Hlen. cbn [length] in Hlen. lia.
Qed.

Lemma paginate_spec (reorderedData : list row) :
  concat (paginate categoryCol maxConstraint reorderedData) = reorderedData
  /\ Forall (pageOk categoryCol maxConstraint) (paginate categoryCol maxConstraint reorderedData)
  /\ Forall (fun page => page <> []) (paginate categoryCol maxConstraint reorderedData).
Proof.
  unfold paginate.
  destruct (pagesLoop_spec (length reorderedData) reorderedData 0 [])
    as (new & -> & Hcat & Hok & Hne); [lia | lia |].
  cbn [app]. by rewrite Hcat.
Qed.
End Windows.

(** For every [maxConstraint], NaN included, the inner loop stops inside
    the array, and the pages are not empty and make up the array. *)
Lemma windowEnd_bound (categoryCol : jsstring) (maxConstraint : jsnumber)
    (rest : list row) (categories : list jsval) (categoryCount itemCount : Z) (j : nat) :
  exists k : nat,
    windowEnd categoryCol maxConstraint rest categories categoryCount itemCount j
    = (j + k)%nat
    /\ (k <= length rest)%nat.
Proof.
  revert categories categoryCount itemCount j.
  induction rest as [|r rest IH]; intros categories categoryCount itemCount j.
  - exists 0%nat. cbn [windowEnd length]. lia.
  - cbn [windowEnd]. destruct (bool_decide _); cbn iota.
    + destruct (greaterThan _ _); [exists 0%nat; cbn [length]; lia|].
      destruct (IH categories categoryCount (itemCount + 1) (S j)) as (k & -> & Hk).
      exists (S k). cbn [length]. lia.
    + destruct (greaterThan _ _); [exists 0%nat; cbn [length]; lia|].
      destruct (IH (categories ++ [getProp r categoryCol]) (categoryCount + 1)
                  (itemCount + 1) (S j)) as (k & -> & Hk).
      exists (S k). cbn [length]. lia.
Qed.

Lemma pagesLoop_concat (fuel : nat) (categoryCol : jsstring) (maxConstraint : jsnumber)
    (reorderedData : list row) (i : nat) (pages : list (list row)) :
  (i <= length reorderedData)%nat ->
  (length reorderedData - i <= fuel)%nat ->
  exists new : list (list row),
    pagesLoop fuel categoryCol maxConstraint reorderedData i pages = pages ++ new
    /\ concat new = drop i reorderedData
    /\ Forall (fun page => page <> []) new.
Proof.
  revert i pages. induction fuel as [|fuel IH]; intros i pages Hi Hfuel.
  - exists []. cbn [pagesLoop concat]. rewrite app_nil_r, drop_ge by lia. done.
  - cbn [pagesLoop]. destruct (i <? length reorderedData)%nat eqn:Hlt.
    2: { apply Nat.ltb_ge in Hlt. exists []. cbn [concat].
         rewrite app_nil_r, drop_ge by lia. done. }
    apply Nat.ltb_lt in Hlt.
    destruct (windowEnd_bound categoryCol maxConstraint (drop i reorderedData) [] 0 0 i)
      as (k & Hk & Hle).
    rewrite length_drop in Hle. rewrite Hk.
    set (k' := if k is O then 1%nat else k).
    assert ((if (i + k =? i)%nat then (i + 1)%nat else (i + k)%nat) = (i + k')%nat) as ->.
    { unfold k'. destruct k; [by rewrite Nat.add_0_r, Nat.eqb_refl|].
      by rewrite (proj2 (Nat.eqb_neq _ _)) by lia. }
    assert (1 <= k' <= length reorderedData - i)%nat as Hk'
      by (unfold k'; destruct k; lia).
    destruct (IH (i + k')%nat (pages ++ [slice reorderedData i (i + k')]))
      as (new & Hnew & Hcat & Hne); [lia | lia |].
    exists (slice reorderedData i (i + k') :: new).
    rewrite Hnew, <- app_assoc. cbn [app concat]. unfold slice.
    replace (i + k' - i)%nat with k' by lia.
    assert (length (take k' (drop i reorderedData)) = k') as Hlen
      by (rewrite length_take, length_drop; lia).
    split_and!.
    + done.
    + by rewrite Hcat, <- drop_drop, take_drop.
    + constructor; [|exact Hne]. intros E. rewrite E in Hlen. cbn [length] in Hlen. lia.
Qed.

Lemma paginate_concat (categoryCol : jsstring) (maxConstraint : jsnumber)
    (reorderedData : list row) :
  concat (paginate categoryCol maxConstraint reorderedData) = reorderedData
  /\ Forall (fun page => page <> []) (paginate categoryCol maxConstraint reorderedData).
Proof.
  unfold paginate.
  destruct (pagesLoop_concat (length reorderedData) categoryCol maxConstraint
              reorderedData 0 []) as (new & -> & Hcat & Hne); [lia | lia |].
  cbn [app]. by rewrite Hcat.
Qed.

(** Under NaN no row closes a window: the inner loop runs to the end of
    the array, and all rows form one page. *)
Lemma windowEnd_NaN (categoryCol : jsstring) (rest : list row) (categories : list jsval)
    (categoryCount itemCount : Z) (j : nat) :
  windowEnd categoryCol NaN rest categories categoryCount itemCount j
  = (j + length rest)%nat.
Proof.
  revert categories categoryCount itemCount j.
  induction rest as [|r rest IH]; intros categories categoryCount itemCount j.
  - cbn [windowEnd length]. lia.
  - cbn [windowEnd]. destruct (bool_decide _); cbn iota; cbn [greaterThan];
      rewrite IH; cbn [length]; lia.
Qed.

Lemma paginate_NaN (categoryCol : jsstring) (reorderedData : list row) :
  paginate categoryCol NaN reorderedData
  = match reorderedData with [] => [] | _ :: _ => [reorderedData] end.
Proof.
  unfold paginate. destruct reorderedData as [|r l]; [done|].
  generalize (r :: l) (eq_refl : length (r :: l) = S (length l)).
  intros rows Hlen. rewrite Hlen. cbn [pagesLoop].
  rewrite (proj2 (Nat.ltb_lt 0 (length rows))) by lia.
  rewrite drop_0, windowEnd_NaN, (proj2 (Nat.eqb_neq _ 0)) by lia.
  assert (slice rows 0 (0 + length rows) = rows) as ->
    by (unfold slice; rewrite drop_0, Nat.add_0_l, Nat.sub_0_r; apply firstn_all).
  cbn [app]. destruct (length l); cbn [pagesLoop]; [done|].
  by rewrite (proj2 (Nat.ltb_ge _ _)) by lia.
Qed.

(** C1, amended: for every dataset, grouping field and maxConstraint that
    is a number (an integer, not NaN), every page that
    splitIntoPagesByCategoryPriority returns satisfies
    2 x (distinct values of the grouping field in the page) + (rows of the
    page) <= maxConstraint, or it consists of exactly one row. *)
Theorem splitIntoPagesByCategoryPriority_page_constraint
    (data : list row) (categoryCol : jsstring) (maxConstraint : Z) :
  Forall (fun page =>
            2 * Z.of_nat (distinctGroups categoryCol page) + Z.of_nat (length page)
            <= maxConstraint
            \/ length page = 1%nat)
         (splitIntoPagesByCategoryPriority data categoryCol maxConstraint).
Proof.
  unfold splitIntoPagesByCategoryPriority.
  apply (paginate_spec categoryCol maxConstraint).
Qed.

(** C1 as stated fails when maxConstraint is NaN, which the handler passes
    on for a form field that is no number: no comparison with NaN holds,
    so no row closes a page, and the four rows of two groups come as one
    page, which is neither within the constraint nor a page of one row. *)
Lemma splitIntoPagesByCategoryPriority_NaN_constraint :
  splitIntoPagesByCategoryPriority twoPairs reasonCol NaN = [twoPairs]
  /\ length twoPairs = 4%nat
  /\ distinctGroups reasonCol twoPairs = 2%nat
  /\ ~ pageOk reasonCol NaN twoPairs.
Proof.
  split_and!; [reflexivity | reflexivity | reflexivity |].
  unfold pageOk, withinConstraint. intros [[]|H]. discriminate H.
Qed.

(** ** Positions in a list *)

Section OccursBefore.
Context {A : Type}.
Implicit Types (l : list A) (a b : A).

Lemma occursBefore_nil a b : ~ occursBefore [] a b.
Proof. intros (i & j & _ & H & _). by rewrite lookup_nil in H. Qed.

Lemma occursBefore_cons x l a b :
  occursBefore (x :: l) a b <-> (x = a /\ b ∈ l) \/ occursBefore l a b.
Proof.
  split.
  - intros (i & j & Hij & Hi & Hj). destruct j as [|j]; [lia|]. cbn in Hj.
    destruct i as [|i]; cbn in Hi.
    + left. split; [congruence|]. by eapply list_elem_of_lookup_2.
    + right. exists i, j. split_and!; [lia | done | done].
  - intros [[-> Hb]|(i & j & Hij & Hi & Hj)].
    + apply list_elem_of_lookup_1 in Hb as [j Hj]. exists 0%nat, (S j).
      split_and!; [lia | done | done].
    + exists (S i), (S j). split_and!; [lia | done | done].
Qed.

Lemma occursBefore_elem_of l a b : occursBefore l a b -> a ∈ l /\ b ∈ l.
Proof.
  intros (i & j & _ & Hi & Hj). split; by eapply list_elem_of_lookup_2.
Qed.

Lemma occursBefore_app l1 l2 a b :
  occursBefore (l1 ++ l2) a b <->
  occursBefore l1 a b \/ (a ∈ l1 /\ b ∈ l2) \/ occursBefore l2 a b.
Proof.
  induction l1 as [|x l1 IH]; cbn [app].
  - split; [tauto|]. intros [H|[[H _]|H]]; [| |done].
    + by apply occursBefore_nil in H.
    + by apply elem_of_nil in H.
  - rewrite !occursBefore_cons, IH, elem_of_app, elem_of_cons. intuition congruence.
Qed.

Lemma occursBefore_filter (P : A -> Prop) `{forall x, Decision (P x)} l a b :
  occursBefore (filter P l) a b <-> occursBefore l a b /\ P a /\ P b.
Proof.
  induction l as [|x l IH].
  - split; [intros H'; by apply occursBefore_nil in H'|].
    intros [H' _]. by apply occursBefore_nil in H'.
  - rewrite filter_cons. destruct (decide (P x)) as [Hx|Hx].
    + rewrite !occursBefore_cons, IH, list_elem_of_filter.
      split; [intros [[-> [? ?]]|?]; tauto | tauto].
    + rewrite occursBefore_cons, IH.
      split; [tauto|]. intros [[[-> _]|?] [? ?]]; tauto.
Qed.

Lemma occursBefore_NoDup l a b : NoDup l -> occursBefore l a b -> a <> b.
Proof.
  intros Hnd (i & j & Hij & Hi & Hj) ->.
  pose proof (NoDup_lookup l i j b Hnd Hi Hj). lia.
Qed.
End OccursBefore.

Lemma occursBefore_fmap {A B : Type} (f : A -> B) (l : list A) (a' b' : B) :
  occursBefore (f <$> l) a' b' <->
  exists a b, occursBefore l a b /\ f a = a' /\ f b = b'.
Proof.
  split.
  - intros (i & j & Hij & Hi & Hj). rewrite list_lookup_fmap in Hi, Hj.
    destruct (l !! i) as [a|] eqn:Ea; [|done].
    destruct (l !! j) as [b|] eqn:Eb; [|done].
    cbn in Hi, Hj. exists a, b. split; [by exists i, j | split; congruence].
  - intros (a & b & (i & j & Hij & Hi & Hj) & <- & <-).
    exists i, j. rewrite !list_lookup_fmap, Hi, Hj. done.
Qed.

(** ** The sort *)

Section SortFacts.
Context {A : Type} (cmp : A -> A -> Z).

Lemma insertSorted_perm (x : A) (l : list A) : insertSorted cmp x l ≡ₚ x :: l.
Proof.
  induction l as [|y l IH]; cbn [insertSorted]; [done|].
  destruct (cmp x y <=? 0); [done|]. rewrite IH. apply Permutation_swap.
Qed.

Lemma arraySort_perm (l : list A) : arraySort cmp l ≡ₚ l.
Proof.
  induction l as [|x l IH]; cbn [arraySort]; [done|].
  by rewrite insertSorted_perm, IH.
Qed.

Lemma arraySort_elem_of (l : list A) (x : A) : x ∈ arraySort cmp l <-> x ∈ l.
Proof. by rewrite arraySort_perm. Qed.

(** On a set [D] of elements that the comparator orders by a rank, larger
    rank first, the result is descending and elements of equal rank keep
    their order. *)
Context (rank : A -> Z) (D : A -> Prop).
Context (Hcmp : forall a b, D a -> D b -> cmp a b = rank b - rank a).

Lemma arraySort_Forall (l : list A) : Forall D l -> Forall D (arraySort cmp l).
Proof. by rewrite arraySort_perm. Qed.

Lemma insertSorted_stable (c : Z) (x : A) (l : list A) :
  D x -> Forall D l ->
  filter (fun y => rank y = c) (insertSorted cmp x l)
  = filter (fun y => rank y = c) (x :: l).
Proof.
  intros Hx Hl. induction Hl as [|y l Hy Hl IH]; cbn [insertSorted]; [done|].
  destruct (cmp x y <=? 0) eqn:E; [done|].
  apply Z.leb_gt in E. rewrite (Hcmp x y Hx Hy) in E.
  rewrite (filter_cons _ y), IH, !(filter_cons _ x), (filter_cons _ y).
  destruct (decide (rank y = c)), (decide (rank x = c)); try done; lia.
Qed.

Lemma arraySort_stable (c : Z) (l : list A) :
  Forall D l ->
  filter (fun y => rank y = c) (arraySort cmp l) = filter (fun y => rank y = c) l.
Proof.
  intros Hl. induction Hl as [|x l Hx Hl IH]; cbn [arraySort]; [done|].
  rewrite insertSorted_stable by (by try apply arraySort_Forall).
  by rewrite !(filter_cons _ x), IH.
Qed.

Lemma insertSorted_descending (x : A) (l : list A) :
  D x -> Forall D l ->
  (forall a b, occursBefore l a b -> rank b <= rank a) ->
  forall a b, occursBefore (insertSorted cmp x l) a b -> rank b <= rank a.
Proof.
  intros Hx Hl. induction Hl as [|y l Hy Hl IH]; intros Hdesc a b; cbn [insertSorted].
  - rewrite occursBefore_cons. intros [[_ H]|H]; [by apply elem_of_nil in H|].
    by apply occursBefore_nil in H.
  - assert (forall b', b' ∈ l -> rank b' <= rank y) as Hy'.
    { intros b' Hb'. apply Hdesc, occursBefore_cons. by left. }
    destruct (cmp x y <=? 0) eqn:E.
    + apply Z.leb_le in E. rewrite (Hcmp x y Hx Hy) in E.
      rewrite occursBefore_cons. intros [[<- Hb]|H]; [|by apply Hdesc].
      apply elem_of_cons in Hb as [->|Hb]; [lia|]. specialize (Hy' _ Hb). lia.
    + apply Z.leb_gt in E. rewrite (Hcmp x y Hx Hy) in E.
      rewrite occursBefore_cons. intros [[<- Hb]|H].
      * rewrite insertSorted_perm in Hb.
        apply elem_of_cons in Hb as [->|Hb]; [lia | by apply Hy'].
      * apply IH; [|done]. intros a' b' H'. apply Hdesc, occursBefore_cons. by right.
Qed.

Lemma arraySort_descending (l : list A) :
  Forall D l ->
  forall a b, occursBefore (arraySort cmp l) a b -> rank b <= rank a.
Proof.
  intros Hl. induction Hl as [|x l Hx Hl IH]; cbn [arraySort].
  - intros a b H. by apply occursBefore_nil in H.
  - apply insertSorted_descending; [done | by apply arraySort_Forall | done].
Qed.

(** Elements of equal rank stand in the result as they stood in the
    input. *)
Lemma arraySort_ties (l : list A) (a b : A) :
  Forall D l -> rank a = rank b ->
  occursBefore (arraySort cmp l) a b -> occursBefore l a b.
Proof.
  intros Hl Hab H.
  assert (occursBefore (filter (fun y => rank y = rank a) (arraySort cmp l)) a b) as H'
    by (apply occursBefore_filter; auto).
  rewrite (arraySort_stable _ _ Hl) in H'. by apply occursBefore_filter in H' as [? _].
Qed.
End SortFacts.

(** ** The counter map *)

Lemma inheritedText_None (k : jsstring) : inheritedText k = None <-> k ∉ prototypeKeys.
Proof.
  unfold inheritedText, prototypeKeys. rewrite not_elem_of_cons.
  repeat case_bool_decide; split; try done; try tauto.
  intros [_ Hk]. exfalso. apply Hk. subst k. unfold prototypeMethods. by left.
Qed.

Lemma getOwn_setOwn (o : jsobject) (k k' : jsstring) (v : countval) :
  getOwn (setOwn o k v) k' = if bool_decide (k = k') then Some v else getOwn o k'.
Proof.
  induction o as [|[k0 v0] o IH]; cbn [setOwn getOwn].
  - done.
  - destruct (bool_decide (k0 = k)) eqn:E0; cbn [getOwn].
    + apply bool_decide_eq_true_1 in E0 as ->. by repeat case_bool_decide.
    + apply bool_decide_eq_false_1 in E0. rewrite IH.
      repeat case_bool_decide; congruence.
Qed.

Lemma ownKeys_setOwn (o : jsobject) (k : jsstring) (v : countval) :
  (setOwn o k v).*1 = addNew (o.*1) k.
Proof.
  unfold addNew. induction o as [|[k0 v0] o IH]; cbn [setOwn fmap list_fmap].
  - rewrite bool_decide_eq_false_2; [done | apply not_elem_of_nil].
  - destruct (bool_decide (k0 = k)) eqn:E0; cbn [fmap list_fmap fst].
    + apply bool_decide_eq_true_1 in E0 as ->.
      rewrite bool_decide_eq_true_2; [done | by left].
    + apply bool_decide_eq_false_1 in E0. fold (o.*1). fold ((setOwn o k v).*1).
      rewrite IH. case_bool_decide as Hin.
      * rewrite bool_decide_eq_true_2; [done | by right].
      * rewrite bool_decide_eq_false_2; [done|].
        rewrite not_elem_of_cons. split; [congruence | done].
Qed.

Lemma getOwn_elem_of (o : jsobject) (k : jsstring) (v : countval) :
  getOwn o k = Some v -> (k, v) ∈ o.
Proof.
  induction o as [|[k0 v0] o IH]; cbn [getOwn]; [done|].
  case_bool_decide as E.
  - intros [= ->]. subst. by left.
  - intros H. right. by apply IH.
Qed.

Lemma elem_of_getOwn (o : jsobject) (k : jsstring) (v : countval) :
  NoDup (o.*1) -> (k, v) ∈ o -> getOwn o k = Some v.
Proof.
  induction o as [|[k0 v0] o IH]; cbn [getOwn fmap list_fmap fst].
  - intros _ H. by apply elem_of_nil in H.
  - intros [Hk0 Hnd]%NoDup_cons [[= -> ->]|Hin]%elem_of_cons.
    + by rewrite bool_decide_eq_true_2.
    + rewrite bool_decide_eq_false_2; [by apply IH|].
      intros ->. apply Hk0. apply list_elem_of_fmap. by exists (k, v).
Qed.

Lemma addNew_elem_of (acc : list jsstring) (k x : jsstring) :
  x ∈ addNew acc k <-> x ∈ acc \/ x = k.
Proof.
  unfold addNew. case_bool_decide.
  - split; [tauto | intros [?| ->]; done].
  - by rewrite elem_of_app, list_elem_of_singleton.
Qed.

Lemma addNew_NoDup (acc : list jsstring) (k : jsstring) :
  NoDup acc -> NoDup (addNew acc k).
Proof.
  intros Hnd. unfold addNew. case_bool_decide; [done|].
  apply list.NoDup_app. split_and!; [done | | apply NoDup_singleton].
  intros x Hx ->%list_elem_of_singleton. done.
Qed.

Lemma fold_addNew_elem_of (keys acc : list jsstring) (x : jsstring) :
  x ∈ fold_left addNew keys acc <-> x ∈ acc \/ x ∈ keys.
Proof.
  revert acc. induction keys as [|k keys IH]; intros acc; cbn [fold_left].
  - rewrite elem_of_nil. tauto.
  - rewrite IH, addNew_elem_of, elem_of_cons. tauto.
Qed.

Lemma fold_addNew_NoDup (keys acc : list jsstring) :
  NoDup acc -> NoDup (fold_left addNew keys acc).
Proof.
  revert acc. induction keys as [|k keys IH]; intros acc Hnd; cbn [fold_left]; [done|].
  by apply IH, addNew_NoDup.
Qed.

(** The own keys of the counter map: the keys counted, except [__proto__],
    each at the place of its first occurrence. *)
Lemma ownKeys_countCategories (col : jsstring) (data : list row) (o : jsobject) :
  (countCategories col data o).*1
  = fold_left addNew (filter (fun k => k <> protoKey) (keyOf col <$> data)) (o.*1).
Proof.
  unfold countCategories. revert o.
  induction data as [|r data IH]; intros o; cbn [fold_left fmap list_fmap]; [done|].
  rewrite IH. fold (keyOf col r). rewrite filter_cons. unfold assign.
  destruct (decide (keyOf col r <> protoKey)) as [Hne|Heq].
  - rewrite bool_decide_eq_false_2 by done. cbn [fold_left].
    by rewrite ownKeys_setOwn.
  - rewrite bool_decide_eq_true_2; [done|]. by destruct (decide (keyOf col r = protoKey)).
Qed.

(** A key that [Object.prototype] does not know is counted exactly. *)
Lemma getOwn_countCategories (col : jsstring) (data : list row) (o : jsobject)
    (k : jsstring) :
  k ∉ prototypeKeys -> goodCount (getOwn o k) ->
  goodCount (getOwn (countCategories col data o) k)
  /\ numOf (getOwn (countCategories col data o) k)
     = numOf (getOwn o k) + occurrences k (keyOf col <$> data).
Proof.
  intros Hk. unfold countCategories, occurrences. revert o.
  induction data as [|r data IH]; intros o Hgood; cbn [fold_left fmap list_fmap].
  - cbn. split; [done | lia].
  - fold (keyOf col r). rewrite filter_cons.
    set (o1 := assign o (keyOf col r) (increment o (keyOf col r))).
    assert (goodCount (getOwn o1 k)
            /\ numOf (getOwn o1 k)
               = numOf (getOwn o k) + (if decide (keyOf col r = k) then 1 else 0))
      as [Hgood1 Hnum1].
    { unfold o1, assign. destruct (decide (keyOf col r = k)) as [->|Hne].
      - rewrite bool_decide_eq_false_2
          by (intros ->; apply Hk; unfold prototypeKeys; by left).
        rewrite getOwn_setOwn, bool_decide_eq_true_2 by done.
        unfold increment. destruct Hgood as [->|(n & -> & Hn)].
        + rewrite (proj2 (inheritedText_None k) Hk). cbn.
          split; [right; exists 1; split; [done | lia] | done].
        + rewrite (proj2 (Z.eqb_neq n 0)) by lia. cbn.
          split; [right; exists (n + 1); split; [done | lia] | done].
      - case_bool_decide; [split; [done | lia]|].
        rewrite getOwn_setOwn, bool_decide_eq_false_2 by done. split; [done | lia]. }
    destruct (IH o1 Hgood1) as [Hg Hn]. split; [exact Hg|].
    rewrite Hn, Hnum1. destruct (decide (keyOf col r = k)); cbn [length]; lia.
Qed.

Lemma goodCount_numOf (v : option countval) :
  goodCount v -> v = if numOf v =? 0 then None else Some (CNum (numOf v)).
Proof.
  intros [->|(n & -> & Hn)]; cbn; [done|].
  by rewrite (proj2 (Z.eqb_neq n 0)) by lia.
Qed.

Lemma occurrences_pos (k : jsstring) (keys : list jsstring) :
  0 < occurrences k keys <-> k ∈ keys.
Proof.
  unfold occurrences. split.
  - intros H. destruct (filter _ keys) as [|x l] eqn:E; [cbn in H; lia|].
    assert (x ∈ filter (fun k' => k' = k) keys) as Hx by (rewrite E; by left).
    apply list_elem_of_filter in Hx as [-> ?]. done.
  - intros H. assert (k ∈ filter (fun k' => k' = k) keys) as Hx
      by (by apply list_elem_of_filter).
    destruct (filter _ keys); [by apply elem_of_nil in Hx | cbn [length]; lia].
Qed.

Lemma occurrences_nonneg (k : jsstring) (keys : list jsstring) : 0 <= occurrences k keys.
Proof. unfold occurrences. lia. Qed.

(** The counter of a key outside [Object.prototype] after the counting
    pass over [data], started on the empty object. *)
Lemma getOwn_counted (col : jsstring) (data : list row) (k : jsstring) :
  k ∉ prototypeKeys ->
  getOwn (countCategories col data []) k
  = if occurrences k (keyOf col <$> data) =? 0 then None
    else Some (CNum (occurrences k (keyOf col <$> data))).
Proof.
  intros Hk.
  destruct (getOwn_countCategories col data [] k Hk) as [Hg Hn]; [by left|].
  cbn in Hn. rewrite (goodCount_numOf _ Hg), Hn. done.
Qed.

(** ** Array-index keys *)

Lemma parseDigits_bound (s : jsstring) (acc v : Z) :
  0 <= acc -> parseDigits acc s = Some v ->
  acc * 10 ^ Z.of_nat (length s) <= v < (acc + 1) * 10 ^ Z.of_nat (length s).
Proof.
  revert acc. induction s as [|c s IH]; intros acc Hacc; cbn [parseDigits length].
  - intros [= <-]. cbn. lia.
  - destruct ((48 <=? c) && (c <=? 57))%N eqn:Ed; [|done].
    apply andb_true_iff in Ed as [H1%N.leb_le H2%N.leb_le].
    intros Hv. apply IH in Hv; [|lia].
    rewrite Nat2Z.inj_succ, Z.pow_succ_r by lia.
    assert (0 < 10 ^ Z.of_nat (length s)) by (apply Z.pow_pos_nonneg; lia).
    nia.
Qed.

Lemma parseDigits_inj (s t : jsstring) (acc acc' v : Z) :
  length s = length t ->
  parseDigits acc s = Some v -> parseDigits acc' t = Some v ->
  acc = acc' /\ s = t.
Proof.
  revert t acc acc'. induction s as [|c s IH]; intros [|d t] acc acc' Hlen;
    cbn [length] in Hlen; try done; cbn [parseDigits].
  - intros [= <-] [= <-]. done.
  - destruct ((48 <=? c) && (c <=? 57))%N eqn:Ec; [|done].
    destruct ((48 <=? d) && (d <=? 57))%N eqn:Ed; [|done].
    apply andb_true_iff in Ec as [?%N.leb_le ?%N.leb_le].
    apply andb_true_iff in Ed as [?%N.leb_le ?%N.leb_le].
    intros Hs Ht. destruct (IH t _ _ ltac:(lia) Hs Ht) as [Hacc ->].
    assert (acc = acc' /\ c = d) as [-> ->] by lia. done.
Qed.

(** The shape of an array-index key: a digit, which is 0 only when it
    stands alone, followed by digits. *)
Lemma arrayIndex_shape (k : jsstring) (n : Z) :
  arrayIndex k = Some n ->
  exists c rest,
    k = c :: rest
    /\ parseDigits (Z.of_N (c - 48)) rest = Some n
    /\ (48 <= c <= 57)%N
    /\ ((c = 48%N /\ rest = []) \/ (49 <= c)%N).
Proof.
  destruct k as [|c rest]; cbn [arrayIndex]; [done|].
  destruct ((c =? 48)%N && negb (bool_decide (rest = []))) eqn:E0; [done|].
  destruct (parseDigits 0 (c :: rest)) as [v|] eqn:Ep; [|done].
  destruct (v <? 4294967295); [|done]. intros [= ->].
  cbn [parseDigits] in Ep.
  destruct ((48 <=? c) && (c <=? 57))%N eqn:Ed; [|done].
  apply andb_true_iff in Ed as [?%N.leb_le ?%N.leb_le].
  exists c, rest. split_and!; [done | done | lia | lia |].
  apply andb_false_iff in E0 as [E0%N.eqb_neq|E0]; [right; lia|].
  apply negb_false_iff, bool_decide_eq_true_1 in E0.
  destruct (decide (c = 48%N)) as [->|]; [left; done | right; lia].
Qed.

(** Two keys that denote the same array index are the same string. *)
Lemma arrayIndex_inj (a b : jsstring) (n : Z) :
  arrayIndex a = Some n -> arrayIndex b = Some n -> a = b.
Proof.
  intros (c & s & -> & Hs & Hc0 & Hc)%arrayIndex_shape
         (d & t & -> & Ht & Hd0 & Hd)%arrayIndex_shape.
  pose proof (parseDigits_bound s (Z.of_N (c - 48)) n ltac:(lia) Hs) as Bs.
  pose proof (parseDigits_bound t (Z.of_N (d - 48)) n ltac:(lia) Ht) as Bt.
  assert (0 < 10 ^ Z.of_nat (length s)) by (apply Z.pow_pos_nonneg; lia).
  assert (0 < 10 ^ Z.of_nat (length t)) by (apply Z.pow_pos_nonneg; lia).
  assert (length s = length t) as Hlen.
  { destruct Hc as [[-> ->]|Hc], Hd as [[-> ->]|Hd]; try done.
    - cbn in Bs. nia.
    - cbn in Bt. nia.
    - destruct (Nat.lt_trichotomy (length s) (length t)) as [Hlt|[?|Hlt]]; [|done|].
      + assert (10 ^ Z.of_nat (S (length s)) <= 10 ^ Z.of_nat (length t)) as Hp
          by (apply Z.pow_le_mono_r; lia).
        rewrite Nat2Z.inj_succ, Z.pow_succ_r in Hp by lia. nia.
      + assert (10 ^ Z.of_nat (S (length t)) <= 10 ^ Z.of_nat (length s)) as Hp
          by (apply Z.pow_le_mono_r; lia).
        rewrite Nat2Z.inj_succ, Z.pow_succ_r in Hp by lia. nia. }
  destruct (parseDigits_inj s t _ _ n Hlen Hs Ht) as [Hcd ->].
  f_equal. lia.
Qed.

(** ** The enumeration order of the counter map *)

Lemma occursBefore_fold_addNew (keys acc : list jsstring) (a b : jsstring) :
  NoDup acc ->
  occursBefore (fold_left addNew keys acc) a b <->
  occursBefore acc a b
  \/ (a ∈ acc /\ (b ∉ acc) /\ b ∈ keys)
  \/ ((a ∉ acc) /\ (b ∉ acc) /\ firstSeenBefore keys a b = true /\ b ∈ keys).
Proof.
  revert acc. induction keys as [|k keys IH]; intros acc Hnd;
    cbn [fold_left firstSeenBefore].
  - rewrite elem_of_nil. tauto.
  - rewrite (IH _ (addNew_NoDup acc k Hnd)), !addNew_elem_of, elem_of_cons.
    unfold addNew. case_bool_decide as Hk.
    + repeat case_bool_decide; subst; cbn [negb]; intuition congruence.
    + rewrite occursBefore_app, list_elem_of_singleton.
      assert (~ occursBefore [k] a b) as Hsingle.
      { rewrite occursBefore_cons. intros [[_ H']|H'].
        - by apply elem_of_nil in H'.
        - by apply occursBefore_nil in H'. }
      assert (occursBefore acc a b -> a ∈ acc /\ b ∈ acc) as Hboth
        by apply occursBefore_elem_of.
      repeat case_bool_decide; subst; cbn [negb]; intuition congruence.
Qed.

Lemma firstSeenBefore_filter (p : jsstring) (keys : list jsstring) (a b : jsstring) :
  a <> p -> b <> p ->
  firstSeenBefore (filter (fun k => k <> p) keys) a b = firstSeenBefore keys a b.
Proof.
  intros Ha Hb. induction keys as [|k keys IH]; [done|].
  rewrite filter_cons. destruct (decide (k <> p)) as [Hk|Hk]; cbn [firstSeenBefore].
  - by rewrite IH.
  - assert (k = p) as -> by (by destruct (decide (k = p))).
    rewrite IH. by rewrite !bool_decide_eq_false_2 by done.
Qed.

Lemma isArrayIndex_Some (k : jsstring) :
  isArrayIndex k <-> exists n, arrayIndex k = Some n.
Proof. unfold isArrayIndex. by rewrite bool_decide_spec. Qed.

Lemma isArrayIndex_None (k : jsstring) : ~ isArrayIndex k <-> arrayIndex k = None.
Proof.
  rewrite isArrayIndex_Some. destruct (arrayIndex k) as [n|]; split; try done.
  - intros H. exfalso. apply H. by exists n.
  - intros _ [? ?]. done.
Qed.

Lemma NoDup_fmap_fst_filter (o : jsobject) (P : jsstring * countval -> Prop)
    `{forall e, Decision (P e)} :
  NoDup (o.*1) -> NoDup ((filter P o).*1).
Proof.
  induction o as [|e o IH]; [done|].
  rewrite filter_cons. cbn [fmap list_fmap].
  intros [He Hnd]%NoDup_cons. destruct (decide (P e)); [|by apply IH].
  cbn [fmap list_fmap]. apply NoDup_cons. split; [|by apply IH].
  intros Hin. apply He. apply list_elem_of_fmap in Hin as (e' & -> & He').
  apply list_elem_of_filter in He' as [_ He']. apply list_elem_of_fmap. by exists e'.
Qed.

Lemma entries_perm (o : jsobject) : entries o ≡ₚ o.
Proof.
  unfold entries. rewrite arraySort_perm.
  apply (filter_app_complement (fun e : jsstring * countval => isArrayIndex e.1)).
Qed.

Lemma entries_order (o : jsobject) (e1 e2 : jsstring * countval) :
  NoDup (o.*1) -> occursBefore (entries o) e1 e2 ->
  match arrayIndex e1.1, arrayIndex e2.1 with
  | Some m, Some n => m < n
  | Some _, None => True
  | None, Some _ => False
  | None, None => occursBefore o e1 e2
  end.
Proof.
  intros Hnd. unfold entries.
  set (byIndex := fun a b : jsstring * countval => indexOf a.1 - indexOf b.1).
  set (idx := filter (fun e : jsstring * countval => isArrayIndex e.1) o).
  rewrite occursBefore_app. intros [H|[[H1 H2]|H]].
  - pose proof (occursBefore_elem_of _ _ _ H) as [H1 H2].
    rewrite arraySort_elem_of in H1, H2.
    apply list_elem_of_filter in H1 as [[m Hm]%isArrayIndex_Some _].
    apply list_elem_of_filter in H2 as [[n Hn]%isArrayIndex_Some _].
    rewrite Hm, Hn.
    assert (m <= n) as Hle.
    { pose proof (arraySort_descending byIndex (fun e => - indexOf e.1) (fun _ => True)
                    ltac:(intros; unfold byIndex; lia) idx
                    ltac:(by apply Forall_forall) e1 e2 H) as Hd.
      unfold indexOf in Hd. rewrite Hm, Hn in Hd. cbn in Hd. lia. }
    assert (e1.1 <> e2.1) as Hne.
    { apply (occursBefore_NoDup ((arraySort byIndex idx).*1)).
      - rewrite arraySort_perm. unfold idx.
        apply (NoDup_fmap_fst_filter o). exact Hnd.
      - apply occursBefore_fmap. by exists e1, e2. }
    destruct (decide (m = n)) as [->|]; [|lia].
    exfalso. apply Hne. by eapply arrayIndex_inj.
  - rewrite arraySort_elem_of in H1.
    apply list_elem_of_filter in H1 as [[m Hm]%isArrayIndex_Some _].
    apply list_elem_of_filter in H2 as [Hn%isArrayIndex_None _].
    by rewrite Hm, Hn.
  - apply occursBefore_filter in H as (H & H1%isArrayIndex_None & H2%isArrayIndex_None).
    by rewrite H1, H2.
Qed.

(** ** The counters after the counting pass *)

Section Counted.
Context (col : jsstring) (data : list row).

Local Abbreviation keys := (keyOf col <$> data).
Local Abbreviation counted := (countCategories col data []).

Lemma counted_NoDup : NoDup (counted.*1).
Proof. rewrite ownKeys_countCategories. apply fold_addNew_NoDup, NoDup_nil_2. Qed.

Lemma counted_key (k : jsstring) : k ∈ counted.*1 <-> k ∈ keys /\ k <> protoKey.
Proof.
  rewrite ownKeys_countCategories, fold_addNew_elem_of, list_elem_of_filter.
  cbn [fmap list_fmap]. rewrite elem_of_nil. tauto.
Qed.

Lemma counted_value (k : jsstring) (v : countval) :
  k ∉ prototypeKeys -> (k, v) ∈ counted ->
  v = CNum (occurrences k keys) /\ 0 < occurrences k keys.
Proof.
  intros Hk Hin. apply (elem_of_getOwn _ _ _ counted_NoDup) in Hin.
  rewrite (getOwn_counted col data k Hk) in Hin.
  destruct (occurrences k keys =? 0) eqn:E; [done|].
  apply Z.eqb_neq in E. pose proof (occurrences_nonneg k keys).
  split; [congruence | lia].
Qed.

Lemma counted_member (k : jsstring) :
  k ∉ prototypeKeys -> k ∈ keys -> (k, CNum (occurrences k keys)) ∈ counted.
Proof.
  intros Hk Hin. apply getOwn_elem_of. rewrite (getOwn_counted col data k Hk).
  apply occurrences_pos in Hin. by rewrite (proj2 (Z.eqb_neq _ 0)) by lia.
Qed.

(** The own properties were created in the order in which their keys
    were first met. *)
Lemma counted_order (e1 e2 : jsstring * countval) :
  occursBefore counted e1 e2 -> firstSeenBefore keys e1.1 e2.1 = true.
Proof.
  intros H.
  assert (occursBefore (counted.*1) e1.1 e2.1) as Hk
    by (apply occursBefore_fmap; by exists e1, e2).
  pose proof (occursBefore_elem_of _ _ _ Hk) as [[_ H1]%counted_key [_ H2]%counted_key].
  rewrite ownKeys_countCategories in Hk.
  apply occursBefore_fold_addNew in Hk; [|apply NoDup_nil_2].
  destruct Hk as [Hk|[[Hk _]|(_ & _ & Hk & _)]].
  - by apply occursBefore_nil in Hk.
  - by apply elem_of_nil in Hk.
  - by rewrite firstSeenBefore_filter in Hk.
Qed.
End Counted.

Lemma totalOf_perm (o o' : jsobject) : o ≡ₚ o' -> totalOf o = totalOf o'.
Proof.
  unfold totalOf. induction 1 as [|e o o' _ IH|e1 e2 o|o1 o2 o3 _ IH1 _ IH2];
    cbn [foldr]; lia.
Qed.

Lemma totalOf_setOwn (o : jsobject) (k : jsstring) (v : countval) :
  totalOf (setOwn o k v) = totalOf o - numOf (getOwn o k) + numOf (Some v).
Proof.
  unfold totalOf. induction o as [|[k0 v0] o IH]; cbn [setOwn getOwn foldr].
  - cbn. lia.
  - case_bool_decide; cbn [foldr snd]; [cbn; lia|]. rewrite IH. lia.
Qed.

(** When no key counted is a member of [Object.prototype], every counter
    is a positive number and the counters add up to the number of rows. *)
Lemma totalOf_countCategories (col : jsstring) (data : list row) (o : jsobject) :
  Forall (fun k => k ∉ prototypeKeys) (keyOf col <$> data) ->
  (forall k, goodCount (getOwn o k)) ->
  totalOf (countCategories col data o) = totalOf o + Z.of_nat (length data).
Proof.
  unfold countCategories. revert o.
  induction data as [|r data IH]; intros o Hkeys Hgood; cbn [fold_left length].
  - lia.
  - cbn [fmap list_fmap] in Hkeys. apply Forall_cons in Hkeys as [Hk Hkeys].
    fold (keyOf col r). set (k := keyOf col r) in *.
    assert (k <> protoKey) as Hproto
      by (intros E; apply Hk; rewrite E; unfold prototypeKeys; by left).
    assert (increment o k = CNum (numOf (getOwn o k) + 1)) as Hinc.
    { unfold increment. destruct (Hgood k) as [->|(n & -> & Hn)].
      - by rewrite (proj2 (inheritedText_None k) Hk).
      - by rewrite (proj2 (Z.eqb_neq n 0)) by lia. }
    unfold assign. rewrite bool_decide_eq_false_2 by done.
    rewrite IH; [| exact Hkeys |].
    + rewrite totalOf_setOwn, Hinc. cbn [numOf]. lia.
    + intros k'. rewrite getOwn_setOwn. case_bool_decide; [|apply Hgood].
      rewrite Hinc. right. eexists. split; [done|].
      destruct (Hgood k) as [->|(n & -> & Hn)]; cbn; lia.
Qed.

(** ** The stats aggregator *)

Lemma byCountDescending_rank (a b : jsstring * countval) :
  (exists n, a.2 = CNum n) -> (exists n, b.2 = CNum n) ->
  byCountDescending a b = numOf (Some b.2) - numOf (Some a.2).
Proof. intros [n Ha] [m Hb]. unfold byCountDescending. by rewrite Ha, Hb. Qed.

(** The entries of the result are the sorted entries of the counter
    map. *)
Lemma getCategoryStats_eq (data : list row) :
  getCategoryStats data
  = (fun e => {| category := e.1; count := e.2 |})
      <$> arraySort byCountDescending (entries (countCategories reasonCol data [])).
Proof. unfold getCategoryStats. apply list_fmap_ext. by intros _ [k v] _. Qed.

Lemma totalCount_totalOf (o : jsobject) :
  totalCount ((fun e => {| category := e.1; count := e.2 |}) <$> o) = totalOf o.
Proof.
  unfold totalCount, totalOf. induction o as [|e o IH]; cbn [fmap list_fmap foldr]; [done|].
  fold (fmap (M:=list) (fun e : jsstring * countval => {| category := e.1; count := e.2 |}) o).
  rewrite IH. done.
Qed.

(** When no reason is a member of [Object.prototype], the counts of the
    result add up to the number of rows. *)
Lemma getCategoryStats_total (data : list row) :
  Forall (fun k => k ∉ prototypeKeys) (keyOf reasonCol <$> data) ->
  totalCount (getCategoryStats data) = Z.of_nat (length data).
Proof.
  intros Hkeys. rewrite getCategoryStats_eq.
  rewrite totalCount_totalOf, (totalOf_perm _ _ (arraySort_perm _ _)),
    (totalOf_perm _ _ (entries_perm _)), totalOf_countCategories;
    [done | exact Hkeys | by left].
Qed.

(** C7, amended: when no value of the reason field is the name of a member
    of [Object.prototype], the result lists every reason of the input
    once, with the number of rows that carry it, by descending count;
    entries of equal count stand in the order in which [Object.entries]
    lists the keys of the counter map: the reasons that are array indices
    come first, in ascending numeric order, and the other reasons follow in
    the order of their first occurrence in the input rows. *)
Theorem getCategoryStats_sorted (data : list row) :
  let keys := keyOf reasonCol <$> data in
  let stats := getCategoryStats data in
  Forall (fun k => k ∉ prototypeKeys) keys ->
  NoDup (category <$> stats)
  /\ (forall st, st ∈ stats ->
        category st ∈ keys /\ count st = CNum (occurrences (category st) keys))
  /\ (forall k, k ∈ keys -> exists st, st ∈ stats /\ category st = k)
  /\ (forall a b, occursBefore stats a b ->
        occurrences (category b) keys <= occurrences (category a) keys)
  /\ (forall a b, occursBefore stats a b ->
        occurrences (category a) keys = occurrences (category b) keys ->
        enumeratedBefore keys (category a) (category b)).
Proof.
  intros keys stats Hkeys. subst stats. rewrite getCategoryStats_eq.
  set (o := countCategories reasonCol data []).
  remember (arraySort byCountDescending (entries o)) as sorted eqn:Hsorted.
  assert (sorted ≡ₚ o) as Hperm
    by (rewrite Hsorted, arraySort_perm; apply entries_perm).
  assert (forall e, e ∈ o ->
            e.1 ∈ keys /\ e.2 = CNum (occurrences e.1 keys)) as Hval.
  { intros [k v] He.
    assert (k ∈ keys) as Hk.
    { apply (counted_key reasonCol data k). apply list_elem_of_fmap. by exists (k, v). }
    split; [exact Hk|]. apply (counted_value reasonCol data); [|exact He].
    by apply (proj1 (Forall_forall _ _) Hkeys). }
  assert (Forall (fun e : jsstring * countval => exists n, e.2 = CNum n) (entries o)) as HD.
  { apply Forall_forall. intros e He. rewrite entries_perm in He.
    destruct (Hval e He) as [_ ->]. by eexists. }
  split_and!.
  - rewrite <- list_fmap_compose.
    change (NoDup (sorted.*1)). rewrite Hperm. apply counted_NoDup.
  - intros st (e & -> & He)%list_elem_of_fmap. rewrite Hperm in He.
    apply (Hval e He).
  - intros k Hk. exists {| category := k; count := CNum (occurrences k keys) |}.
    split; [|done]. apply list_elem_of_fmap.
    exists (k, CNum (occurrences k keys)). split; [done|]. rewrite Hperm.
    apply counted_member; [|exact Hk]. by apply (proj1 (Forall_forall _ _) Hkeys).
  - intros a b (e1 & e2 & H & <- & <-)%occursBefore_fmap. cbn [category].
    pose proof (occursBefore_elem_of _ _ _ H) as [H1 H2]. rewrite Hperm in H1, H2.
    rewrite Hsorted in H.
    pose proof (arraySort_descending byCountDescending (fun e => numOf (Some e.2)) _
                  byCountDescending_rank _ HD e1 e2 H) as Hd.
    cbn beta in Hd. destruct (Hval e1 H1) as [_ E1], (Hval e2 H2) as [_ E2].
    by rewrite E1, E2 in Hd.
  - intros a b (e1 & e2 & H & <- & <-)%occursBefore_fmap Heq. cbn [category] in *.
    pose proof (occursBefore_elem_of _ _ _ H) as [H1 H2]. rewrite Hperm in H1, H2.
    destruct (Hval e1 H1) as [_ E1], (Hval e2 H2) as [_ E2].
    rewrite Hsorted in H.
    apply (arraySort_ties byCountDescending (fun e => numOf (Some e.2)) _
             byCountDescending_rank _ _ _ HD) in H;
      [|by rewrite E1, E2; cbn [numOf]].
    apply entries_order in H; [|apply counted_NoDup].
    unfold enumeratedBefore.
    destruct (arrayIndex e1.1), (arrayIndex e2.1); try done.
    by apply (counted_order reasonCol data).
Qed.

Lemma getCategoryStats_sorted_witness :
  Forall (fun k => k ∉ prototypeKeys) (keyOf reasonCol <$> mixedReasons)
  /\ NoDup (category <$> getCategoryStats mixedReasons)
  /\ (forall st, st ∈ getCategoryStats mixedReasons ->
        category st ∈ keyOf reasonCol <$> mixedReasons
        /\ count st = CNum (occurrences (category st) (keyOf reasonCol <$> mixedReasons)))
  /\ (forall k, k ∈ keyOf reasonCol <$> mixedReasons ->
        exists st, st ∈ getCategoryStats mixedReasons /\ category st = k)
  /\ (forall a b, occursBefore (getCategoryStats mixedReasons) a b ->
        occurrences (category b) (keyOf reasonCol <$> mixedReasons)
        <= occurrences (category a) (keyOf reasonCol <$> mixedReasons))
  /\ (forall a b, occursBefore (getCategoryStats mixedReasons) a b ->
        occurrences (category a) (keyOf reasonCol <$> mixedReasons)
        = occurrences (category b) (keyOf reasonCol <$> mixedReasons) ->
        enumeratedBefore (keyOf reasonCol <$> mixedReasons) (category a) (category b)).
Proof.
  assert (Forall (fun k => k ∉ prototypeKeys) (keyOf reasonCol <$> mixedReasons)) as H
    by (apply (bool_decide_unpack _); vm_compute; exact I).
  split; [exact H|]. exact (getCategoryStats_sorted mixedReasons H).
Defined.

(** C7 as stated fails on the reasons "b", "1": both occur once, "b" is
    met first, and the result lists "1" first, because an object lists its
    array-index keys before its other keys. *)
Lemma getCategoryStats_ties_not_first_seen :
  getCategoryStats tiedReasons
  = [ {| category := u16 "1"; count := CNum 1 |};
      {| category := u16 "b"; count := CNum 1 |} ]
  /\ firstSeenBefore (keyOf reasonCol <$> tiedReasons) (u16 "b") (u16 "1") = true
  /\ ~ (forall a b,
          occursBefore (getCategoryStats tiedReasons) a b ->
          count a = count b ->
          firstSeenBefore (keyOf reasonCol <$> tiedReasons) (category a) (category b)
          = true).
Proof.
  split; [reflexivity|]. split; [reflexivity|].
  intros H.
  specialize (H {| category := u16 "1"; count := CNum 1 |}
                {| category := u16 "b"; count := CNum 1 |}).
  assert (firstSeenBefore (keyOf reasonCol <$> tiedReasons) (u16 "1") (u16 "b") = false)
    as Hf by reflexivity.
  cbn [category count] in H. rewrite Hf in H.
  discriminate H; [|reflexivity].
  exists 0%nat, 1%nat. split_and!; [lia | reflexivity | reflexivity].
Qed.

(** C9 fails on the code: a row whose reason is "__proto__" is not counted
    at all (the assignment reaches the setter of [Object.prototype] and
    creates no property), and the counter of a reason such as
    "constructor" is a string, not a number. The counts then do not add up
    to the number of rows. *)
Theorem getCategoryStats_loses_prototype_keys :
  getCategoryStats [mkRow (JStr protoKey)] = []
  /\ totalCount (getCategoryStats [mkRow (JStr protoKey)])
     <> Z.of_nat (length [mkRow (JStr protoKey)])
  /\ getCategoryStats [mkRow (JStr (u16 "constructor"))]
     = [ {| category := u16 "constructor";
            count := CStr (u16 "function Object() { [native code] }1") |} ].
Proof. split; [reflexivity|]. split; [discriminate | reflexivity]. Qed.

(** ** The reordering of the paginator *)

Lemma strictEqStr_spec (v : jsval) (s : jsstring) : strictEqStr v s <-> v = JStr s.
Proof.
  destruct v as [| |b|n|t]; cbn [strictEqStr]; try (split; [intros [] | done]).
  rewrite bool_decide_spec. split; congruence.
Qed.

Lemma rowsOfCategory_spec (data : list row) (col cat : jsstring) (r : row) :
  r ∈ rowsOfCategory data col cat <-> r ∈ data /\ getProp r col = JStr cat.
Proof.
  unfold rowsOfCategory. rewrite list_elem_of_filter, strictEqStr_spec. tauto.
Qed.

(** The two arrays that the [forEach] over the group order fills. *)
Lemma reorder_fold (data : list row) (col : jsstring) (cats : list jsstring)
    (reorderedData otherConceptData : list row) :
  fold_left (reorderStep data col) cats (reorderedData, otherConceptData)
  = (reorderedData
       ++ (filter (fun cat => cat <> otherConcept) cats ≫= rowsOfCategory data col),
     otherConceptData
       ++ (filter (fun cat => cat = otherConcept) cats ≫= rowsOfCategory data col)).
Proof.
  revert reorderedData otherConceptData.
  induction cats as [|cat cats IH]; intros re ot; cbn [fold_left].
  - cbn. by rewrite !app_nil_r.
  - unfold reorderStep at 2. fold (rowsOfCategory data col cat).
    rewrite !filter_cons. case_bool_decide as Hcat.
    + rewrite IH. destruct (decide (cat <> otherConcept)); [done|].
      destruct (decide (cat = otherConcept)); [|done].
      by rewrite bind_cons, app_assoc.
    + rewrite IH. destruct (decide (cat <> otherConcept)); [|done].
      destruct (decide (cat = otherConcept)); [done|].
      by rewrite bind_cons, app_assoc.
Qed.

Lemma reorder_eq (data : list row) (col : jsstring) (cats : list jsstring) :
  reorder data col cats
  = (filter (fun cat => cat <> otherConcept) cats ≫= rowsOfCategory data col)
    ++ (filter (fun cat => cat = otherConcept) cats ≫= rowsOfCategory data col).
Proof. unfold reorder. by rewrite reorder_fold. Qed.

(** In the reordered array the rows of the sentinel group form the tail. *)
Lemma reorder_sentinel_last (data : list row) (col : jsstring) (cats : list jsstring) :
  exists front back : list row,
    reorder data col cats = front ++ back
    /\ Forall (fun r => getProp r col <> JStr otherConcept) front
    /\ Forall (fun r => getProp r col = JStr otherConcept) back.
Proof.
  eexists _, _. split; [apply reorder_eq|]. split; apply Forall_forall; intros r Hr.
  - apply list_elem_of_bind in Hr as (cat & Hr & Hcat).
    apply list_elem_of_filter in Hcat as [Hcat _].
    apply rowsOfCategory_spec in Hr as [_ ->]. congruence.
  - apply list_elem_of_bind in Hr as (cat & Hr & Hcat).
    apply list_elem_of_filter in Hcat as [-> _].
    by apply rowsOfCategory_spec in Hr as [_ ->].
Qed.

(** C6: in the concatenation of the pages that
    splitIntoPagesByCategoryPriority returns, a row of the sentinel group
    "其他概念" never stands before a row of another group: every row whose
    grouping value differs from the sentinel has a smaller position than
    every row whose grouping value is the sentinel, whatever the number of
    sentinel rows. *)
Theorem splitIntoPagesByCategoryPriority_sentinel_last
    (data : list row) (categoryCol : jsstring) (maxConstraint : jsnumber)
    (i j : nat) (sentinelRow otherRow : row) :
  concat (splitIntoPagesByCategoryPriority data categoryCol maxConstraint) !! i
  = Some sentinelRow ->
  concat (splitIntoPagesByCategoryPriority data categoryCol maxConstraint) !! j
  = Some otherRow ->
  getProp sentinelRow categoryCol = JStr otherConcept ->
  getProp otherRow categoryCol <> JStr otherConcept ->
  (j < i)%nat.
Proof.
  unfold splitIntoPagesByCategoryPriority.
  destruct (paginate_concat categoryCol maxConstraint
              (reorder data categoryCol
                 (sortedCategoriesOf (countCategories categoryCol data []))))
    as [-> _].
  destruct (reorder_sentinel_last data categoryCol
              (sortedCategoriesOf (countCategories categoryCol data [])))
    as (front & back & -> & Hfront & Hback).
  intros Hi Hj Hs Ho.
  assert (length front <= i)%nat as Hle.
  { destruct (decide (i < length front)%nat) as [Hlt|]; [|lia].
    rewrite lookup_app_l in Hi by done.
    apply list_elem_of_lookup_2 in Hi.
    by apply (proj1 (Forall_forall _ _) Hfront) in Hi. }
  assert (j < length front)%nat as Hlt; [|lia].
  destruct (decide (j < length front)%nat) as [|Hge]; [done|].
  rewrite lookup_app_r in Hj by lia.
  apply list_elem_of_lookup_2 in Hj.
  by apply (proj1 (Forall_forall _ _) Hback) in Hj.
Qed.

Lemma splitIntoPagesByCategoryPriority_sentinel_last_witness :
  concat (splitIntoPagesByCategoryPriority sentinelFirst reasonCol 5) !! 1%nat
  = Some (mkRow (JStr otherConcept))
  /\ concat (splitIntoPagesByCategoryPriority sentinelFirst reasonCol 5) !! 0%nat
     = Some (mkRow (JStr (u16 "A")))
  /\ getProp (mkRow (JStr otherConcept)) reasonCol = JStr otherConcept
  /\ getProp (mkRow (JStr (u16 "A"))) reasonCol <> JStr otherConcept
  /\ (0 < 1)%nat.
Proof.
  assert (concat (splitIntoPagesByCategoryPriority sentinelFirst reasonCol 5) !! 1%nat
          = Some (mkRow (JStr otherConcept))) as H1 by reflexivity.
  assert (concat (splitIntoPagesByCategoryPriority sentinelFirst reasonCol 5) !! 0%nat
          = Some (mkRow (JStr (u16 "A")))) as H0 by reflexivity.
  assert (getProp (mkRow (JStr otherConcept)) reasonCol = JStr otherConcept) as Hs
    by reflexivity.
  assert (getProp (mkRow (JStr (u16 "A"))) reasonCol <> JStr otherConcept) as Ho
    by (vm_compute; discriminate).
  split_and!; try done.
  exact (splitIntoPagesByCategoryPriority_sentinel_last
           sentinelFirst reasonCol 5 1 0 _ _ H1 H0 Hs Ho).
Defined.

(** ** Which rows the paginator keeps *)

(** Collecting the rows group by group, over groups that are distinct and
    cover the string values of the grouping field, permutes the rows. *)
Lemma bind_rowsOfCategory_perm (col : jsstring) (cats : list jsstring) (data : list row) :
  NoDup cats ->
  Forall (fun r => exists s, s ∈ cats /\ getProp r col = JStr s) data ->
  cats ≫= rowsOfCategory data col ≡ₚ data.
Proof.
  revert data. induction cats as [|c cats IH]; intros data Hnd Hdata.
  - destruct data as [|r data]; [done|].
    apply Forall_cons in Hdata as [(s & Hs & _) _]. by apply elem_of_nil in Hs.
  - apply NoDup_cons in Hnd as [Hc Hnd]. rewrite bind_cons.
    set (others := filter (fun r => ¬ strictEqStr (getProp r col) c) data).
    assert (cats ≫= rowsOfCategory data col = cats ≫= rowsOfCategory others col) as ->.
    { clear IH Hnd Hdata. induction cats as [|c' cats IHc]; [done|].
      rewrite !bind_cons. apply not_elem_of_cons in Hc as [Hne Hc].
      rewrite (IHc Hc). f_equal.
      unfold rowsOfCategory, others. rewrite list_filter_filter.
      apply list_filter_iff. intros r. rewrite !strictEqStr_spec.
      split; [|tauto]. intros Hr. split; [done|]. rewrite Hr. congruence. }
    rewrite (IH others Hnd).
    + apply (filter_app_complement (fun r => strictEqStr (getProp r col) c)).
    + apply Forall_forall. intros r [Hr Hin]%list_elem_of_filter.
      apply (proj1 (Forall_forall _ _) Hdata) in Hin as (s & Hs & Hv).
      exists s. split; [|done].
      apply elem_of_cons in Hs as [->|Hs]; [|done].
      exfalso. apply Hr. by apply strictEqStr_spec.
Qed.

Lemma fmap_fst_filter (o : jsobject) (P : jsstring -> Prop) `{forall k, Decision (P k)} :
  (filter (fun e => P e.1) o).*1 = filter P (o.*1).
Proof.
  induction o as [|e o IH]; [done|].
  cbn [fmap list_fmap]. rewrite !filter_cons.
  destruct (decide (P e.1)); cbn [fmap list_fmap]; by rewrite <- IH.
Qed.

(** The group order holds each own key of the counter map once, the
    sentinel when its counter is truthy. *)
Lemma sortedCategoriesOf_perm (o : jsobject) :
  sortedCategoriesOf o
  ≡ₚ filter (fun k => k <> otherConcept) (o.*1)
     ++ (if truthyProp o otherConcept then [otherConcept] else []).
Proof.
  unfold sortedCategoriesOf.
  assert ((arraySort byCountDescending
             (filter (fun e : jsstring * countval => e.1 <> otherConcept) (entries o))).*1
          ≡ₚ filter (fun k => k <> otherConcept) (o.*1)) as Hp.
  { pose proof (fmap_fst_filter (entries o) (fun k => k <> otherConcept)) as E.
    cbn beta in E. by rewrite arraySort_perm, E, entries_perm. }
  destruct (truthyProp o otherConcept); [by rewrite Hp|].
  by rewrite app_nil_r.
Qed.

Lemma otherConcept_not_inherited : otherConcept ∉ prototypeKeys.
Proof. apply (bool_decide_unpack _). vm_compute. exact I. Qed.

Lemma truthyProp_counted (col : jsstring) (data : list row) :
  truthyProp (countCategories col data []) otherConcept = true
  <-> otherConcept ∈ keyOf col <$> data.
Proof.
  unfold truthyProp. rewrite (getOwn_counted col data _ otherConcept_not_inherited).
  rewrite <- occurrences_pos.
  pose proof (occurrences_nonneg otherConcept (keyOf col <$> data)).
  destruct (_ =? 0) eqn:E.
  - apply Z.eqb_eq in E. rewrite (proj2 (inheritedText_None _) otherConcept_not_inherited).
    split; [done | lia].
  - apply Z.eqb_neq in E. rewrite (proj2 (Z.eqb_neq _ 0)) by lia. split; [lia | done].
Qed.

(** On a dataset whose grouping values are all strings other than
    "__proto__", the pages hold the input rows, each once. *)
Lemma splitIntoPagesByCategoryPriority_permutation
    (data : list row) (categoryCol : jsstring) (maxConstraint : jsnumber) :
  Forall (fun r => exists s, getProp r categoryCol = JStr s /\ s <> protoKey) data ->
  concat (splitIntoPagesByCategoryPriority data categoryCol maxConstraint) ≡ₚ data.
Proof.
  intros Hdata. unfold splitIntoPagesByCategoryPriority.
  set (o := countCategories categoryCol data []).
  destruct (paginate_concat categoryCol maxConstraint
              (reorder data categoryCol (sortedCategoriesOf o))) as [-> _].
  rewrite reorder_eq, <- bind_app.
  rewrite (Permutation_app_comm (filter _ _) (filter _ _)).
  rewrite (filter_app_complement (fun cat => cat = otherConcept) (sortedCategoriesOf o)).
  apply bind_rowsOfCategory_perm.
  - rewrite sortedCategoriesOf_perm. apply list.NoDup_app. split_and!.
    + apply NoDup_filter, counted_NoDup.
    + intros k [Hk _]%list_elem_of_filter Hin.
      destruct (truthyProp o otherConcept); [|by apply elem_of_nil in Hin].
      by apply list_elem_of_singleton in Hin.
    + destruct (truthyProp o otherConcept); [apply NoDup_singleton | apply NoDup_nil_2].
  - apply Forall_forall. intros r Hr.
    destruct (proj1 (Forall_forall _ _) Hdata r Hr) as (s & Hv & Hs).
    exists s. split; [|done].
    assert (s ∈ keyOf categoryCol <$> data) as Hkey.
    { apply list_elem_of_fmap. exists r. split; [|done]. unfold keyOf. by rewrite Hv. }
    rewrite sortedCategoriesOf_perm, elem_of_app, list_elem_of_filter.
    destruct (decide (s = otherConcept)) as [->|Hne].
    + right. assert (truthyProp o otherConcept = true) as ->
        by (by apply truthyProp_counted).
      by left.
    + left. split; [done|]. by apply counted_key.
Qed.

(** C2 fails on the code: a row whose grouping value is a number, or the
    string "__proto__", is counted but belongs to no group (the groups are
    the keys of the counter map, which are strings, and the rows of a group
    are selected with [===]; "__proto__" never becomes a key), so it is
    in no page. Of the three rows of [lostRows] one is left. *)
Theorem splitIntoPagesByCategoryPriority_drops_rows :
  splitIntoPagesByCategoryPriority lostRows reasonCol defaultMaxConstraint
  = [[mkRow (JStr (u16 "A"))]]
  /\ ~ concat (splitIntoPagesByCategoryPriority lostRows reasonCol defaultMaxConstraint)
       ≡ₚ lostRows.
Proof.
  split; [reflexivity|]. intros H. apply Permutation_length in H. discriminate H.
Qed.

(** * Further properties of the pipeline *)

(** ** The white-space normalization *)

Lemma trimEnd_ends (s : jsstring) : endsWithWhiteSpace (trimEnd s) = false.
Proof.
  unfold endsWithWhiteSpace, trimEnd. rewrite last_reverse.
  pose proof (trimStart_starts (reverse s)) as H.
  by destruct (trimStart (reverse s)).
Qed.

Lemma collapseRuns_cons (b : bool) (c : N) (s : jsstring) :
  collapseRuns b (c :: s)
  = if isWhiteSpace c
    then (if b then collapseRuns true s else space :: collapseRuns true s)
    else c :: collapseRuns false s.
Proof. reflexivity. Qed.

Lemma collapseRuns_last (b : bool) (s : jsstring) (d : N) :
  list.last s = Some d -> isWhiteSpace d = false ->
  list.last (collapseRuns b s) = Some d.
Proof.
  intros Hlast Hd. revert b. induction s as [|c s IH]; intros b; [done|].
  destruct s as [|c' s].
  - cbn in Hlast. injection Hlast as ->. cbn [collapseRuns]. by rewrite Hd.
  - rewrite last_cons_cons in Hlast. specialize (IH Hlast).
    assert (forall (x : N) (l : jsstring), list.last l = Some d -> list.last (x :: l) = Some d)
      as Hcons by (intros x [|y l] Hl; [done | by rewrite last_cons_cons]).
    rewrite collapseRuns_cons. destruct (isWhiteSpace c); [destruct b|]; auto.
Qed.

Lemma collapseRuns_ends (b : bool) (s : jsstring) :
  endsWithWhiteSpace s = false -> endsWithWhiteSpace (collapseRuns b s) = false.
Proof.
  unfold endsWithWhiteSpace. destruct (list.last s) as [d|] eqn:E.
  - intros Hd. by rewrite (collapseRuns_last b s d E Hd).
  - apply last_None in E as ->. done.
Qed.

Lemma normalizeReasonCategory_ends (x : jsval) :
  endsWithWhiteSpace (normalizeReasonCategory x) = false.
Proof.
  destruct x; cbn [normalizeReasonCategory]; try done;
    apply collapseRuns_ends, trimEnd_ends.
Qed.

Lemma collapseRuns_true_starts (s : jsstring) :
  startsWithWhiteSpace (collapseRuns true s) = false.
Proof.
  induction s as [|c s IH]; [done|]. cbn [collapseRuns].
  destruct (isWhiteSpace c) eqn:E; [exact IH|]. cbn. exact E.
Qed.

(** After the replacement every white-space unit is a space. *)
Lemma collapseRuns_spaces (b : bool) (s : jsstring) (c : N) :
  c ∈ collapseRuns b s -> isWhiteSpace c = true -> c = space.
Proof.
  revert b. induction s as [|d s IH]; intros b; cbn [collapseRuns].
  - intros H. by apply elem_of_nil in H.
  - destruct (isWhiteSpace d) eqn:E.
    + destruct b; [apply IH|]. intros [->|H]%elem_of_cons; [done | by eapply IH].
    + intros [->|H]%elem_of_cons Hc; [congruence | by eapply IH].
Qed.

(** After the replacement no two white-space units are adjacent. *)
Lemma collapseRuns_isolated (b : bool) (s : jsstring) (i : nat) (c d : N) :
  collapseRuns b s !! i = Some c -> collapseRuns b s !! S i = Some d ->
  isWhiteSpace c = true -> isWhiteSpace d = false.
Proof.
  revert b i. induction s as [|e s IH]; intros b i; cbn [collapseRuns]; [done|].
  assert (forall (x : N) (l : jsstring),
            (isWhiteSpace x = true -> startsWithWhiteSpace l = false) ->
            (forall j, l !! j = Some c -> l !! S j = Some d ->
                       isWhiteSpace c = true -> isWhiteSpace d = false) ->
            (x :: l) !! i = Some c -> (x :: l) !! S i = Some d ->
            isWhiteSpace c = true -> isWhiteSpace d = false) as Hcons.
  { intros x l Hx Hl Hi HSi Hc. destruct i as [|i]; [|by eapply Hl].
    cbn in Hi. injection Hi as ->. cbn in HSi. specialize (Hx Hc).
    destruct l as [|y l]; [done|]. cbn in HSi, Hx. congruence. }
  destruct (isWhiteSpace e) eqn:E.
  - destruct b; [apply IH|].
    apply Hcons; [intros _; apply collapseRuns_true_starts | intros j; apply IH].
  - apply Hcons; [congruence | intros j; apply IH].
Qed.

(** X1: what normalizeReasonCategory returns neither starts nor ends with
    white space, holds no white space but single spaces, and is left as it
    is when it is normalized again. *)
Theorem normalizeReasonCategory_normal_form (x : jsval) :
  startsWithWhiteSpace (normalizeReasonCategory x) = false
  /\ endsWithWhiteSpace (normalizeReasonCategory x) = false
  /\ (forall c, c ∈ normalizeReasonCategory x -> isWhiteSpace c = true -> c = space)
  /\ (forall i c d,
        normalizeReasonCategory x !! i = Some c ->
        normalizeReasonCategory x !! S i = Some d ->
        isWhiteSpace c = true -> isWhiteSpace d = false)
  /\ normalizeReasonCategory (JStr (normalizeReasonCategory x))
     = normalizeReasonCategory x.
Proof.
  split_and!.
  - apply normalizeReasonCategory_starts.
  - apply normalizeReasonCategory_ends.
  - destruct x; cbn [normalizeReasonCategory]; try (intros c H; by apply elem_of_nil in H);
      apply collapseRuns_spaces.
  - destruct x; cbn [normalizeReasonCategory]; try done; apply collapseRuns_isolated.
  - cbn [normalizeReasonCategory ToString]. unfold trim.
    rewrite (trimStart_id _ (normalizeReasonCategory_starts x)).
    rewrite (trimEnd_id _ (normalizeReasonCategory_ends x)).
    apply normalizeReasonCategory_collapsed.
Qed.

(** ** Where the trimmer cuts *)

Lemma endsWith_snoc (s : jsstring) (c : N) :
  endsWith s c = true -> s = dropLast s ++ [c].
Proof.
  unfold endsWith. destruct (list.last s) as [d|] eqn:E; [|done].
  intros ->%N.eqb_eq. apply last_Some in E as [l ->].
  unfold dropLast. rewrite length_app. cbn [length].
  by rewrite Nat.add_sub, take_app_length.
Qed.

(** The stripping loop removes plus signs only, and only from the end. *)
Lemma stripPlusLoop_shape (fuel : nat) (s : jsstring) :
  exists n : nat, s = stripPlusLoop fuel s ++ replicate n plus.
Proof.
  revert s. induction fuel as [|fuel IH]; intros s; cbn [stripPlusLoop].
  - exists 0%nat. by rewrite app_nil_r.
  - destruct (endsWith s plus) eqn:E; [|exists 0%nat; by rewrite app_nil_r].
    destruct (IH (dropLast s)) as [n Hn]. exists (S n).
    rewrite (endsWith_snoc s plus E) at 1. rewrite Hn at 1.
    by rewrite <- app_assoc, <- replicate_cons_app.
Qed.

Lemma lastIndexBelow_none (s : jsstring) (c : N) (i : nat) :
  lastIndexBelow s c i = -1 -> forall j, (j < i)%nat -> s !! j <> Some c.
Proof.
  induction i as [|i IH]; cbn [lastIndexBelow]; [intros _ j Hj; lia|].
  destruct (s !! i) as [d|] eqn:E.
  - destruct (d =? c)%N eqn:Ed; [lia|]. apply N.eqb_neq in Ed.
    intros H j Hj. destruct (decide (j = i)) as [->|]; [congruence | apply IH; [done | lia]].
  - intros H j Hj. destruct (decide (j = i)) as [->|]; [congruence | apply IH; [done | lia]].
Qed.

Lemma lastIndexBelow_some (s : jsstring) (c : N) (i : nat) :
  lastIndexBelow s c i <> -1 ->
  0 <= lastIndexBelow s c i < Z.of_nat i
  /\ s !! Z.to_nat (lastIndexBelow s c i) = Some c.
Proof.
  induction i as [|i IH]; cbn [lastIndexBelow]; [done|].
  destruct (s !! i) as [d|] eqn:E.
  - destruct (d =? c)%N eqn:Ed.
    + apply N.eqb_eq in Ed as ->. intros _. rewrite Nat2Z.id. split; [lia | done].
    + intros H. destruct (IH H) as [? ?]. split; [lia | done].
  - intros H. destruct (IH H) as [? ?]. split; [lia | done].
Qed.

(** What is left after the stripping loop is followed by a plus sign in
    every string that continues the stripped one with a plus sign, or that
    the stripped one ends with a plus sign of. *)
Lemma stripTrailingPlus_next (s t : jsstring) :
  (exists rest, s = t ++ plus :: rest) \/ (t `prefix_of` s /\ endsWith t plus = true) ->
  exists rest, s = stripTrailingPlus t ++ plus :: rest.
Proof.
  destruct (stripPlusLoop_shape (length t) t) as [n Hn]. fold (stripTrailingPlus t) in Hn.
  pose proof (stripTrailingPlus_endsWith t) as Hr.
  revert Hn Hr. generalize (stripTrailingPlus t). intros r Hn Hr. subst t.
  intros [[rest ->]|[[k ->] He]].
  - destruct n as [|n].
    + rewrite app_nil_r. by exists rest.
    + exists (replicate n plus ++ plus :: rest). cbn [replicate].
      by rewrite <- !app_assoc.
  - destruct n as [|n].
    + rewrite app_nil_r in He. congruence.
    + exists (replicate n plus ++ k). cbn [replicate].
      by rewrite <- !app_assoc.
Qed.

Lemma not_elem_of_endsWith (s : jsstring) (c : N) : c ∉ s -> endsWith s c = false.
Proof.
  intros H. unfold endsWith. destruct (list.last s) as [d|] eqn:E; [|done].
  apply N.eqb_neq. intros ->. apply H. by eapply last_Some_elem_of.
Qed.

(** The truncation loop, entered at [i] after every longer prefix was found
    too wide, returns a string that a plus sign follows in the input, or
    the longest prefix that fits, which then holds no plus sign. *)
Lemma truncateLoop_cut (s : jsstring) (m : Z) (i : nat) :
  (i <= length s)%nat ->
  (forall j, (i < j <= length s)%nat -> m < calculateChineseLength (JStr (take j s))) ->
  (exists rest, s = truncateLoop s m i ++ plus :: rest)
  \/ ((plus ∉ truncateLoop s m i)
      /\ forall j, (length (truncateLoop s m i) < j <= length s)%nat ->
                   m < calculateChineseLength (JStr (take j s))).
Proof.
  induction i as [|i IH]; intros Hi Hlong; cbn [truncateLoop].
  - right. split; [apply not_elem_of_nil|]. cbn [length]. exact Hlong.
  - unfold slice0. set (t := take (S i) s).
    assert (length t = S i) as Hlen by (unfold t; rewrite length_take; lia).
    destruct (calculateChineseLength (JStr t) <=? m) eqn:Ew.
    2: { apply Z.leb_gt in Ew. apply IH; [lia|]. intros j Hj.
         destruct (decide (j = S i)) as [->|]; [exact Ew | apply Hlong; lia]. }
    unfold lastIndexOf. rewrite Hlen.
    destruct (decide (lastIndexBelow t plus (S i) = -1)) as [Hnone|Hsome].
    + rewrite Hnone. cbn [Z.eqb negb andb].
      assert (plus ∉ t) as Hnot.
      { intros [j Hj]%list_elem_of_lookup_1.
        apply (lastIndexBelow_none t plus (S i) Hnone j); [|done].
        apply lookup_lt_Some in Hj. lia. }
      right. unfold stripTrailingPlus.
      rewrite (stripPlusLoop_id _ _ (not_elem_of_endsWith t plus Hnot)).
      split; [exact Hnot|]. rewrite Hlen. exact Hlong.
    + destruct (lastIndexBelow_some t plus (S i) Hsome) as [Hk Hat].
      rewrite (proj2 (Z.eqb_neq _ _) Hsome). cbn [negb andb].
      set (k := lastIndexBelow t plus (S i)) in *.
      left. apply stripTrailingPlus_next.
      destruct (k <? Z.of_nat (S i) - 1) eqn:Ek.
      * left. unfold t in Hat. rewrite lookup_take in Hat.
        case_decide; [|done].
        exists (drop (S (Z.to_nat k)) s). unfold t.
        rewrite take_take, Nat.min_l by lia.
        rewrite <- (take_drop (Z.to_nat k) s) at 1. f_equal.
        by apply drop_S.
      * right. split; [apply prefix_take|]. apply Z.ltb_ge in Ek.
        unfold endsWith. rewrite last_lookup, Hlen. cbn [pred].
        replace i with (Z.to_nat k) by lia. rewrite Hat. apply N.eqb_refl.
Qed.

Lemma truncateLoop_negative (s : jsstring) (m : Z) (i : nat) :
  m < 0 -> truncateLoop s m i = [].
Proof.
  intros Hm. induction i as [|i IH]; cbn [truncateLoop]; [done|].
  rewrite calculateChineseLength_spec.
  pose proof (widthBySpec_nonneg (slice0 s (S i))).
  by rewrite (proj2 (Z.leb_gt _ _)) by lia.
Qed.

(** X2: the trimmer returns a prefix of its input, which is the input as
    it is, or a prefix that a plus sign follows in the input (it cuts at a
    separator), or a prefix without a plus sign such that every longer
    prefix of the input is wider than the budget; this last prefix is
    within the budget when the budget is not negative (it is the longest
    prefix within the budget), and it is the empty string when the budget
    is negative, where no prefix is within the budget. *)
Theorem trimReasonCategoryField_cuts_at_plus (s : jsstring) (maxLength : Z) :
  trimReasonCategoryField s maxLength `prefix_of` s
  /\ (trimReasonCategoryField s maxLength = s
      \/ (exists rest, s = trimReasonCategoryField s maxLength ++ plus :: rest)
      \/ ((plus ∉ trimReasonCategoryField s maxLength)
          /\ ((0 <= maxLength
               /\ calculateChineseLength (JStr (trimReasonCategoryField s maxLength))
                  <= maxLength)
              \/ (maxLength < 0 /\ trimReasonCategoryField s maxLength = []))
          /\ forall p : jsstring,
               p `prefix_of` s ->
               (length (trimReasonCategoryField s maxLength) < length p)%nat ->
               maxLength < calculateChineseLength (JStr p))).
Proof.
  split; [apply trimReasonCategoryField_prefix|].
  unfold trimReasonCategoryField.
  destruct (calculateChineseLength (JStr s) <=? maxLength) eqn:Ew.
  - destruct (stripPlusLoop_shape (length s) s) as [[|n] Hn];
      fold (stripTrailingPlus s) in Hn.
    + left. by rewrite app_nil_r in Hn.
    + right. left. exists (replicate n plus). exact Hn.
  - apply Z.leb_gt in Ew. right.
    destruct (truncateLoop_cut s maxLength (length s)) as [H|[Hnot Hlong]];
      [lia | intros j Hj; lia | by left |].
    right. split_and!; [exact Hnot | |].
    + destruct (decide (0 <= maxLength)) as [Hm|Hm].
      * left. split; [exact Hm | by apply truncateLoop_width].
      * right. split; [lia | apply truncateLoop_negative; lia].
    + intros p Hp Hlt.
      pose proof (prefix_length _ _ Hp) as Hle.
      destruct Hp as [k ->]. specialize (Hlong (length p)).
      rewrite take_app_length in Hlong. apply Hlong. lia.
Qed.

(** X3: trimming a trimmed field again, at the same budget, changes
    nothing. *)
Theorem trimReasonCategoryField_idempotent (s : jsstring) (maxLength : Z) :
  trimReasonCategoryField (trimReasonCategoryField s maxLength) maxLength
  = trimReasonCategoryField s maxLength.
Proof.
  destruct (decide (0 <= maxLength)) as [Hm|Hm].
  - apply trimReasonCategoryField_fixed.
    + by apply trimReasonCategoryField_width.
    + apply trimReasonCategoryField_endsWith.
  - assert (forall t, trimReasonCategoryField t maxLength = []) as Hnil.
    { intros t. unfold trimReasonCategoryField. rewrite calculateChineseLength_spec.
      pose proof (widthBySpec_nonneg t).
      rewrite (proj2 (Z.leb_gt _ _)) by lia. apply truncateLoop_negative. lia. }
    by rewrite !Hnil.
Qed.

(** X4: at a budget that is not negative, the trimmer leaves a string
    untouched exactly when the string fits the budget and does not end
    with a plus sign. *)
Theorem trimReasonCategoryField_unchanged_iff (s : jsstring) (maxLength : Z) :
  0 <= maxLength ->
  trimReasonCategoryField s maxLength = s
  <-> calculateChineseLength (JStr s) <= maxLength /\ list.last s <> Some plus.
Proof.
  intros Hm. split.
  - intros Heq. split.
    + rewrite <- Heq. by apply trimReasonCategoryField_width.
    + pose proof (trimReasonCategoryField_endsWith s maxLength) as He.
      rewrite Heq in He. unfold endsWith in He. intros E. rewrite E in He.
      by rewrite N.eqb_refl in He.
  - intros [Hw Hl]. apply trimReasonCategoryField_fixed; [exact Hw|].
    unfold endsWith. destruct (list.last s) as [d|]; [|done].
    apply N.eqb_neq. congruence.
Qed.

Lemma trimReasonCategoryField_unchanged_iff_witness :
  0 <= 36
  /\ (trimReasonCategoryField (u16 "a+b") 36 = u16 "a+b"
      <-> calculateChineseLength (JStr (u16 "a+b")) <= 36
          /\ list.last (u16 "a+b") <> Some plus).
Proof.
  split; [lia|]. apply (trimReasonCategoryField_unchanged_iff (u16 "a+b") 36). lia.
Defined.

(** X5: the width of a string lies between its length and twice its
    length, and the width of a concatenation is the sum of the widths. *)
Theorem calculateChineseLength_bounds_additive (s t : jsstring) :
  Z.of_nat (length s) <= calculateChineseLength (JStr s) <= 2 * Z.of_nat (length s)
  /\ calculateChineseLength (JStr (s ++ t))
     = calculateChineseLength (JStr s) + calculateChineseLength (JStr t).
Proof.
  split; [|by rewrite !calculateChineseLength_spec, widthBySpec_app].
  rewrite calculateChineseLength_spec. unfold widthBySpec.
  induction s as [|c s IH]; cbn [foldr length]; [lia|].
  unfold unitWidth at 1 3. destruct (isChinese c); lia.
Qed.

(** ** What the column resolver returns *)

Lemma trimStart_suffix (s : jsstring) : exists a, s = a ++ trimStart s.
Proof.
  induction s as [|c s [a IH]]; [by exists []|]. cbn [trimStart].
  destruct (isWhiteSpace c); [|by exists []].
  exists (c :: a). cbn [app]. by f_equal.
Qed.

Lemma trimEnd_prefix (s : jsstring) : exists b, s = trimEnd s ++ b.
Proof.
  unfold trimEnd. destruct (trimStart_suffix (reverse s)) as [a Ha].
  exists (reverse a). rewrite <- reverse_app, <- Ha. by rewrite reverse_involutive.
Qed.

(** A key contains what it is trimmed to. *)
Lemma trim_substring (s : jsstring) : exists a b, s = a ++ trim s ++ b.
Proof.
  unfold trim. destruct (trimStart_suffix s) as [a Ha].
  destruct (trimEnd_prefix (trimStart s)) as [b Hb].
  exists a, b. by rewrite <- Hb.
Qed.

Lemma find_some_first {A : Type} (f : A -> bool) (l : list A) (x : A) :
  List.find f l = Some x ->
  exists pre post, l = pre ++ x :: post /\ f x = true /\ forall y, y ∈ pre -> f y = false.
Proof.
  induction l as [|z l IH]; cbn [List.find]; [done|].
  destruct (f z) eqn:E.
  - intros [= ->]. exists [], l. split_and!; [done | done |].
    intros y Hy. by apply elem_of_nil in Hy.
  - intros (pre & post & -> & Hx & Hpre)%IH. exists (z :: pre), post.
    split_and!; [done | done |]. intros y [->|Hy]%elem_of_cons; auto.
Qed.

(** X6: findColumn returns null exactly when the dataset is empty or no key
    of the first row contains the target name. *)
Theorem findColumn_null_iff (data : list row) (columnName : jsstring) :
  findColumn data columnName = None
  <-> data = []
      \/ exists firstRow rest,
           data = firstRow :: rest
           /\ forall key, key ∈ map fst firstRow ->
                          ~ exists a b : jsstring, key = a ++ columnName ++ b.
Proof.
  destruct data as [|firstRow rest]; [split; [by left | done]|].
  cbn [findColumn]. split.
  - case_bool_decide as Hexact; [done|].
    destruct (List.find _ _) eqn:Etrim; [done|]. intros Hsub. right.
    exists firstRow, rest. split; [done|]. intros key Hkey Hc.
    apply includes_spec in Hc. rewrite (proj1 (find_none_iff _ _) Hsub key Hkey) in Hc.
    done.
  - intros [?|(firstRow' & rest' & [= <- <-] & Hno)]; [done|].
    rewrite bool_decide_eq_false_2.
    2: { intros Hin. apply (Hno _ Hin). exists [], []. by rewrite app_nil_r. }
    assert (List.find (fun col => bool_decide (trim col = columnName)) (map fst firstRow)
            = None) as ->.
    { apply find_none_iff. intros key Hkey. apply bool_decide_eq_false_2.
      intros <-. apply (Hno _ Hkey). apply trim_substring. }
    apply find_none_iff. intros key Hkey.
    destruct (includes key columnName) eqn:E; [|done].
    apply includes_spec in E. by apply Hno in E.
Qed.

(** X7: a name that findColumn returns is a key of the first row and
    contains the target name. *)
Theorem findColumn_returns_key (data : list row) (columnName col : jsstring) :
  findColumn data columnName = Some col ->
  exists firstRow rest,
    data = firstRow :: rest
    /\ col ∈ map fst firstRow
    /\ exists a b : jsstring, col = a ++ columnName ++ b.
Proof.
  destruct data as [|firstRow rest]; [done|]. cbn [findColumn].
  intros H. exists firstRow, rest. split; [done|].
  case_bool_decide as Hexact.
  - injection H as <-. split; [done|]. exists [], []. by rewrite app_nil_r.
  - destruct (List.find _ _) as [c|] eqn:Etrim.
    + injection H as ->.
      apply find_some_first in Etrim as (pre & post & Hl & Hc & _).
      apply bool_decide_eq_true_1 in Hc as <-.
      split; [rewrite Hl; apply elem_of_app; right; by left | apply trim_substring].
    + apply find_some_first in H as (pre & post & Hl & Hc & _).
      split; [rewrite Hl; apply elem_of_app; right; by left | by apply includes_spec].
Qed.

Lemma findColumn_returns_key_witness :
  findColumn [[(u16 "time", JNum 1); (u16 "days (d)", JNum 2)]] (u16 "days")
  = Some (u16 "days (d)")
  /\ exists firstRow rest,
       [[(u16 "time", JNum 1); (u16 "days (d)", JNum 2)]] = firstRow :: rest
       /\ u16 "days (d)" ∈ map fst firstRow
       /\ exists a b : jsstring, u16 "days (d)" = a ++ u16 "days" ++ b.
Proof.
  split; [reflexivity|].
  apply (findColumn_returns_key _ (u16 "days")). reflexivity.
Defined.

(** X8: when no key of the first row equals the target name, the keys
    that match after trimming are served before the keys that merely
    contain the name: if some key trims to the name, the first such key of
    the row is returned, and otherwise the first key that contains the
    name. *)
Theorem findColumn_precedence (firstRow : row) (rest : list row) (columnName : jsstring) :
  columnName ∉ map fst firstRow ->
  (forall key, key ∈ map fst firstRow -> trim key = columnName ->
     exists pre col post,
       map fst firstRow = pre ++ col :: post
       /\ findColumn (firstRow :: rest) columnName = Some col
       /\ trim col = columnName
       /\ forall k, k ∈ pre -> trim k <> columnName)
  /\ ((forall key, key ∈ map fst firstRow -> trim key <> columnName) ->
      forall key, key ∈ map fst firstRow ->
        (exists a b : jsstring, key = a ++ columnName ++ b) ->
        exists pre col post,
          map fst firstRow = pre ++ col :: post
          /\ findColumn (firstRow :: rest) columnName = Some col
          /\ (exists a b : jsstring, col = a ++ columnName ++ b)
          /\ forall k, k ∈ pre -> ~ exists a b : jsstring, k = a ++ columnName ++ b).
Proof.
  intros Hexact. cbn [findColumn]. rewrite bool_decide_eq_false_2 by done. split.
  - intros key Hkey Htrim.
    destruct (List.find (fun col => bool_decide (trim col = columnName)) (map fst firstRow))
      as [c|] eqn:E.
    + apply find_some_first in E as (pre & post & Hl & Hc & Hpre).
      exists pre, c, post. split_and!; [done | done | by apply bool_decide_eq_true_1 in Hc |].
      intros k Hk. specialize (Hpre k Hk). by apply bool_decide_eq_false_1 in Hpre.
    + pose proof (proj1 (find_none_iff _ _) E key Hkey) as Hf.
      by apply bool_decide_eq_false_1 in Hf.
  - intros Hnotrim key Hkey Hsub.
    assert (List.find (fun col => bool_decide (trim col = columnName)) (map fst firstRow)
            = None) as ->.
    { apply find_none_iff. intros k Hk. apply bool_decide_eq_false_2. by apply Hnotrim. }
    destruct (List.find (fun col => includes col columnName) (map fst firstRow))
      as [c|] eqn:E.
    + apply find_some_first in E as (pre & post & Hl & Hc & Hpre).
      exists pre, c, post. split_and!; [done | done | by apply includes_spec |].
      intros k Hk Hin. apply includes_spec in Hin. by rewrite (Hpre k Hk) in Hin.
    + pose proof (proj1 (find_none_iff _ _) E key Hkey) as Hf.
      apply includes_spec in Hsub. congruence.
Qed.

Lemma findColumn_precedence_witness :
  (u16 "days" ∉ map fst trimmedKeysRow)
  /\ (forall key, key ∈ map fst trimmedKeysRow -> trim key = u16 "days" ->
        exists pre col post,
          map fst trimmedKeysRow = pre ++ col :: post
          /\ findColumn [trimmedKeysRow] (u16 "days") = Some col
          /\ trim col = u16 "days"
          /\ forall k, k ∈ pre -> trim k <> u16 "days")
  /\ ((forall key, key ∈ map fst trimmedKeysRow -> trim key <> u16 "days") ->
      forall key, key ∈ map fst trimmedKeysRow ->
        (exists a b : jsstring, key = a ++ u16 "days" ++ b) ->
        exists pre col post,
          map fst trimmedKeysRow = pre ++ col :: post
          /\ findColumn [trimmedKeysRow] (u16 "days") = Some col
          /\ (exists a b : jsstring, col = a ++ u16 "days" ++ b)
          /\ forall k, k ∈ pre -> ~ exists a b : jsstring, k = a ++ u16 "days" ++ b).
Proof.
  assert (u16 "days" ∉ map fst trimmedKeysRow) as H
    by (apply (bool_decide_unpack _); vm_compute; exact I).
  split; [exact H|]. exact (findColumn_precedence trimmedKeysRow [] (u16 "days") H).
Defined.

(** ** The groups of the paginator *)

Section Groups.
Context (col : jsstring) (data : list row).

Local Abbreviation groupKeys := (keyOf col <$> data).
Local Abbreviation groupOrder := (sortedCategoriesOf (countCategories col data [])).

(** The group order holds every key counted, except [__proto__], once. *)
Lemma groupOrder_NoDup : NoDup groupOrder.
Proof.
  rewrite sortedCategoriesOf_perm. apply list.NoDup_app. split_and!.
  - apply NoDup_filter, counted_NoDup.
  - intros k [Hk _]%list_elem_of_filter Hin.
    destruct (truthyProp _ otherConcept); [|by apply elem_of_nil in Hin].
    by apply list_elem_of_singleton in Hin.
  - destruct (truthyProp _ otherConcept); [apply NoDup_singleton | apply NoDup_nil_2].
Qed.

Lemma otherConcept_not_proto : otherConcept <> protoKey.
Proof. discriminate. Qed.

Lemma groupOrder_elem_of (k : jsstring) :
  k ∈ groupOrder <-> k ∈ groupKeys /\ k <> protoKey.
Proof.
  rewrite sortedCategoriesOf_perm, elem_of_app, list_elem_of_filter, counted_key.
  pose proof (truthyProp_counted col data) as Ht.
  destruct (truthyProp _ otherConcept).
  - rewrite list_elem_of_singleton. split.
    + intros [[? [? ?]]| ->]; [done|]. split; [by apply Ht | apply otherConcept_not_proto].
    + intros [Hk Hp]. destruct (decide (k = otherConcept)); [by right | by left].
  - rewrite elem_of_nil. split; [intros [[? [? ?]]|[]]; done|].
    intros [Hk Hp]. left. split_and!; [|done|done].
    intros ->. apply Ht in Hk. done.
Qed.

(** The reordered array: the rows of each group of the order, group after
    group. *)
Lemma reorder_groupOrder :
  reorder data col groupOrder = groupOrder ≫= rowsOfCategory data col.
Proof.
  rewrite reorder_eq. unfold sortedCategoriesOf.
  set (front := map fst (arraySort byCountDescending
                   (filter (fun e : jsstring * countval => e.1 <> otherConcept)
                      (entries (countCategories col data []))))).
  assert (Forall (fun k => k <> otherConcept) front) as Hfront.
  { apply Forall_forall. intros k (e & -> & He)%list_elem_of_fmap.
    rewrite arraySort_elem_of in He. by apply list_elem_of_filter in He as [? _]. }
  assert (filter (fun cat => cat <> otherConcept) front = front) as E1.
  { clear -Hfront. induction Hfront as [|k l Hk _ IH]; [done|].
    rewrite filter_cons. destruct (decide (k <> otherConcept)); [by rewrite IH | done]. }
  assert (filter (fun cat => cat = otherConcept) front = []) as E2.
  { clear -Hfront. induction Hfront as [|k l Hk _ IH]; [done|].
    rewrite filter_cons. destruct (decide (k = otherConcept)); [done | exact IH]. }
  destruct (truthyProp _ otherConcept).
  - rewrite !filter_app, E1, E2, !bind_app.
    assert (filter (fun cat => cat <> otherConcept) [otherConcept] = []) as ->
      by (apply (bool_decide_unpack _); vm_compute; exact I).
    assert (filter (fun cat => cat = otherConcept) [otherConcept] = [otherConcept]) as ->
      by (apply (bool_decide_unpack _); vm_compute; exact I).
    cbn [mbind list_bind app]. by rewrite !app_nil_r.
  - by rewrite E1, E2, app_nil_r.
Qed.

Lemma rowsOfCategory_groupable (c : jsstring) :
  c <> protoKey ->
  rowsOfCategory (filter (fun r => groupable col r) data) col c = rowsOfCategory data col c.
Proof.
  intros Hc. unfold rowsOfCategory. apply list_filter_filter_l.
  intros r Hr%strictEqStr_spec. unfold groupable. rewrite Hr.
  by rewrite bool_decide_eq_false_2.
Qed.

Lemma groupable_spec (r : row) :
  groupable col r <-> exists s, getProp r col = JStr s /\ s <> protoKey.
Proof.
  unfold groupable. destruct (getProp r col) as [| |b|n|s]; cbn;
    try (split; [done | intros (? & ? & ?); done]).
  case_bool_decide as E; cbn.
  - split; [done|]. intros (s' & [= <-] & ?). done.
  - split; [|done]. intros _. by exists s.
Qed.

Lemma rowsOfCategory_other (l : list row) (c c' : jsstring) :
  c' <> c ->
  filter (fun r => strictEqStr (getProp r col) c) (rowsOfCategory l col c') = [].
Proof.
  intros Hne. unfold rowsOfCategory. rewrite list_filter_filter.
  induction l as [|r l IH]; [done|]. rewrite filter_cons.
  destruct (decide _) as [[H1%strictEqStr_spec H2%strictEqStr_spec]|]; [|done].
  congruence.
Qed.

(** Of one group the selection keeps, among the rows collected over
    distinct groups, the rows of that group alone. *)
Lemma filter_bind_rowsOfCategory (cats : list jsstring) (c : jsstring) :
  NoDup cats ->
  filter (fun r => strictEqStr (getProp r col) c) (cats ≫= rowsOfCategory data col)
  = if bool_decide (c ∈ cats) then rowsOfCategory data col c else [].
Proof.
  induction cats as [|c' cats IH]; [done|].
  intros [Hc' Hnd]%NoDup_cons. rewrite bind_cons, filter_app, (IH Hnd).
  destruct (decide (c' = c)) as [->|Hne].
  - rewrite (bool_decide_eq_true_2 (c ∈ c :: cats)) by (by left).
    rewrite (bool_decide_eq_false_2 _ Hc'), app_nil_r.
    unfold rowsOfCategory. by rewrite list_filter_filter_l.
  - rewrite (rowsOfCategory_other data c c' Hne).
    cbn [app]. rewrite (bool_decide_ext (c ∈ c' :: cats) (c ∈ cats)); [done|].
    rewrite elem_of_cons. split; [intros [?|?]; congruence | by right].
Qed.
End Groups.

(** The rows collected over the group order are the rows that can be
    placed. *)
Lemma bind_rowsOfCategory_kept (col : jsstring) (data : list row) :
  sortedCategoriesOf (countCategories col data []) ≫= rowsOfCategory data col
  ≡ₚ filter (fun r => groupable col r) data.
Proof.
  set (cats := sortedCategoriesOf (countCategories col data [])).
  assert (cats ≫= rowsOfCategory data col
          = cats ≫= rowsOfCategory (filter (fun r => groupable col r) data) col) as ->.
  { assert (Forall (fun k => k <> protoKey) cats) as Hcats.
    { apply Forall_forall. intros k Hk. by apply groupOrder_elem_of in Hk as [_ ?]. }
    clear -Hcats. induction Hcats as [|k l Hk _ IH]; [done|].
    by rewrite !bind_cons, IH, rowsOfCategory_groupable. }
  apply bind_rowsOfCategory_perm; [apply groupOrder_NoDup|].
  apply Forall_forall. intros r [Hg Hr]%list_elem_of_filter.
  apply groupable_spec in Hg as (s & Hs & Hp). exists s. split; [|done].
  apply groupOrder_elem_of. split; [|done].
  apply list_elem_of_fmap. exists r. split; [|done]. unfold keyOf. by rewrite Hs.
Qed.

(** X9: the pages hold exactly the input rows whose grouping value is a
    string other than "__proto__", each as often as the input holds it; no
    other row is in any page. *)
Theorem splitIntoPagesByCategoryPriority_kept_rows
    (data : list row) (categoryCol : jsstring) (maxConstraint : jsnumber) :
  concat (splitIntoPagesByCategoryPriority data categoryCol maxConstraint)
  ≡ₚ filter (fun r => groupable categoryCol r) data.
Proof.
  unfold splitIntoPagesByCategoryPriority.
  destruct (paginate_concat categoryCol maxConstraint
              (reorder data categoryCol
                 (sortedCategoriesOf (countCategories categoryCol data [])))) as [-> _].
  rewrite reorder_groupOrder. apply bind_rowsOfCategory_kept.
Qed.

(** X10: inside the pages the rows of one group stand in the order of the
    input: selecting from the concatenated pages the rows whose grouping
    value is the string [c] gives the rows of the input with that value, in
    input order (none when [c] is "__proto__"). *)
Theorem splitIntoPagesByCategoryPriority_group_order
    (data : list row) (categoryCol : jsstring) (maxConstraint : jsnumber) (c : jsstring) :
  filter (fun r => strictEqStr (getProp r categoryCol) c)
         (concat (splitIntoPagesByCategoryPriority data categoryCol maxConstraint))
  = if bool_decide (c = protoKey) then [] else rowsOfCategory data categoryCol c.
Proof.
  unfold splitIntoPagesByCategoryPriority.
  destruct (paginate_concat categoryCol maxConstraint
              (reorder data categoryCol
                 (sortedCategoriesOf (countCategories categoryCol data [])))) as [-> _].
  rewrite reorder_groupOrder, filter_bind_rowsOfCategory by apply groupOrder_NoDup.
  case_bool_decide as Hin.
  - apply groupOrder_elem_of in Hin as [_ Hp]. by rewrite bool_decide_eq_false_2.
  - case_bool_decide as Hp; [done|].
    symmetry. unfold rowsOfCategory.
    induction data as [|r l IH]; [done|].
    assert (~ strictEqStr (getProp r categoryCol) c) as Hr.
    { intros Hr%strictEqStr_spec. apply Hin, groupOrder_elem_of. split; [|done].
      apply list_elem_of_fmap. exists r. split; [|by left]. unfold keyOf. by rewrite Hr. }
    rewrite filter_cons. destruct (decide _); [done|].
    apply IH. intros Hl. apply Hin. apply groupOrder_elem_of in Hl as [Hl _].
    apply groupOrder_elem_of. split; [|done]. cbn [fmap list_fmap]. by right.
Qed.

(** ** The priority of the groups *)

Lemma occursBefore_bind {A B : Type} (f : A -> list B) (l : list A) (a b : B) :
  occursBefore (l ≫= f) a b ->
  (exists c, c ∈ l /\ occursBefore (f c) a b)
  \/ (exists c1 c2, occursBefore l c1 c2 /\ a ∈ f c1 /\ b ∈ f c2).
Proof.
  induction l as [|x l IH].
  - intros H. by apply occursBefore_nil in H.
  - rewrite bind_cons, occursBefore_app. intros [H|[[Ha Hb]|H]].
    + left. exists x. split; [by left | done].
    + right. apply list_elem_of_bind in Hb as (c2 & Hb & Hc2).
      exists x, c2. split_and!; [|done|done]. apply occursBefore_cons. by left.
    + destruct (IH H) as [(c & Hc & Hcb)|(c1 & c2 & Hcc & H1 & H2)].
      * left. exists c. split; [by right | done].
      * right. exists c1, c2. split_and!; [|done|done]. apply occursBefore_cons. by right.
Qed.

(** When no key counted is a member of [Object.prototype], every counter
    is the number of occurrences of its key. *)
Lemma counted_numbers (col : jsstring) (data : list row) (e : jsstring * countval) :
  Forall (fun k => k ∉ prototypeKeys) (keyOf col <$> data) ->
  e ∈ countCategories col data [] ->
  e.1 ∈ keyOf col <$> data /\ e.2 = CNum (occurrences e.1 (keyOf col <$> data)).
Proof.
  intros Hkeys He. destruct e as [k v]. cbn [fst snd].
  assert (k ∈ keyOf col <$> data) as Hk.
  { apply (counted_key col data k). apply list_elem_of_fmap. by exists (k, v). }
  split; [exact Hk|]. apply (counted_value col data); [|exact He].
  by apply (proj1 (Forall_forall _ _) Hkeys).
Qed.

(** X11: when no grouping value is the name of a member of
    [Object.prototype], the groups other than the sentinel stand in the
    pages by descending size: a row that stands before a row of a
    non-sentinel group belongs to a group that was counted at least as
    often. *)
Theorem splitIntoPagesByCategoryPriority_priority
    (data : list row) (categoryCol : jsstring) (maxConstraint : jsnumber)
    (r1 r2 : row) (c1 c2 : jsstring) :
  Forall (fun k => k ∉ prototypeKeys) (keyOf categoryCol <$> data) ->
  occursBefore (concat (splitIntoPagesByCategoryPriority data categoryCol maxConstraint))
               r1 r2 ->
  getProp r1 categoryCol = JStr c1 ->
  getProp r2 categoryCol = JStr c2 ->
  c2 <> otherConcept ->
  occurrences c2 (keyOf categoryCol <$> data)
  <= occurrences c1 (keyOf categoryCol <$> data).
Proof.
  intros Hkeys Hbefore H1 H2 Hc2. unfold splitIntoPagesByCategoryPriority in Hbefore.
  destruct (paginate_concat categoryCol maxConstraint
              (reorder data categoryCol
                 (sortedCategoriesOf (countCategories categoryCol data [])))) as [E _].
  rewrite E, reorder_groupOrder in Hbefore. clear E.
  apply occursBefore_bind in Hbefore as [(c & _ & Hc)|(k1 & k2 & Hk & Hr1 & Hr2)].
  - apply occursBefore_elem_of in Hc as [[_ E1]%rowsOfCategory_spec [_ E2]%rowsOfCategory_spec].
    assert (c1 = c2) as -> by congruence. lia.
  - apply rowsOfCategory_spec in Hr1 as [_ E1]. apply rowsOfCategory_spec in Hr2 as [_ E2].
    assert (k1 = c1) as -> by congruence. assert (k2 = c2) as -> by congruence.
    unfold sortedCategoriesOf in Hk.
    set (o := countCategories categoryCol data []) in *.
    set (sorted := arraySort byCountDescending
                     (filter (fun e : jsstring * countval => e.1 <> otherConcept)
                        (entries o))) in *.
    assert (occursBefore (fst <$> sorted) c1 c2) as Hfront.
    { destruct (truthyProp o otherConcept); [|exact Hk].
      apply occursBefore_app in Hk as [Hk|[[_ Hk]|Hk]]; [exact Hk | |].
      - by apply list_elem_of_singleton in Hk.
      - apply occursBefore_elem_of in Hk as [_ Hk].
        by apply list_elem_of_singleton in Hk. }
    apply occursBefore_fmap in Hfront as (e1 & e2 & He & <- & <-).
    assert (Forall (fun e : jsstring * countval => exists n, e.2 = CNum n)
              (filter (fun e : jsstring * countval => e.1 <> otherConcept) (entries o)))
      as HD.
    { apply Forall_forall. intros e [_ He']%list_elem_of_filter.
      rewrite entries_perm in He'.
      destruct (counted_numbers categoryCol data e Hkeys He') as [_ ->]. by eexists. }
    pose proof (arraySort_descending byCountDescending (fun e => numOf (Some e.2)) _
                  byCountDescending_rank _ HD e1 e2 He) as Hd.
    apply occursBefore_elem_of in He as [He1 He2].
    unfold sorted in He1, He2. rewrite arraySort_elem_of in He1, He2.
    apply list_elem_of_filter in He1 as [_ He1]. apply list_elem_of_filter in He2 as [_ He2].
    rewrite entries_perm in He1, He2.
    destruct (counted_numbers categoryCol data e1 Hkeys He1) as [_ V1].
    destruct (counted_numbers categoryCol data e2 Hkeys He2) as [_ V2].
    cbn beta in Hd. by rewrite V1, V2 in Hd.
Qed.

Lemma splitIntoPagesByCategoryPriority_priority_witness :
  Forall (fun k => k ∉ prototypeKeys) (keyOf reasonCol <$> rankedReasons)
  /\ occursBefore
       (concat (splitIntoPagesByCategoryPriority rankedReasons reasonCol defaultMaxConstraint))
       (mkRow (JStr (u16 "C"))) (mkRow (JStr (u16 "A")))
  /\ getProp (mkRow (JStr (u16 "C"))) reasonCol = JStr (u16 "C")
  /\ getProp (mkRow (JStr (u16 "A"))) reasonCol = JStr (u16 "A")
  /\ u16 "A" <> otherConcept
  /\ occurrences (u16 "A") (keyOf reasonCol <$> rankedReasons)
     <= occurrences (u16 "C") (keyOf reasonCol <$> rankedReasons).
Proof.
  assert (Forall (fun k => k ∉ prototypeKeys) (keyOf reasonCol <$> rankedReasons)) as H
    by (apply (bool_decide_unpack _); vm_compute; exact I).
  assert (occursBefore
            (concat (splitIntoPagesByCategoryPriority rankedReasons reasonCol
                       defaultMaxConstraint))
            (mkRow (JStr (u16 "C"))) (mkRow (JStr (u16 "A")))) as Hb
    by (exists 0%nat, 5%nat; split_and!; [lia | reflexivity | reflexivity]).
  assert (u16 "A" <> otherConcept) as Hne by discriminate.
  split_and!; [exact H | exact Hb | reflexivity | reflexivity | exact Hne |].
  exact (splitIntoPagesByCategoryPriority_priority rankedReasons reasonCol
           defaultMaxConstraint _ _ (u16 "C") (u16 "A") H Hb eq_refl eq_refl Hne).
Defined.

(** ** The windows are as long as the constraint allows *)

Lemma distinctGroups_mono (col : jsstring) (l l' : list row) :
  (forall r, r ∈ l' -> r ∈ l) -> (distinctGroups col l' <= distinctGroups col l)%nat.
Proof.
  intros Hsub. unfold distinctGroups. apply submseteq_length.
  apply NoDup_submseteq; [apply NoDup_remove_dups|].
  intros v. rewrite !elem_of_remove_dups.
  intros (r & -> & Hr)%list_elem_of_fmap. apply list_elem_of_fmap. exists r. auto.
Qed.

Lemma distinctGroups_pos (col : jsstring) (l : list row) :
  l <> [] -> (1 <= distinctGroups col l)%nat.
Proof.
  destruct l as [|r l]; [done|]. intros _. unfold distinctGroups.
  assert (getProp r col ∈ remove_dups (map (fun r => getProp r col) (r :: l))) as H
    by (apply elem_of_remove_dups; by left).
  destruct (remove_dups _); [by apply elem_of_nil in H | cbn [length]; lia].
Qed.

(** Rows taken from a list that is within the constraint, no more of them
    than the list has, are within the constraint. *)
Lemma withinConstraint_mono (col : jsstring) (m : Z) (l l' : list row) :
  (forall r, r ∈ l' -> r ∈ l) -> (length l' <= length l)%nat ->
  withinConstraint col m l -> withinConstraint col m l'.
Proof.
  unfold withinConstraint. intros Hsub Hlen H.
  pose proof (distinctGroups_mono col l l' Hsub). lia.
Qed.

Lemma withinConstraint_prefix (col : jsstring) (m : Z) (l k : list row) :
  withinConstraint col m (l ++ k) -> withinConstraint col m l.
Proof.
  apply withinConstraint_mono.
  - intros r Hr. apply elem_of_app. by left.
  - rewrite length_app. lia.
Qed.

Section Greedy.
Context (categoryCol : jsstring) (maxConstraint : Z).

Local Abbreviation groupOf := (fun r : row => getProp r categoryCol).

(** The inner loop stops before the first row that the window cannot
    take. *)
Lemma windowEnd_stop (rest seen : list row) (categories : list jsval)
    (categoryCount itemCount : Z) (j : nat) :
  NoDup categories ->
  (forall v, v ∈ categories <-> v ∈ map groupOf seen) ->
  categoryCount = Z.of_nat (length categories) ->
  itemCount = Z.of_nat (length seen) ->
  exists k : nat,
    windowEnd categoryCol maxConstraint rest categories categoryCount itemCount j
    = (j + k)%nat
    /\ (k <= length rest)%nat
    /\ forall r, rest !! k = Some r ->
                 ~ withinConstraint categoryCol maxConstraint (seen ++ take k rest ++ [r]).
Proof.
  revert seen categories categoryCount itemCount j.
  induction rest as [|r rest IH];
    intros seen categories categoryCount itemCount j Hnd Hin Hcc Hic.
  - exists 0%nat. cbn [windowEnd length]. split_and!; [lia | lia | done].
  - cbn [windowEnd].
    set (categories' := if bool_decide (getProp r categoryCol ∈ categories)
                        then categories else categories ++ [getProp r categoryCol]).
    set (categoryCount' := if bool_decide (getProp r categoryCol ∈ categories)
                           then categoryCount else categoryCount + 1).
    assert (NoDup categories') as Hnd'.
    { unfold categories'. case_bool_decide; [done|].
      apply list.NoDup_app. split_and!; [done | | apply NoDup_singleton].
      intros v Hv Hv'. apply list_elem_of_singleton in Hv' as ->. done. }
    assert (forall v, v ∈ categories' <-> v ∈ map groupOf (seen ++ [r])) as Hin'.
    { intros v. rewrite map_app, elem_of_app. cbn [map].
      rewrite list_elem_of_singleton, <- Hin. unfold categories'.
      case_bool_decide as Hr.
      - split; [tauto | intros [?| ->]; done].
      - by rewrite elem_of_app, list_elem_of_singleton. }
    assert (categoryCount' = Z.of_nat (length categories')) as Hcc'.
    { unfold categoryCount', categories'. case_bool_decide; [done|].
      rewrite length_app. cbn [length]. lia. }
    assert (itemCount + 1 = Z.of_nat (length (seen ++ [r]))) as Hic'.
    { rewrite length_app. cbn [length]. lia. }
    replace (if bool_decide (getProp r categoryCol ∈ categories)
             then (categories, categoryCount)
             else (categories ++ [getProp r categoryCol], categoryCount + 1))
      with (categories', categoryCount')
      by (unfold categories', categoryCount'; by case_bool_decide).
    cbn iota.
    cbn [greaterThan].
    destruct (categoryCount' * 2 + (itemCount + 1) >? maxConstraint) eqn:Hgt.
    + exists 0%nat. split_and!; [lia | cbn [length]; lia |].
      intros r' [= <-]. cbn [take app]. unfold withinConstraint.
      rewrite <- (categories_distinctGroups categoryCol categories' (seen ++ [r]) Hnd' Hin').
      rewrite Z.gtb_ltb in Hgt. apply Z.ltb_lt in Hgt. lia.
    + destruct (IH (seen ++ [r]) categories' categoryCount' (itemCount + 1) (S j)
                  Hnd' Hin' Hcc' Hic') as (k & Hk & Hle & Hstop).
      exists (S k). rewrite Hk. cbn [length]. split_and!; [lia | lia |].
      intros r' Hr'. cbn in Hr'. specialize (Hstop r' Hr').
      cbn [take app]. by rewrite <- app_assoc in Hstop.
Qed.

(** The pages that the outer loop appends: each is a stretch of the array
    that starts where the one before ends, and the row after a page does
    not fit into that page. *)
Lemma pagesLoop_greedy (fuel : nat) (reorderedData : list row) (i : nat)
    (pages : list (list row)) :
  (i <= length reorderedData)%nat ->
  (length reorderedData - i <= fuel)%nat ->
  exists new : list (list row),
    pagesLoop fuel categoryCol maxConstraint reorderedData i pages = pages ++ new
    /\ (forall first r, new !! 0%nat = Some first -> head first = Some r ->
                        reorderedData !! i = Some r)
    /\ Forall (fun page => page <> []) new
    /\ forall n page next r,
         new !! n = Some page -> new !! S n = Some next -> head next = Some r ->
         ~ withinConstraint categoryCol maxConstraint (page ++ [r]).
Proof.
  revert i pages. induction fuel as [|fuel IH]; intros i pages Hi Hfuel.
  - exists []. cbn [pagesLoop]. rewrite app_nil_r. split_and!; done.
  - cbn [pagesLoop]. destruct (i <? length reorderedData)%nat eqn:Hlt.
    2: { exists []. rewrite app_nil_r. split_and!; done. }
    apply Nat.ltb_lt in Hlt.
    destruct (windowEnd_stop (drop i reorderedData) [] [] 0 0 i)
      as (k & Hk & Hle & Hstop); [apply NoDup_nil_2 | done | done | done |].
    rewrite length_drop in Hle. cbn [app] in Hstop. rewrite Hk.
    set (k' := if k is O then 1%nat else k).
    assert ((if (i + k =? i)%nat then (i + 1)%nat else (i + k)%nat) = (i + k')%nat) as ->.
    { unfold k'. destruct k; [by rewrite Nat.add_0_r, Nat.eqb_refl|].
      by rewrite (proj2 (Nat.eqb_neq _ _)) by lia. }
    assert (1 <= k' <= length reorderedData - i)%nat as Hk'
      by (unfold k'; destruct k; lia).
    destruct (IH (i + k')%nat (pages ++ [slice reorderedData i (i + k')]))
      as (new & Hnew & Hfirst & Hne & Hgreedy); [lia | lia |].
    exists (slice reorderedData i (i + k') :: new).
    rewrite Hnew, <- app_assoc. cbn [app]. unfold slice.
    replace (i + k' - i)%nat with k' by lia.
    set (page := take k' (drop i reorderedData)).
    assert (length page = k') as Hlen
      by (unfold page; rewrite length_take, length_drop; lia).
    assert (forall r, reorderedData !! (i + k')%nat = Some r ->
                      ~ withinConstraint categoryCol maxConstraint (page ++ [r])) as Hnext.
    { intros r Hr. unfold page, k'. destruct k as [|k].
      - destruct (drop i reorderedData) as [|x rest] eqn:Ed.
        { apply (f_equal length) in Ed. rewrite length_drop in Ed. cbn in Ed. lia. }
        cbn [take]. intros Hw. apply (Hstop x); [done|].
        cbn [take app]. by apply withinConstraint_prefix in Hw.
      - apply Hstop. by rewrite lookup_drop. }
    split_and!; [done | | |].
    + intros first r [= <-] Hr. unfold page in Hr.
      destruct (drop i reorderedData) as [|x rest] eqn:Ed.
      { apply (f_equal length) in Ed. rewrite length_drop in Ed. cbn in Ed. lia. }
      destruct k' as [|k'']; [lia|]. cbn in Hr. injection Hr as <-.
      rewrite <- (Nat.add_0_r i), <- lookup_drop, Ed. done.
    + constructor; [|exact Hne]. intros E. rewrite E in Hlen. cbn in Hlen. lia.
    + intros n pg next r Hpg Hnx Hr. destruct n as [|n].
      * cbn in Hpg, Hnx. injection Hpg as <-. apply Hnext. by eapply Hfirst.
      * cbn in Hpg, Hnx. by eapply Hgreedy.
Qed.

Lemma paginate_greedy (reorderedData : list row) (n : nat) (page next : list row) (r : row) :
  paginate categoryCol maxConstraint reorderedData !! n = Some page ->
  paginate categoryCol maxConstraint reorderedData !! S n = Some next ->
  head next = Some r ->
  ~ withinConstraint categoryCol maxConstraint (page ++ [r]).
Proof.
  unfold paginate.
  destruct (pagesLoop_greedy (length reorderedData) reorderedData 0 [])
    as (new & -> & _ & _ & Hgreedy); [lia | lia |].
  cbn [app]. apply Hgreedy.
Qed.
End Greedy.

(** X12: a page is closed only when it cannot take the next row: for two
    consecutive pages, the first together with the first row of the second
    exceeds the constraint. *)
Theorem splitIntoPagesByCategoryPriority_greedy
    (data : list row) (categoryCol : jsstring) (maxConstraint : Z)
    (n : nat) (page next : list row) (r : row) :
  splitIntoPagesByCategoryPriority data categoryCol maxConstraint !! n = Some page ->
  splitIntoPagesByCategoryPriority data categoryCol maxConstraint !! S n = Some next ->
  head next = Some r ->
  maxConstraint
  < 2 * Z.of_nat (distinctGroups categoryCol (page ++ [r]))
    + Z.of_nat (length (page ++ [r])).
Proof.
  unfold splitIntoPagesByCategoryPriority. intros Hp Hn Hr.
  pose proof (paginate_greedy categoryCol maxConstraint _ n page next r Hp Hn Hr) as H.
  unfold withinConstraint in H. lia.
Qed.

Lemma splitIntoPagesByCategoryPriority_greedy_witness :
  splitIntoPagesByCategoryPriority twoPairs reasonCol 6 !! 0%nat
  = Some [mkRow (JStr (u16 "A")); mkRow (JStr (u16 "A"))]
  /\ splitIntoPagesByCategoryPriority twoPairs reasonCol 6 !! 1%nat
     = Some [mkRow (JStr (u16 "B")); mkRow (JStr (u16 "B"))]
  /\ head [mkRow (JStr (u16 "B")); mkRow (JStr (u16 "B"))] = Some (mkRow (JStr (u16 "B")))
  /\ 6 < 2 * Z.of_nat (distinctGroups reasonCol
                         ([mkRow (JStr (u16 "A")); mkRow (JStr (u16 "A"))]
                            ++ [mkRow (JStr (u16 "B"))]))
         + Z.of_nat (length ([mkRow (JStr (u16 "A")); mkRow (JStr (u16 "A"))]
                               ++ [mkRow (JStr (u16 "B"))])).
Proof.
  split_and!; [reflexivity | reflexivity | reflexivity |].
  exact (splitIntoPagesByCategoryPriority_greedy twoPairs reasonCol 6 0 _ _ _
           eq_refl eq_refl eq_refl).
Defined.

(** X13: no page is empty, so there are at most as many pages as input
    rows. *)
Theorem splitIntoPagesByCategoryPriority_no_empty_page
    (data : list row) (categoryCol : jsstring) (maxConstraint : jsnumber) :
  Forall (fun page => page <> [])
         (splitIntoPagesByCategoryPriority data categoryCol maxConstraint)
  /\ (length (splitIntoPagesByCategoryPriority data categoryCol maxConstraint)
      <= length data)%nat.
Proof.
  unfold splitIntoPagesByCategoryPriority.
  set (reorderedData := reorder data categoryCol _).
  destruct (paginate_concat categoryCol maxConstraint reorderedData) as (Hcat & Hne).
  split; [exact Hne|].
  assert (length reorderedData <= length data)%nat as Hlen.
  { unfold reorderedData. rewrite reorder_groupOrder.
    rewrite (bind_rowsOfCategory_kept categoryCol data). apply length_filter. }
  rewrite <- Hcat in Hlen. revert Hlen Hne. clear.
  generalize (paginate categoryCol maxConstraint reorderedData). intros pages Hlen Hne.
  assert (length pages <= length (concat pages))%nat; [|lia].
  clear Hlen. induction Hne as [|page pages Hp _ IH]; [done|].
  cbn [concat length]. rewrite length_app. destruct page; [done|]. cbn [length]. lia.
Qed.

(** ** Budgets at the edges *)

(** X14: a row alone costs 3 (one group and one row), so under a budget
    below 3 every page consists of exactly one row. *)
Theorem splitIntoPagesByCategoryPriority_small_budget
    (data : list row) (categoryCol : jsstring) (maxConstraint : Z) :
  maxConstraint < 3 ->
  Forall (fun page => length page = 1%nat)
         (splitIntoPagesByCategoryPriority data categoryCol maxConstraint).
Proof.
  intros Hm. unfold splitIntoPagesByCategoryPriority.
  set (reorderedData := reorder data categoryCol _).
  destruct (paginate_spec categoryCol maxConstraint reorderedData) as (_ & Hok & Hne).
  revert Hok Hne. generalize (paginate categoryCol maxConstraint reorderedData).
  intros pages Hok Hne. induction Hok as [|page pages Hp _ IH]; [done|].
  apply Forall_cons in Hne as [Hpage Hne]. constructor; [|by apply IH].
  destruct Hp as [Hw|Hone]; [|exact Hone]. exfalso. unfold withinConstraint in Hw.
  pose proof (distinctGroups_pos categoryCol page Hpage).
  destruct page; [done|]. cbn [length] in Hw. lia.
Qed.

Lemma splitIntoPagesByCategoryPriority_small_budget_witness :
  2 < 3
  /\ Forall (fun page => length page = 1%nat)
            (splitIntoPagesByCategoryPriority twoPairs reasonCol 2).
Proof.
  split; [lia|]. apply (splitIntoPagesByCategoryPriority_small_budget twoPairs reasonCol 2).
  lia.
Defined.

(** X15: a dataset that is itself within the constraint is not split: it
    gives one page at most. *)
Theorem splitIntoPagesByCategoryPriority_fits_one_page
    (data : list row) (categoryCol : jsstring) (maxConstraint : Z) :
  2 * Z.of_nat (distinctGroups categoryCol data) + Z.of_nat (length data) <= maxConstraint ->
  (length (splitIntoPagesByCategoryPriority data categoryCol maxConstraint) <= 1)%nat.
Proof.
  intros Hfit. unfold splitIntoPagesByCategoryPriority.
  set (reorderedData := reorder data categoryCol _).
  destruct (paginate_spec categoryCol maxConstraint reorderedData) as (Hcat & _ & Hne).
  pose proof (paginate_greedy categoryCol maxConstraint reorderedData 0) as Hgreedy.
  assert (reorderedData ≡ₚ filter (fun r => groupable categoryCol r) data) as Hkept
    by (unfold reorderedData; rewrite reorder_groupOrder; apply bind_rowsOfCategory_kept).
  revert Hcat Hne Hgreedy. generalize (paginate categoryCol maxConstraint reorderedData).
  intros [|page [|next pages]] Hcat Hne Hgreedy; [cbn; lia | cbn; lia |].
  exfalso. apply Forall_cons in Hne as [_ [Hnext _]%Forall_cons].
  destruct next as [|r next]; [done|].
  apply (Hgreedy page (r :: next) r); [done | done | done |].
  apply (withinConstraint_mono categoryCol maxConstraint data); [| |exact Hfit].
  - intros x Hx. assert (x ∈ reorderedData) as Hin.
    { rewrite <- Hcat. cbn [concat]. rewrite !elem_of_app.
      apply elem_of_app in Hx as [?|Hx]; [by left|].
      apply list_elem_of_singleton in Hx as ->. right. left. by left. }
    rewrite Hkept in Hin. by apply list_elem_of_filter in Hin as [_ ?].
  - assert (length (page ++ [r]) <= length reorderedData)%nat as Hlen.
    { rewrite <- Hcat. cbn [concat]. rewrite !length_app. cbn [length]. lia. }
    rewrite Hkept in Hlen. pose proof (length_filter (fun r => groupable categoryCol r) data).
    lia.
Qed.

Lemma splitIntoPagesByCategoryPriority_fits_one_page_witness :
  2 * Z.of_nat (distinctGroups reasonCol twoPairs) + Z.of_nat (length twoPairs) <= 33
  /\ (length (splitIntoPagesByCategoryPriority twoPairs reasonCol 33) <= 1)%nat.
Proof.
  assert (2 * Z.of_nat (distinctGroups reasonCol twoPairs) + Z.of_nat (length twoPairs)
          <= 33) as H by (vm_compute; discriminate).
  split; [exact H|].
  exact (splitIntoPagesByCategoryPriority_fits_one_page twoPairs reasonCol 33 H).
Defined.

(** ** What the stats aggregator lists *)

(** X16: the result of getCategoryStats lists each string form of a reason
    of the input once, except "__proto__", and lists nothing else. *)
Theorem getCategoryStats_categories (data : list row) :
  NoDup (category <$> getCategoryStats data)
  /\ forall k, k ∈ category <$> getCategoryStats data
               <-> k ∈ keyOf reasonCol <$> data /\ k <> protoKey.
Proof.
  rewrite getCategoryStats_eq, <- list_fmap_compose.
  set (o := countCategories reasonCol data []).
  assert ((category ∘ (fun e : jsstring * countval => {| category := e.1; count := e.2 |}))
            <$> arraySort byCountDescending (entries o) ≡ₚ o.*1) as Hp.
  { change (fst <$> arraySort byCountDescending (entries o) ≡ₚ o.*1).
    by rewrite arraySort_perm, entries_perm. }
  split.
  - rewrite Hp. apply counted_NoDup.
  - intros k. rewrite Hp. apply counted_key.
Qed.

(** ** What processReasonCategoryField changes *)

Lemma getProp_setProp_ne (r : row) (k k' : jsstring) (v : jsval) :
  k <> k' -> getProp (setProp r k v) k' = getProp r k'.
Proof.
  intros Hne. induction r as [|[k0 v0] r IH]; cbn [setProp getProp].
  - by rewrite bool_decide_eq_false_2.
  - destruct (bool_decide (k0 = k)) eqn:E; cbn [getProp]; [|by rewrite IH].
    apply bool_decide_eq_true_1 in E as ->. by rewrite bool_decide_eq_false_2.
Qed.

(** X17: processReasonCategoryField changes the category field only: in
    every row it returns, each other field reads as in the input row, and
    the category field is a string of width at most 36 that does not end
    with a plus sign. *)
Theorem processReasonCategoryField_fields (data : list row) :
  Forall2 (fun row newRow =>
             (forall k, k <> reasonCategoryCol -> getProp newRow k = getProp row k)
             /\ exists trimmed : jsstring,
                  getProp newRow reasonCategoryCol = JStr trimmed
                  /\ calculateChineseLength (JStr trimmed) <= 36
                  /\ list.last trimmed <> Some plus)
          data (processReasonCategoryField data).
Proof.
  unfold processReasonCategoryField.
  induction data as [|r data IH]; cbn [map]; constructor; [|exact IH].
  split.
  - intros k Hk. by apply getProp_setProp_ne.
  - eexists. split; [apply getProp_setProp|]. split.
    + apply trimReasonCategoryField_width. unfold defaultMaxLength. lia.
    + pose proof (trimReasonCategoryField_endsWith
                    (normalizeReasonCategory (getProp r reasonCategoryCol))
                    defaultMaxLength) as He.
      unfold endsWith in He. intros E. rewrite E in He. by rewrite N.eqb_refl in He.
Qed.

(** ** The header normalizer *)

Lemma isDateSuffix_length (d : jsstring) : isDateSuffix d = true -> length d = 10%nat.
Proof.
  do 10 (destruct d as [|? d]; [done|]). destruct d; [done | done].
Qed.

(** X18: cleaning a column name removes, at most, a date of the form
    dddd.dd.dd that ends it: the result is the name as it is, or the name
    without a last part of that form; a name that ends with a character
    other than a digit is left as it is; and a date appended to any name
    is taken off again. *)
Theorem stripDateSuffix_removes_trailing_date (col : jsstring) :
  (stripDateSuffix col = col
   \/ exists d, col = stripDateSuffix col ++ d /\ isDateSuffix d = true)
  /\ (forall c, list.last col = Some c -> isDigit c = false -> stripDateSuffix col = col)
  /\ (forall d, isDateSuffix d = true -> stripDateSuffix (col ++ d) = col).
Proof.
  split_and!.
  - unfold stripDateSuffix. destruct (isDateSuffix _) eqn:E; [|by left].
    right. eexists. split; [|exact E]. by rewrite take_drop.
  - intros c Hlast Hc. unfold stripDateSuffix.
    destruct (isDateSuffix _) eqn:E; [|done]. exfalso.
    pose proof (isDateSuffix_length _ E) as Hlen.
    assert (list.last (drop (length col - 10) col) = Some c) as Hl.
    { rewrite <- (take_drop (length col - 10) col) in Hlast.
      rewrite last_app in Hlast. destruct (list.last (drop _ col)) eqn:El; [done|].
      apply last_None in El. rewrite El in Hlen. done. }
    revert E Hl. generalize (drop (length col - 10) col). intros d E Hl.
    do 10 (destruct d as [|? d]; [done|]). destruct d; [|done].
    cbn in Hl. injection Hl as ->. cbn [isDateSuffix] in E.
    rewrite Hc in E. by rewrite !andb_false_r in E.
  - intros d Hd. pose proof (isDateSuffix_length d Hd) as Hlen.
    unfold stripDateSuffix. rewrite length_app, Hlen, Nat.add_sub.
    by rewrite drop_app_length, take_app_length, Hd.
Qed.

Lemma getHeader_setHeader (h : headerMap) (k k' v : jsstring) :
  getHeader (setHeader h k v) k' = if bool_decide (k = k') then Some v else getHeader h k'.
Proof.
  induction h as [|[k0 v0] h IH]; cbn [setHeader getHeader]; [done|].
  destruct (bool_decide (k0 = k)) eqn:E0; cbn [getHeader].
  - apply bool_decide_eq_true_1 in E0 as ->. by repeat case_bool_decide.
  - apply bool_decide_eq_false_1 in E0. rewrite IH. repeat case_bool_decide; congruence.
Qed.

(** The header map built from the keys of the first row sends each of
    them, except [__proto__], to its cleaned name. *)
Lemma getHeader_built (cols : list jsstring) (h : headerMap) (k : jsstring) :
  k ∈ cols -> k <> protoKey ->
  getHeader (fold_left (fun newHeaders col =>
                          assignHeader newHeaders col (stripDateSuffix col)) cols h) k
  = Some (stripDateSuffix k).
Proof.
  intros Hin Hk.
  assert (forall cols h, k ∉ cols ->
            getHeader (fold_left (fun newHeaders col =>
                                    assignHeader newHeaders col (stripDateSuffix col)) cols h) k
            = getHeader h k) as Hkeep.
  { clear. intros cols. induction cols as [|c cols IH]; intros h Hc; [done|].
    apply not_elem_of_cons in Hc as [Hne Hc]. cbn [fold_left]. rewrite (IH _ Hc).
    unfold assignHeader. case_bool_decide; [done|].
    rewrite getHeader_setHeader. by rewrite bool_decide_eq_false_2 by done. }
  revert h. induction cols as [|c cols IH]; intros h; [by apply elem_of_nil in Hin|].
  cbn [fold_left]. destruct (decide (k ∈ cols)) as [Hk'|Hk']; [by apply IH|].
  apply elem_of_cons in Hin as [->|?]; [|done].
  rewrite (Hkeep _ _ Hk'). unfold assignHeader.
  rewrite bool_decide_eq_false_2 by done.
  by rewrite getHeader_setHeader, bool_decide_eq_true_2.
Qed.

Lemma getProp_insertIndexed (r : row) (k k' : jsstring) (n : Z) (v : jsval) :
  k ∉ map fst r ->
  getProp (insertIndexed r k n v) k' = if bool_decide (k = k') then v else getProp r k'.
Proof.
  induction r as [|[k0 v0] r IH]; intros Hk; cbn [insertIndexed getProp]; [done|].
  cbn [map fst] in Hk. apply not_elem_of_cons in Hk as [Hne Hk].
  destruct (arrayIndex k0) as [n'|]; [destruct (n <? n')|]; cbn [getProp]; try done.
  rewrite (IH Hk). repeat case_bool_decide; congruence.
Qed.

Lemma keys_insertIndexed (r : row) (k k' : jsstring) (n : Z) (v : jsval) :
  k' ∈ map fst (insertIndexed r k n v) <-> k' = k \/ k' ∈ map fst r.
Proof.
  induction r as [|[k0 v0] r IH]; cbn [insertIndexed map fst].
  - rewrite list_elem_of_singleton, elem_of_nil. tauto.
  - destruct (arrayIndex k0) as [n'|]; [destruct (n <? n')|]; cbn [map fst];
      rewrite ?elem_of_cons, ?IH, ?elem_of_cons; cbn [fst]; tauto.
Qed.

Lemma keys_setProp (r : row) (k k' : jsstring) (v : jsval) :
  k' ∈ map fst (setProp r k v) <-> k' = k \/ k' ∈ map fst r.
Proof.
  induction r as [|[k0 v0] r IH]; cbn [setProp map fst].
  - rewrite list_elem_of_singleton, elem_of_nil. tauto.
  - case_bool_decide as E; cbn [map fst]; rewrite !elem_of_cons, ?IH; [|tauto].
    subst. tauto.
Qed.

Lemma getProp_defineProp (r : row) (k k' : jsstring) (v : jsval) :
  getProp (defineProp r k v) k' = if bool_decide (k = k') then v else getProp r k'.
Proof.
  assert (getProp (setProp r k v) k' = if bool_decide (k = k') then v else getProp r k')
    as Hset.
  { case_bool_decide as E; [subst; apply getProp_setProp | by apply getProp_setProp_ne]. }
  unfold defineProp. destruct (arrayIndex k); [|exact Hset].
  destruct (decide (k ∈ map fst r)) as [Hin|Hin].
  - by rewrite (bool_decide_eq_true_2 _ Hin).
  - rewrite (bool_decide_eq_false_2 _ Hin). by apply getProp_insertIndexed.
Qed.

Lemma keys_defineProp (r : row) (k k' : jsstring) (v : jsval) :
  k' ∈ map fst (defineProp r k v) <-> k' = k \/ k' ∈ map fst r.
Proof.
  unfold defineProp. destruct (arrayIndex k); [|apply keys_setProp].
  destruct (bool_decide (k ∈ map fst r)); [apply keys_setProp | apply keys_insertIndexed].
Qed.

Section CleanRow.
Context (newHeaders : headerMap) (source : row).

Local Abbreviation cleanStep :=
  (fun (newRow : bool * row) (oldKey : jsstring) =>
     assignProp newRow (headerKey newHeaders oldKey) (getProp source oldKey)).

Lemma cleanStep_other (obj : bool * row) (oldKey name : jsstring) :
  headerKey newHeaders oldKey <> name ->
  getProp (cleanStep obj oldKey).2 name = getProp obj.2 name.
Proof.
  intros Hne. destruct obj as [nullProto props]. cbn [assignProp snd].
  destruct (_ && _); cbn [snd]; [done|].
  by rewrite getProp_defineProp, bool_decide_eq_false_2.
Qed.

Lemma cleanStep_same (obj : bool * row) (oldKey : jsstring) :
  headerKey newHeaders oldKey <> protoKey ->
  getProp (cleanStep obj oldKey).2 (headerKey newHeaders oldKey) = getProp source oldKey
  /\ headerKey newHeaders oldKey ∈ map fst (cleanStep obj oldKey).2.
Proof.
  intros Hne. destruct obj as [nullProto props]. cbn [assignProp snd].
  rewrite (bool_decide_eq_false_2 _ Hne). cbn [andb snd].
  rewrite getProp_defineProp, bool_decide_eq_true_2 by done.
  split; [done|]. apply keys_defineProp. by left.
Qed.

Lemma cleanStep_keeps_key (obj : bool * row) (oldKey name : jsstring) :
  name ∈ map fst obj.2 -> name ∈ map fst (cleanStep obj oldKey).2.
Proof.
  intros Hin. destruct obj as [nullProto props]. cbn [assignProp snd] in *.
  destruct (_ && _); cbn [snd]; [done|]. apply keys_defineProp. by right.
Qed.

Lemma cleanFold_other (keys : list jsstring) (obj : bool * row) (name : jsstring) :
  (forall k, k ∈ keys -> headerKey newHeaders k <> name) ->
  getProp (fold_left cleanStep keys obj).2 name = getProp obj.2 name.
Proof.
  revert obj. induction keys as [|k keys IH]; intros obj Hkeys; [done|].
  cbn [fold_left]. rewrite IH by (intros k' Hk'; apply Hkeys; by right).
  apply cleanStep_other, Hkeys. by left.
Qed.

Lemma cleanFold_keeps_key (keys : list jsstring) (obj : bool * row) (name : jsstring) :
  name ∈ map fst obj.2 -> name ∈ map fst (fold_left cleanStep keys obj).2.
Proof.
  revert obj. induction keys as [|k keys IH]; intros obj Hin; [done|].
  cbn [fold_left]. by apply IH, cleanStep_keeps_key.
Qed.

(** The value that the new row holds under a cleaned name is the value of
    the last key of the source that is cleaned to that name. *)
Lemma cleanFold_last (pre post : list jsstring) (k : jsstring) (obj : bool * row) :
  headerKey newHeaders k <> protoKey ->
  (forall k', k' ∈ post -> headerKey newHeaders k' <> headerKey newHeaders k) ->
  getProp (fold_left cleanStep (pre ++ k :: post) obj).2 (headerKey newHeaders k)
  = getProp source k
  /\ headerKey newHeaders k ∈ map fst (fold_left cleanStep (pre ++ k :: post) obj).2.
Proof.
  intros Hk Hpost. rewrite fold_left_app. cbn [fold_left].
  destruct (cleanStep_same (fold_left cleanStep pre obj) k Hk) as [Hv Hin].
  split; [by rewrite cleanFold_other | by apply cleanFold_keeps_key].
Qed.
End CleanRow.

(** X19: in a dataset whose keys are all keys of the first row, none of
    them "__proto__", the cleaned row holds under the cleaned name of a key
    the value that the row held under that key, provided the cleaned name
    is not "__proto__" either (a key that is "__proto__" followed by a
    date is a key of the row, but its cleaned name is not) and no later key
    of the row is cleaned to the same name (of two keys with one cleaned
    name the later one wins). Rows keep their positions. *)
Theorem cleanDateFields_lookup
    (firstRow : row) (rest : list row) (i : nat) (source : row)
    (pre post : list jsstring) (k : jsstring) :
  (firstRow :: rest) !! i = Some source ->
  map fst source = pre ++ k :: post ->
  (forall k', k' ∈ map fst source -> k' ∈ map fst firstRow /\ k' <> protoKey) ->
  (forall k', k' ∈ post -> stripDateSuffix k' <> stripDateSuffix k) ->
  stripDateSuffix k <> protoKey ->
  exists cleaned,
    cleanDateFields (firstRow :: rest) !! i = Some cleaned
    /\ stripDateSuffix k ∈ map fst cleaned
    /\ getProp cleaned (stripDateSuffix k) = getProp source k.
Proof.
  intros Hi Hkeys Hfirst Hpost Hk. cbn [cleanDateFields].
  set (newHeaders := fold_left _ (map fst firstRow) []).
  assert (forall k', k' ∈ map fst source ->
            headerKey newHeaders k' = stripDateSuffix k') as Hhk.
  { intros k' [Hin Hne]%Hfirst. unfold headerKey, newHeaders.
    by rewrite (getHeader_built _ _ _ Hin Hne). }
  assert (k ∈ map fst source) as Hkin
    by (rewrite Hkeys; apply elem_of_app; right; by left).
  exists (cleanRow newHeaders source). split.
  - change (map (cleanRow newHeaders) (firstRow :: rest))
      with (cleanRow newHeaders <$> firstRow :: rest).
    by rewrite list_lookup_fmap, Hi.
  - unfold cleanRow. rewrite Hkeys, <- (Hhk k Hkin).
    destruct (cleanFold_last newHeaders source pre post k (false, [])) as [Hv Hin];
      [by rewrite Hhk | | done].
    intros k' Hk'. rewrite !Hhk; [by apply Hpost | done |].
    rewrite Hkeys. apply elem_of_app. right. by right.
Qed.

Lemma cleanDateFields_lookup_witness :
  [collidingRow] !! 0%nat = Some collidingRow
  /\ map fst collidingRow = [u16 "price2024.03.14"] ++ u16 "price2024.03.15" :: []
  /\ (forall k', k' ∈ map fst collidingRow ->
                 k' ∈ map fst collidingRow /\ k' <> protoKey)
  /\ (forall k', k' ∈ [] -> stripDateSuffix k' <> stripDateSuffix (u16 "price2024.03.15"))
  /\ stripDateSuffix (u16 "price2024.03.15") <> protoKey
  /\ exists cleaned,
       cleanDateFields [collidingRow] !! 0%nat = Some cleaned
       /\ stripDateSuffix (u16 "price2024.03.15") ∈ map fst cleaned
       /\ getProp cleaned (stripDateSuffix (u16 "price2024.03.15"))
          = getProp collidingRow (u16 "price2024.03.15").
Proof.
  assert (forall k', k' ∈ map fst collidingRow ->
                     k' ∈ map fst collidingRow /\ k' <> protoKey) as H1.
  { intros k' Hk'. split; [done|]. intros ->. revert Hk'.
    apply (bool_decide_unpack _). vm_compute. exact I. }
  assert (forall k' : jsstring, k' ∈ [] ->
            stripDateSuffix k' <> stripDateSuffix (u16 "price2024.03.15")) as H2
    by (intros k' Hk'; by apply elem_of_nil in Hk').
  assert (stripDateSuffix (u16 "price2024.03.15") <> protoKey) as H3
    by (vm_compute; discriminate).
  split_and!; [reflexivity | reflexivity | exact H1 | exact H2 | exact H3 |].
  exact (cleanDateFields_lookup collidingRow [] 0 collidingRow
           [u16 "price2024.03.14"] [] (u16 "price2024.03.15") eq_refl eq_refl H1 H2 H3).
Defined.

(** A header that is "__proto__" followed by a date is cleaned to
    "__proto__", and the assignment to that name creates no property: the
    column is lost, and findColumn does not find it. *)
Example cleanDateFields_proto_header :
  cleanDateFields [[(protoKey ++ u16 "2024.03.15", JNum 1)]] = [[]]
  /\ findColumn (cleanDateFields [[(protoKey ++ u16 "2024.03.15", JNum 1)]]) protoKey
     = None.
Proof. split; reflexivity. Qed.

(** The cleaned name of a key of the first row is a key of the cleaned
    first row. *)
Lemma cleanDateFields_first_key (firstRow : row) (rest : list row) (k : jsstring) :
  k ∈ map fst firstRow -> k <> protoKey -> stripDateSuffix k <> protoKey ->
  match cleanDateFields (firstRow :: rest) with
  | cleanedFirst :: _ => stripDateSuffix k ∈ map fst cleanedFirst
  | [] => False
  end.
Proof.
  intros Hin Hk Hname. cbn [cleanDateFields map].
  set (newHeaders := fold_left _ (map fst firstRow) []).
  assert (headerKey newHeaders k = stripDateSuffix k) as Hhk.
  { unfold headerKey, newHeaders. by rewrite (getHeader_built _ _ _ Hin Hk). }
  apply list_elem_of_split in Hin as (pre & post & Hkeys).
  unfold cleanRow. rewrite Hkeys, fold_left_app. cbn [fold_left].
  apply cleanFold_keeps_key. rewrite <- Hhk.
  apply (cleanStep_same newHeaders firstRow). by rewrite Hhk.
Qed.

Lemma findColumn_cleaned (firstRow : row) (rest : list row) (k columnName : jsstring) :
  k ∈ map fst firstRow -> k <> protoKey ->
  stripDateSuffix k = columnName -> columnName <> protoKey ->
  findColumn (cleanDateFields (firstRow :: rest)) columnName = Some columnName.
Proof.
  intros Hin Hk <- Hname.
  pose proof (cleanDateFields_first_key firstRow rest k Hin Hk Hname) as H.
  destruct (cleanDateFields (firstRow :: rest)) as [|cleanedFirst cleanedRest]; [done|].
  cbn [findColumn]. by rewrite bool_decide_eq_true_2.
Qed.

(** X20: for a target name other than "__proto__", a key of the first
    row, other than "__proto__", that is cleaned to the target name lets
    findColumn resolve the target on the cleaned dataset by its exact
    name. *)
Theorem cleanDateFields_findColumn
    (firstRow : row) (rest : list row) (k columnName : jsstring) :
  k ∈ map fst firstRow -> k <> protoKey ->
  stripDateSuffix k = columnName -> columnName <> protoKey ->
  findColumn (cleanDateFields (firstRow :: rest)) columnName = Some columnName.
Proof.
  intros Hin Hk <- Hname.
  pose proof (cleanDateFields_first_key firstRow rest k Hin Hk Hname) as H.
  destruct (cleanDateFields (firstRow :: rest)) as [|cleanedFirst cleanedRest]; [done|].
  cbn [findColumn]. by rewrite bool_decide_eq_true_2.
Qed.

Lemma cleanDateFields_findColumn_witness :
  (reasonCol ++ u16 "2024.03.15" ∈ map fst [(u16 "code", JStr (u16 "600000"));
                                            (reasonCol ++ u16 "2024.03.15", JStr (u16 "AI"));
                                            (u16 "price2024.03.15", JNum 12)])
  /\ reasonCol ++ u16 "2024.03.15" <> protoKey
  /\ stripDateSuffix (reasonCol ++ u16 "2024.03.15") = reasonCol
  /\ reasonCol <> protoKey
  /\ findColumn (cleanDateFields datedSheet) reasonCol = Some reasonCol.
Proof.
  assert (reasonCol ++ u16 "2024.03.15"
          ∈ map fst [(u16 "code", JStr (u16 "600000"));
                     (reasonCol ++ u16 "2024.03.15", JStr (u16 "AI"));
                     (u16 "price2024.03.15", JNum 12)]) as H1
    by (apply (bool_decide_unpack _); vm_compute; exact I).
  assert (reasonCol ++ u16 "2024.03.15" <> protoKey) as H2 by discriminate.
  assert (stripDateSuffix (reasonCol ++ u16 "2024.03.15") = reasonCol) as H3
    by reflexivity.
  assert (reasonCol <> protoKey) as H4 by discriminate.
  split_and!; [exact H1 | exact H2 | exact H3 | exact H4 |].
  exact (cleanDateFields_findColumn _ [] _ reasonCol H1 H2 H3 H4).
Defined.

(** ** The column renaming of the handler *)

Lemma filter_all {A : Type} (P : A -> Prop) `{forall x, Decision (P x)} (l : list A) :
  Forall P l -> filter P l = l.
Proof.
  induction 1 as [|x l Hx _ IH]; [done|]. by rewrite filter_cons_True, IH.
Qed.

Lemma filter_ext_elem_of {A : Type} (P Q : A -> Prop) `{forall x, Decision (P x)}
    `{forall x, Decision (Q x)} (l : list A) :
  (forall x, x ∈ l -> P x <-> Q x) -> filter P l = filter Q l.
Proof.
  induction l as [|x l IH]; intros Hl; [done|].
  rewrite !filter_cons, IH by (intros y Hy; apply Hl; by right).
  destruct (decide (P x)) as [HP|HP], (decide (Q x)) as [HQ|HQ]; try done;
    exfalso; apply (Hl x) in HP || apply (Hl x) in HQ; try done; by left.
Qed.

Lemma setProp_fresh (r : row) (k : jsstring) (v : jsval) :
  k ∉ map fst r -> setProp r k v = r ++ [(k, v)].
Proof.
  induction r as [|[k0 v0] r IH]; cbn [setProp map fst app]; [done|].
  intros [Hne Hk]%not_elem_of_cons. rewrite bool_decide_eq_false_2 by done.
  by rewrite IH.
Qed.

(** The loop over the keys deletes exactly the properties whose key
    contains the disclosure name. *)
Lemma dropDisclosure_eq (r : row) :
  dropDisclosure r = filter (fun e => includes e.1 reasonDisclosure = false) r.
Proof.
  unfold dropDisclosure.
  assert (forall (keys : list jsstring) (r : row),
            fold_left (fun newRow key =>
                         if includes key reasonDisclosure then deleteProp newRow key
                         else newRow) keys r
            = filter (fun e => ~ (e.1 ∈ keys /\ includes e.1 reasonDisclosure = true)) r)
    as Hfold.
  { clear. intros keys. induction keys as [|k keys IH]; intros r; cbn [fold_left].
    - symmetry. apply filter_all, Forall_forall. intros e _ [H _]. by apply elem_of_nil in H.
    - rewrite IH. destruct (includes k reasonDisclosure) eqn:E.
      + unfold deleteProp. rewrite list_filter_filter. apply list_filter_iff.
        intros e. rewrite elem_of_cons. split.
        * tauto.
        * intros H1. split; [tauto|]. intros Heq. apply H1. rewrite Heq. tauto.
      + apply list_filter_iff. intros e. rewrite elem_of_cons. split.
        * intros H1 [[Heq|H3] H4]; [rewrite Heq in H4; congruence | tauto].
        * tauto. }
  rewrite Hfold. apply filter_ext_elem_of. intros e He. split.
  - intros H1. destruct (includes e.1 reasonDisclosure) eqn:E; [|done].
    exfalso. apply H1. split; [|done]. change (e.1 ∈ fst <$> r).
    apply list_elem_of_fmap. by exists e.
  - intros H1 [_ H2]. congruence.
Qed.

Lemma getProp_deleteProp (r : row) (k k' : jsstring) :
  getProp (deleteProp r k) k' = if bool_decide (k' = k) then JUndefined else getProp r k'.
Proof.
  unfold deleteProp. induction r as [|[k0 v0] r IH]; [by case_bool_decide|].
  rewrite filter_cons. cbn [fst]. destruct (decide (k0 <> k)) as [H0|H0]; cbn [getProp].
  - rewrite IH. repeat case_bool_decide; congruence.
  - rewrite IH. apply dec_stable in H0. repeat case_bool_decide; congruence.
Qed.

Lemma keys_deleteProp (r : row) (k k' : jsstring) :
  k' ∈ map fst (deleteProp r k) <-> k' ∈ map fst r /\ k' <> k.
Proof.
  unfold deleteProp. induction r as [|[k0 v0] r IH].
  - cbn. rewrite elem_of_nil. tauto.
  - rewrite filter_cons. cbn [fst map]. destruct (decide (k0 <> k)) as [H0|H0];
      cbn [map fst]; rewrite ?elem_of_cons, IH; [intuition congruence|].
    apply dec_stable in H0. intuition congruence.
Qed.

Lemma getProp_dropDisclosure (r : row) (k : jsstring) :
  getProp (dropDisclosure r) k
  = if includes k reasonDisclosure then JUndefined else getProp r k.
Proof.
  rewrite dropDisclosure_eq. induction r as [|[k0 v0] r IH]; [by destruct (includes _ _)|].
  rewrite filter_cons. cbn [fst].
  destruct (decide (includes k0 reasonDisclosure = false)) as [H0|H0]; cbn [getProp];
    rewrite IH; case_bool_decide as E; try done; subst.
  - by rewrite H0.
  - by destruct (includes k reasonDisclosure).
Qed.

Lemma keys_dropDisclosure (r : row) (k : jsstring) :
  k ∈ map fst (dropDisclosure r) <-> k ∈ map fst r /\ includes k reasonDisclosure = false.
Proof.
  rewrite dropDisclosure_eq. induction r as [|[k0 v0] r IH].
  - cbn. rewrite elem_of_nil. tauto.
  - rewrite filter_cons. cbn [fst map].
    destruct (decide (includes k0 reasonDisclosure = false)) as [H0|H0];
      cbn [map fst]; rewrite ?elem_of_cons, IH; intuition congruence.
Qed.

Lemma getProp_setProp_if (r : row) (k k' : jsstring) (v : jsval) :
  getProp (setProp r k v) k' = if bool_decide (k = k') then v else getProp r k'.
Proof.
  case_bool_decide as E; [subst; apply getProp_setProp | by apply getProp_setProp_ne].
Qed.

Section RenameRow.
Context (finalLimitTimeCol continuousLimitDaysCol limitReasonCol limitReasonCategoryCol
         : jsstring) (r : row).

Local Abbreviation renamed :=
  (renameRow finalLimitTimeCol continuousLimitDaysCol limitReasonCol
             limitReasonCategoryCol r).

Lemma renameRow_canonical :
  getProp renamed finalLimitTime = getProp r finalLimitTimeCol
  /\ getProp renamed continuousLimitDays = getProp r continuousLimitDaysCol
  /\ getProp renamed reasonCol = getProp r limitReasonCol
  /\ getProp renamed reasonCategoryCol = getProp r limitReasonCategoryCol.
Proof.
  unfold renameRow. split_and!.
  - rewrite getProp_dropDisclosure. change (includes finalLimitTime _) with false.
    cbv iota. rewrite !getProp_setProp_ne by discriminate. apply getProp_setProp.
  - rewrite getProp_dropDisclosure. change (includes continuousLimitDays _) with false.
    cbv iota. rewrite !getProp_setProp_ne by discriminate. apply getProp_setProp.
  - rewrite getProp_dropDisclosure. change (includes reasonCol _) with false.
    cbv iota. rewrite !getProp_setProp_ne by discriminate. apply getProp_setProp.
  - rewrite getProp_dropDisclosure. change (includes reasonCategoryCol _) with false.
    cbv iota. apply getProp_setProp.
Qed.

Lemma renameRow_no_disclosure (k : jsstring) :
  k ∈ map fst renamed -> includes k reasonDisclosure = false.
Proof. unfold renameRow. rewrite keys_dropDisclosure. tauto. Qed.
End RenameRow.

(** X21: a renamed row holds under each of the four canonical names the
    value that the cleaned row held under the resolved column, whatever the
    resolved names are; and every other field, unless its key is one of
    the resolved columns or contains the disclosure name, holds what it
    held before. *)
Theorem renameRow_fields
    (finalLimitTimeCol continuousLimitDaysCol limitReasonCol limitReasonCategoryCol : jsstring)
    (r : row) :
  let newRow := renameRow finalLimitTimeCol continuousLimitDaysCol limitReasonCol
                          limitReasonCategoryCol r in
  getProp newRow finalLimitTime = getProp r finalLimitTimeCol
  /\ getProp newRow continuousLimitDays = getProp r continuousLimitDaysCol
  /\ getProp newRow reasonCol = getProp r limitReasonCol
  /\ getProp newRow reasonCategoryCol = getProp r limitReasonCategoryCol
  /\ forall k,
       k ∉ [finalLimitTime; continuousLimitDays; reasonCol; reasonCategoryCol] ->
       k ∉ [finalLimitTimeCol; continuousLimitDaysCol; limitReasonCol;
            limitReasonCategoryCol] ->
       includes k reasonDisclosure = false ->
       getProp newRow k = getProp r k.
Proof.
  cbv zeta.
  destruct (renameRow_canonical finalLimitTimeCol continuousLimitDaysCol limitReasonCol
              limitReasonCategoryCol r) as (H1 & H2 & H3 & H4).
  split_and!; [exact H1 | exact H2 | exact H3 | exact H4 |].
  intros k Hcanon Hres Hk. unfold renameRow. rewrite getProp_dropDisclosure, Hk.
  rewrite !not_elem_of_cons in Hcanon, Hres.
  rewrite !getProp_setProp_ne by (intros <-; tauto).
  rewrite !getProp_deleteProp.
  rewrite !bool_decide_eq_false_2 by tauto. done.
Qed.

(** X22: the keys of a renamed row are the four canonical names together
    with the keys of the cleaned row that are none of the resolved columns
    and do not contain the disclosure name; so no key of a renamed row
    contains the disclosure name. *)
Theorem renameRow_keys
    (finalLimitTimeCol continuousLimitDaysCol limitReasonCol limitReasonCategoryCol : jsstring)
    (r : row) (k : jsstring) :
  (k ∈ map fst (renameRow finalLimitTimeCol continuousLimitDaysCol limitReasonCol
                          limitReasonCategoryCol r)
   <-> k ∈ [finalLimitTime; continuousLimitDays; reasonCol; reasonCategoryCol]
       \/ (k ∈ map fst r
           /\ (k ∉ [finalLimitTimeCol; continuousLimitDaysCol; limitReasonCol;
                    limitReasonCategoryCol])
           /\ includes k reasonDisclosure = false))
  /\ (k ∈ map fst (renameRow finalLimitTimeCol continuousLimitDaysCol limitReasonCol
                             limitReasonCategoryCol r)
      -> includes k reasonDisclosure = false).
Proof.
  unfold renameRow. rewrite keys_dropDisclosure, !keys_setProp, !keys_deleteProp.
  rewrite !elem_of_cons, !elem_of_nil.
  split; [|tauto]. split.
  - intros [H Hk]. tauto.
  - intros [[->|[->|[->|[->|[]]]]]|H]; [by split; [tauto|] .. | tauto].
Qed.

Lemma findColumn_exact (firstRow : row) (rest : list row) (columnName col : jsstring) :
  findColumn (firstRow :: rest) columnName = Some col ->
  columnName ∈ map fst firstRow -> col = columnName.
Proof.
  cbn [findColumn]. intros H Hin. rewrite (bool_decide_eq_true_2 _ Hin) in H. congruence.
Qed.

(** X23: in the row that resolved the columns, the renaming moves the four
    fields to the end: the result is the row without the resolved columns
    and without the disclosure columns, in the order it had, followed by
    the four canonical fields. *)
Theorem renameRow_layout
    (firstRow : row) (rest : list row)
    (finalLimitTimeCol continuousLimitDaysCol limitReasonCol limitReasonCategoryCol : jsstring) :
  findColumn (firstRow :: rest) finalLimitTime = Some finalLimitTimeCol ->
  findColumn (firstRow :: rest) continuousLimitDays = Some continuousLimitDaysCol ->
  findColumn (firstRow :: rest) reasonCol = Some limitReasonCol ->
  findColumn (firstRow :: rest) reasonCategoryCol = Some limitReasonCategoryCol ->
  renameRow finalLimitTimeCol continuousLimitDaysCol limitReasonCol limitReasonCategoryCol
            firstRow
  = filter (fun e => (e.1 ∉ [finalLimitTimeCol; continuousLimitDaysCol; limitReasonCol;
                             limitReasonCategoryCol])
                     /\ includes e.1 reasonDisclosure = false) firstRow
    ++ [(finalLimitTime, getProp firstRow finalLimitTimeCol);
        (continuousLimitDays, getProp firstRow continuousLimitDaysCol);
        (reasonCol, getProp firstRow limitReasonCol);
        (reasonCategoryCol, getProp firstRow limitReasonCategoryCol)].
Proof.
  intros Ha Hb Hc Hd. unfold renameRow.
  set (kept := deleteProp (deleteProp (deleteProp (deleteProp firstRow _) _) _) _).
  assert (forall name col, findColumn (firstRow :: rest) name = Some col ->
            col ∈ [finalLimitTimeCol; continuousLimitDaysCol; limitReasonCol;
                   limitReasonCategoryCol] ->
            name ∉ map fst kept) as Hfresh.
  { intros name col Hfind Hcol Hin. unfold kept in Hin.
    rewrite !keys_deleteProp in Hin. destruct Hin as [[[[Hin H1] H2] H3] H4].
    rewrite (findColumn_exact _ _ _ _ Hfind Hin) in Hcol.
    rewrite !elem_of_cons, elem_of_nil in Hcol. tauto. }
  assert (kept = filter (fun e => e.1 ∉ [finalLimitTimeCol; continuousLimitDaysCol;
                                         limitReasonCol; limitReasonCategoryCol]) firstRow)
    as Hkept.
  { unfold kept, deleteProp. rewrite !list_filter_filter. apply list_filter_iff.
    intros e. rewrite !not_elem_of_cons. pose proof (not_elem_of_nil e.1). tauto. }
  rewrite (setProp_fresh kept finalLimitTime)
    by (eapply Hfresh; [exact Ha | (rewrite !elem_of_cons; tauto)]).
  rewrite (setProp_fresh _ continuousLimitDays).
  2:{ rewrite map_app, elem_of_app. intros [H|H].
      - revert H. eapply Hfresh; [exact Hb | (rewrite !elem_of_cons; tauto)].
      - revert H. apply (bool_decide_unpack _). vm_compute. exact I. }
  rewrite (setProp_fresh _ reasonCol).
  2:{ rewrite !map_app, !elem_of_app. intros [[H|H]|H].
      - revert H. eapply Hfresh; [exact Hc | (rewrite !elem_of_cons; tauto)].
      - revert H. apply (bool_decide_unpack _). vm_compute. exact I.
      - revert H. apply (bool_decide_unpack _). vm_compute. exact I. }
  rewrite (setProp_fresh _ reasonCategoryCol).
  2:{ rewrite !map_app, !elem_of_app. intros [[[H|H]|H]|H].
      - revert H. eapply Hfresh; [exact Hd | (rewrite !elem_of_cons; tauto)].
      - revert H. apply (bool_decide_unpack _). vm_compute. exact I.
      - revert H. apply (bool_decide_unpack _). vm_compute. exact I.
      - revert H. apply (bool_decide_unpack _). vm_compute. exact I. }
  rewrite dropDisclosure_eq, !filter_app, Hkept, list_filter_filter, <- !app_assoc.
  f_equal. apply list_filter_iff. intros e. tauto.
Qed.

Lemma renameRow_layout_witness :
  findColumn [disclosedRow] finalLimitTime = Some finalLimitTime
  /\ findColumn [disclosedRow] continuousLimitDays = Some continuousLimitDays
  /\ findColumn [disclosedRow] reasonCol = Some (reasonCol ++ u16 " ")
  /\ findColumn [disclosedRow] reasonCategoryCol = Some reasonCategoryCol
  /\ renameRow finalLimitTime continuousLimitDays (reasonCol ++ u16 " ") reasonCategoryCol
               disclosedRow
     = filter (fun e => (e.1 ∉ [finalLimitTime; continuousLimitDays; reasonCol ++ u16 " ";
                                reasonCategoryCol])
                        /\ includes e.1 reasonDisclosure = false) disclosedRow
       ++ [(finalLimitTime, getProp disclosedRow finalLimitTime);
           (continuousLimitDays, getProp disclosedRow continuousLimitDays);
           (reasonCol, getProp disclosedRow (reasonCol ++ u16 " "));
           (reasonCategoryCol, getProp disclosedRow reasonCategoryCol)].
Proof.
  split_and!; [reflexivity | reflexivity | reflexivity | reflexivity |].
  exact (renameRow_layout disclosedRow [] _ _ _ _ eq_refl eq_refl eq_refl eq_refl).
Defined.

(** ** The sort of the rows *)

Section SortOrder.
Context {A : Type} (cmp : A -> A -> Z) (D : A -> Prop).
Context (cmp_total : forall x y, D x -> D y -> cmp x y <= 0 \/ cmp y x <= 0).
Context (cmp_trans : forall x y z, D x -> D y -> D z ->
                                   cmp x y <= 0 -> cmp y z <= 0 -> cmp x z <= 0).

(** On a set of elements that the comparator orders totally, the result
    is ordered. *)
Lemma insertSorted_ordered (x : A) (l : list A) :
  D x -> Forall D l ->
  (forall a b, occursBefore l a b -> cmp a b <= 0) ->
  forall a b, occursBefore (insertSorted cmp x l) a b -> cmp a b <= 0.
Proof.
  intros Hx Hl. induction Hl as [|y l Hy Hl IH]; intros Hord a b; cbn [insertSorted].
  - rewrite occursBefore_cons. intros [[_ H]|H]; [by apply elem_of_nil in H|].
    by apply occursBefore_nil in H.
  - assert (forall b, b ∈ l -> D b) as HD by (by apply Forall_forall).
    assert (forall b, b ∈ l -> cmp y b <= 0) as Hy'.
    { intros c Hc. apply Hord, occursBefore_cons. by left. }
    destruct (cmp x y <=? 0) eqn:E.
    + apply Z.leb_le in E. rewrite occursBefore_cons. intros [[<- Hb]|H]; [|by apply Hord].
      apply elem_of_cons in Hb as [->|Hb]; [done|].
      apply (cmp_trans x y b); auto.
    + apply Z.leb_gt in E. rewrite occursBefore_cons. intros [[<- Hb]|H].
      * rewrite insertSorted_perm in Hb. apply elem_of_cons in Hb as [->|Hb]; [|auto].
        destruct (cmp_total x y Hx Hy); [lia | done].
      * revert H. apply IH. intros c d Hcd. apply Hord, occursBefore_cons. by right.
Qed.

Lemma arraySort_ordered (l : list A) :
  Forall D l -> forall a b, occursBefore (arraySort cmp l) a b -> cmp a b <= 0.
Proof.
  intros Hl. induction Hl as [|x l Hx Hl IH]; cbn [arraySort].
  - intros a b H. by apply occursBefore_nil in H.
  - apply insertSorted_ordered; [done | by rewrite arraySort_perm | done].
Qed.

(** Elements that the comparator does not tell apart keep their order. *)
Context (P : A -> Prop) `{forall x, Decision (P x)}.
Context (cmp_tie : forall x y, D x -> D y -> P x -> P y -> cmp x y <= 0).

Lemma insertSorted_filter (x : A) (l : list A) :
  D x -> Forall D l -> filter P (insertSorted cmp x l) = filter P (x :: l).
Proof.
  intros Hx Hl. induction Hl as [|y l Hy Hl IH]; cbn [insertSorted]; [done|].
  destruct (cmp x y <=? 0) eqn:E; [done|]. apply Z.leb_gt in E.
  rewrite (filter_cons _ y), IH, !(filter_cons _ x), (filter_cons _ y).
  destruct (decide (P x)) as [Px|Px], (decide (P y)) as [Py|Py]; try done.
  pose proof (cmp_tie x y Hx Hy Px Py). lia.
Qed.

Lemma arraySort_filter (l : list A) :
  Forall D l -> filter P (arraySort cmp l) = filter P l.
Proof.
  intros Hl. induction Hl as [|x l Hx Hl IH]; cbn [arraySort]; [done|].
  rewrite insertSorted_filter by (by rewrite ?arraySort_perm).
  by rewrite !(filter_cons _ x), IH.
Qed.
End SortOrder.

(** The order of the strings is a strict total order. *)
Lemma strLt_asym (s t : jsstring) : strLt s t = true -> strLt t s = false.
Proof.
  revert t. induction s as [|c s IH]; intros [|d t]; cbn [strLt]; try done.
  destruct (c <? d)%N eqn:E1, (d <? c)%N eqn:E2; try done; [|by apply IH].
  apply N.ltb_lt in E1, E2. lia.
Qed.

Lemma strLt_trichotomy (s t : jsstring) :
  strLt s t = false -> strLt t s = false -> s = t.
Proof.
  revert t. induction s as [|c s IH]; intros [|d t]; cbn [strLt]; try done.
  destruct (c <? d)%N eqn:E1, (d <? c)%N eqn:E2; try done.
  apply N.ltb_ge in E1, E2. intros H1 H2. f_equal; [lia | by apply IH].
Qed.

Lemma strLt_trans (s t u : jsstring) :
  strLt s t = true -> strLt t u = true -> strLt s u = true.
Proof.
  revert t u. induction s as [|c s IH]; intros [|d t] [|e u]; cbn [strLt]; try done.
  destruct (c <? d)%N eqn:E1, (d <? c)%N eqn:E2, (d <? e)%N eqn:E3, (e <? d)%N eqn:E4,
    (c <? e)%N eqn:E5, (e <? c)%N eqn:E6; try done;
    rewrite ?N.ltb_lt, ?N.ltb_ge in *; try lia.
  apply IH.
Qed.

Lemma strLt_le_trans (s t u : jsstring) :
  strLt t s = false -> strLt u t = false -> strLt u s = false.
Proof.
  intros H1 H2. destruct (strLt u s) eqn:E; [|done].
  destruct (strLt s t) eqn:E1.
  - by rewrite (strLt_trans _ _ _ E E1) in H2.
  - rewrite (strLt_trichotomy _ _ E1 H1) in E. congruence.
Qed.

Section SortData.
Context (stringToNumber : jsstring -> option Z).

Local Abbreviation comparator :=
  (fun a b : row => match compareRows stringToNumber a b with Some v => v | None => 0 end).

(** On rows with a number of days and a time string the comparator is at
    most 0 exactly when the first row has more days, or as many and no
    later time. *)
Lemma comparator_le (a b : row) (na nb : Z) (ta tb : jsstring) :
  sortKey a = Some (na, ta) -> sortKey b = Some (nb, tb) ->
  comparator a b <= 0 <-> nb < na \/ (nb = na /\ strLt tb ta = false).
Proof.
  unfold sortKey, compareRows, minus. intros Ha Hb.
  destruct (getProp a continuousLimitDays); try done.
  destruct (getProp a finalLimitTime); try done.
  destruct (getProp b continuousLimitDays); try done.
  destruct (getProp b finalLimitTime); try done.
  injection Ha as -> ->. injection Hb as -> ->. cbn [ToNumber lessThan].
  case_bool_decide as E; cbn [negb].
  - injection E as E. destruct (strLt ta tb) eqn:E1.
    + rewrite (strLt_asym _ _ E1). lia.
    + destruct (strLt tb ta) eqn:E2; [split; [lia | intros [?|[_ ?]]; [lia | done]] | lia].
  - assert (nb - na <> 0) by congruence. lia.
Qed.

Lemma comparator_total (x y : row) :
  is_Some (sortKey x) -> is_Some (sortKey y) -> comparator x y <= 0 \/ comparator y x <= 0.
Proof.
  intros [[nx tx] Hx] [[ny ty] Hy].
  rewrite (comparator_le x y nx ny tx ty Hx Hy), (comparator_le y x ny nx ty tx Hy Hx).
  destruct (strLt ty tx) eqn:E; [|lia]. rewrite (strLt_asym _ _ E). lia.
Qed.

Lemma comparator_trans (x y z : row) :
  is_Some (sortKey x) -> is_Some (sortKey y) -> is_Some (sortKey z) ->
  comparator x y <= 0 -> comparator y z <= 0 -> comparator x z <= 0.
Proof.
  intros [[nx tx] Hx] [[ny ty] Hy] [[nz tz] Hz].
  rewrite (comparator_le x y nx ny tx ty Hx Hy), (comparator_le y z ny nz ty tz Hy Hz),
    (comparator_le x z nx nz tx tz Hx Hz).
  intros [?|[? H1]] [?|[? H2]]; try lia. right. split; [lia|].
  by apply (strLt_le_trans _ ty).
Qed.

Lemma sortData_perm (data : list row) : sortData stringToNumber data ≡ₚ data.
Proof. apply arraySort_perm. Qed.
End SortData.

(** X24: sortData returns the rows it is given, rearranged, whatever
    Number makes of the strings; and when every row has a number of days
    and a time string, a row that stands before another one in the result
    has more days, or as many days and a time that is not later (times
    compared as strings, code unit by code unit). *)
Theorem sortData_ordered (stringToNumber : jsstring -> option Z) (data : list row) :
  sortData stringToNumber data ≡ₚ data
  /\ (Forall (fun r => is_Some (sortKey r)) data ->
      forall a b na ta nb tb,
        occursBefore (sortData stringToNumber data) a b ->
        sortKey a = Some (na, ta) -> sortKey b = Some (nb, tb) ->
        nb < na \/ (nb = na /\ strLt tb ta = false)).
Proof.
  split; [apply sortData_perm|]. intros Hdata a b na ta nb tb Hab Ha Hb.
  apply (comparator_le stringToNumber a b na nb ta tb Ha Hb).
  revert Hab. unfold sortData.
  apply (arraySort_ordered
           (fun a b => match compareRows stringToNumber a b with Some v => v | None => 0 end)
           (fun r => is_Some (sortKey r))); [| |done].
  - apply comparator_total.
  - apply comparator_trans.
Qed.

(** X25: the sort is stable on such rows: the rows with one number of days
    and one time stand in the result in the order they had in the input. *)
Theorem sortData_stable (stringToNumber : jsstring -> option Z) (data : list row)
    (key : Z * jsstring) :
  Forall (fun r => is_Some (sortKey r)) data ->
  filter (fun r => sortKey r = Some key) (sortData stringToNumber data)
  = filter (fun r => sortKey r = Some key) data.
Proof.
  intros Hdata. unfold sortData.
  apply (arraySort_filter
           (fun a b => match compareRows stringToNumber a b with Some v => v | None => 0 end)
           (fun r => is_Some (sortKey r))); [|done].
  intros x y _ _ Hx Hy. destruct key as [n t].
  apply (comparator_le stringToNumber x y n n t t Hx Hy). right. split; [done|].
  destruct (strLt t t) eqn:E; [|done]. by rewrite (strLt_asym _ _ E) in E.
Qed.

Lemma sortData_stable_witness :
  Forall (fun r => is_Some (sortKey r)) board
  /\ filter (fun r => sortKey r = Some (1, u16 "09:45:00")) (sortData noNumber board)
     = filter (fun r => sortKey r = Some (1, u16 "09:45:00")) board.
Proof.
  assert (Forall (fun r => is_Some (sortKey r)) board) as H.
  { repeat constructor; by eexists. }
  split; [exact H|]. exact (sortData_stable noNumber board (1, u16 "09:45:00") H).
Defined.

Example sortData_board :
  map (fun r => getProp r (u16 "code")) (sortData noNumber board)
  = [JStr (u16 "600002"); JStr (u16 "600003"); JStr (u16 "600001"); JStr (u16 "600004")].
Proof. reflexivity. Qed.

(** ** The upload handler *)

Lemma length_cleanDateFields (data : list row) :
  length (cleanDateFields data) = length data.
Proof. destruct data; [done|]. unfold cleanDateFields. by rewrite length_map. Qed.

Lemma elem_of_concat {A : Type} (x : A) (l : list A) (ls : list (list A)) :
  x ∈ l -> l ∈ ls -> x ∈ concat ls.
Proof.
  intros Hx. induction ls as [|l' ls IH]; [by intros ?%elem_of_nil|].
  cbn [concat]. rewrite elem_of_app. intros [->|H]%elem_of_cons; auto.
Qed.

(** The rows of the pages are rows of the input. *)
Lemma splitIntoPagesByCategoryPriority_elem_of
    (data : list row) (categoryCol : jsstring) (maxConstraint : jsnumber) (page : list row)
    (r : row) :
  page ∈ splitIntoPagesByCategoryPriority data categoryCol maxConstraint ->
  r ∈ page -> r ∈ data.
Proof.
  intros Hpage Hr.
  assert (r ∈ concat (splitIntoPagesByCategoryPriority data categoryCol maxConstraint))
    as Hin by (by apply (elem_of_concat r page)).
  revert Hin. unfold splitIntoPagesByCategoryPriority.
  destruct (paginate_concat categoryCol maxConstraint
              (reorder data categoryCol
                 (sortedCategoriesOf (countCategories categoryCol data [])))) as [-> _].
  rewrite reorder_eq, elem_of_app, !list_elem_of_bind.
  intros [(cat & H & _)|(cat & H & _)]; by apply rowsOfCategory_spec in H as [? _].
Qed.

(** A page holds a row; under a constraint that is a number it holds no
    more rows than the constraint less the 2 of its first group, unless it
    is a forced page of one row; under NaN it is the only page. *)
Lemma splitIntoPagesByCategoryPriority_page_length
    (data : list row) (categoryCol : jsstring) (maxConstraint : jsnumber)
    (page : list row) :
  page ∈ splitIntoPagesByCategoryPriority data categoryCol maxConstraint ->
  (1 <= length page)%nat
  /\ forall m : Z, maxConstraint = Num m -> Z.of_nat (length page) <= Z.max 1 (m - 2).
Proof.
  unfold splitIntoPagesByCategoryPriority. intros Hpage.
  set (reorderedData := reorder data categoryCol _) in *.
  assert (page <> []) as Hne'.
  { destruct (paginate_concat categoryCol maxConstraint reorderedData) as (_ & Hne).
    rewrite Forall_forall in Hne. by apply Hne. }
  split; [destruct page; [done | cbn; lia]|].
  intros m ->.
  destruct (paginate_spec categoryCol m reorderedData) as (_ & Hok & _).
  rewrite Forall_forall in Hok. specialize (Hok page Hpage).
  destruct Hok as [Hok|Hok]; [|lia].
  unfold withinConstraint in Hok.
  pose proof (distinctGroups_pos categoryCol page Hne'). lia.
Qed.

Lemma splitIntoPagesByCategoryPriority_NaN
    (data : list row) (categoryCol : jsstring) :
  (length (splitIntoPagesByCategoryPriority data categoryCol NaN) <= 1)%nat.
Proof.
  unfold splitIntoPagesByCategoryPriority. rewrite paginate_NaN.
  destruct (reorder _ _ _); cbn [length]; lia.
Qed.

Lemma sum_recordCount_imap (f : nat -> list row -> Page.t) (pages : list (list row)) :
  (forall index page, Page.recordCount (f index page) = length page) ->
  sum_list (Page.recordCount <$> imap f pages) = length (concat pages).
Proof.
  revert f. induction pages as [|page pages IH]; intros f Hf; [done|].
  cbn [imap fmap list_fmap sum_list concat]. rewrite length_app, Hf. f_equal.
  apply IH. intros index page'. apply Hf.
Qed.

Section Handler.
Context (stringToNumber : jsstring -> option Z) (maxConstraint : jsnumber)
        (data : list row).
Context (res : Response.t).
Context (accepted : processUpload stringToNumber maxConstraint data = Some res).

Local Abbreviation renamedData :=
  (map (renameRow (Response.finalLimitTimeCol res) (Response.continuousLimitDaysCol res)
                  (Response.limitReasonCol res) (Response.limitReasonCategoryCol res))
       (cleanDateFields data)).

Local Abbreviation sortedData :=
  (sortData stringToNumber (processReasonCategoryField renamedData)).

(** The response, read off the handler. *)
Lemma processUpload_response :
  Response.recordCount res = length data
  /\ Response.pages res
     = imap (fun index page =>
               {| Page.pageNumber := Z.of_nat index + 1;
                  Page.recordCount := length page;
                  Page.data := take (min 5 (length page)) page |})
            (splitIntoPagesByCategoryPriority sortedData reasonCol maxConstraint)
  /\ Response.categoryStats res = getCategoryStats sortedData.
Proof.
  revert accepted. unfold processUpload.
  destruct (findColumn _ finalLimitTime); [|done].
  destruct (findColumn _ continuousLimitDays); [|done].
  destruct (findColumn _ reasonCol); [|done].
  destruct (findColumn _ reasonCategoryCol); [|done].
  by intros [= <-].
Qed.

(** A row that is sorted and paginated is a renamed row whose category
    field was trimmed. *)
Lemma sortedData_elem_of (r : row) :
  r ∈ sortedData ->
  exists cleaned,
    cleaned ∈ cleanDateFields data
    /\ r = setProp (renameRow (Response.finalLimitTimeCol res)
                              (Response.continuousLimitDaysCol res)
                              (Response.limitReasonCol res)
                              (Response.limitReasonCategoryCol res) cleaned)
                   reasonCategoryCol
                   (JStr (trimCell (getProp cleaned (Response.limitReasonCategoryCol res)))).
Proof.
  rewrite sortData_perm. unfold processReasonCategoryField.
  change (map ?f ?l) with (f <$> l). rewrite <- list_fmap_compose.
  intros (cleaned & -> & Hin)%list_elem_of_fmap. exists cleaned. split; [done|].
  cbn [compose]. unfold trimCell.
  by destruct (renameRow_canonical (Response.finalLimitTimeCol res)
                 (Response.continuousLimitDaysCol res) (Response.limitReasonCol res)
                 (Response.limitReasonCategoryCol res) cleaned) as (_ & _ & _ & ->).
Qed.

Lemma sortedData_reason (r : row) :
  r ∈ sortedData ->
  exists cleaned,
    cleaned ∈ cleanDateFields data
    /\ getProp r reasonCol = getProp cleaned (Response.limitReasonCol res).
Proof.
  intros (cleaned & Hin & ->)%sortedData_elem_of. exists cleaned. split; [done|].
  rewrite getProp_setProp_ne by discriminate.
  by destruct (renameRow_canonical (Response.finalLimitTimeCol res)
                 (Response.continuousLimitDaysCol res) (Response.limitReasonCol res)
                 (Response.limitReasonCategoryCol res) cleaned) as (_ & _ & -> & _).
Qed.

Lemma length_sortedData : length sortedData = length data.
Proof.
  rewrite sortData_perm. unfold processReasonCategoryField.
  by rewrite !length_map, length_cleanDateFields.
Qed.
End Handler.

(** X26: a sheet whose first row has a column for each of the four names,
    under the name itself or the name followed by a date dddd.dd.dd, is
    accepted, and the four columns resolve to the canonical names. *)
Theorem processUpload_accepts
    (stringToNumber : jsstring -> option Z) (maxConstraint : jsnumber)
    (firstRow : row) (rest : list row) :
  Forall (hasHeader firstRow)
         [finalLimitTime; continuousLimitDays; reasonCol; reasonCategoryCol] ->
  exists res,
    processUpload stringToNumber maxConstraint (firstRow :: rest) = Some res
    /\ Response.finalLimitTimeCol res = finalLimitTime
    /\ Response.continuousLimitDaysCol res = continuousLimitDays
    /\ Response.limitReasonCol res = reasonCol
    /\ Response.limitReasonCategoryCol res = reasonCategoryCol
    /\ Response.originalColumns res = map fst firstRow
    /\ Response.maxConstraint res = maxConstraint.
Proof.
  intros Hheaders.
  assert (forall name, name ∈ [finalLimitTime; continuousLimitDays; reasonCol;
                               reasonCategoryCol] ->
            findColumn (cleanDateFields (firstRow :: rest)) name = Some name) as Hfind.
  { intros name Hname. rewrite Forall_forall in Hheaders.
    destruct (Hheaders name Hname) as (k & Hk & Hproto & Hstrip).
    apply (findColumn_cleaned firstRow rest k name Hk Hproto Hstrip).
    intros ->. revert Hname. apply (bool_decide_unpack _). vm_compute. exact I. }
  unfold processUpload.
  rewrite !Hfind by (rewrite !elem_of_cons; tauto).
  eexists. split; [reflexivity|]. by cbn.
Qed.

Lemma processUpload_accepts_witness :
  Forall (hasHeader (datedBoardRow "600001" 1 "09:45:00" "AI" "AI+chips"))
         [finalLimitTime; continuousLimitDays; reasonCol; reasonCategoryCol]
  /\ exists res,
       processUpload noNumber 33 datedBoard = Some res
       /\ Response.finalLimitTimeCol res = finalLimitTime
       /\ Response.continuousLimitDaysCol res = continuousLimitDays
       /\ Response.limitReasonCol res = reasonCol
       /\ Response.limitReasonCategoryCol res = reasonCategoryCol
       /\ Response.originalColumns res
          = map fst (datedBoardRow "600001" 1 "09:45:00" "AI" "AI+chips")
       /\ Response.maxConstraint res = 33.
Proof.
  assert (Forall (hasHeader (datedBoardRow "600001" 1 "09:45:00" "AI" "AI+chips"))
                 [finalLimitTime; continuousLimitDays; reasonCol; reasonCategoryCol]) as H.
  { repeat constructor.
    - exists (finalLimitTime ++ u16 "2024.03.15").
      split_and!; [apply (bool_decide_unpack _); vm_compute; exact I | done | done].
    - exists (continuousLimitDays ++ u16 "2024.03.15").
      split_and!; [apply (bool_decide_unpack _); vm_compute; exact I | done | done].
    - exists (reasonCol ++ u16 "2024.03.15").
      split_and!; [apply (bool_decide_unpack _); vm_compute; exact I | done | done].
    - exists (reasonCategoryCol ++ u16 "2024.03.15").
      split_and!; [apply (bool_decide_unpack _); vm_compute; exact I | done | done]. }
  split; [exact H|].
  exact (processUpload_accepts noNumber 33 _ _ H).
Defined.

(** X27: when every cleaned row holds, in the column resolved for the
    reason, a string other than "__proto__", the record counts of the pages
    of the response add up to the record count of the sheet. *)
Theorem processUpload_record_counts
    (stringToNumber : jsstring -> option Z) (maxConstraint : jsnumber) (data : list row)
    (res : Response.t) :
  processUpload stringToNumber maxConstraint data = Some res ->
  Forall (fun r => exists s, getProp r (Response.limitReasonCol res) = JStr s
                             /\ s <> protoKey) (cleanDateFields data) ->
  sum_list (Page.recordCount <$> Response.pages res) = Response.recordCount res
  /\ Response.recordCount res = length data.
Proof.
  intros Hres Hreasons.
  destruct (processUpload_response _ _ _ _ Hres) as (Hcount & Hpages & _).
  split; [|exact Hcount]. rewrite Hpages, Hcount, sum_recordCount_imap by done.
  rewrite splitIntoPagesByCategoryPriority_permutation.
  - apply (length_sortedData stringToNumber).
  - apply Forall_forall. intros r (cleaned & Hin & ->)%sortedData_reason.
    rewrite Forall_forall in Hreasons. by apply Hreasons.
Qed.

Lemma processUpload_record_counts_witness :
  exists res,
    processUpload noNumber 5 datedBoard = Some res
    /\ Forall (fun r => exists s, getProp r (Response.limitReasonCol res) = JStr s
                                  /\ s <> protoKey) (cleanDateFields datedBoard)
    /\ sum_list (Page.recordCount <$> Response.pages res) = Response.recordCount res
    /\ Response.recordCount res = length datedBoard.
Proof.
  eexists. split; [reflexivity|].
  assert (Forall (fun r => exists s, getProp r reasonCol = JStr s /\ s <> protoKey)
                 (cleanDateFields datedBoard)) as H.
  { repeat constructor; by eexists. }
  split; [exact H|].
  exact (processUpload_record_counts noNumber 5 datedBoard _ eq_refl H).
Defined.

(** X28: the page at index i of the response has the number i + 1 and
    counts at least one row; when maxConstraint is a number m, it counts at
    most m - 2 rows unless it is a page of one row; when maxConstraint is
    NaN (a form field that is no number) it is the only page of the
    response; its preview holds five rows, or as many as the page counts
    when these are fewer; and every row of the preview has a category
    field that is a string of width at most 36 without a trailing plus
    sign, and no key that contains the disclosure name. *)
Theorem processUpload_pages
    (stringToNumber : jsstring -> option Z) (maxConstraint : jsnumber) (data : list row)
    (res : Response.t) (i : nat) (p : Page.t) :
  processUpload stringToNumber maxConstraint data = Some res ->
  Response.pages res !! i = Some p ->
  Page.pageNumber p = Z.of_nat i + 1
  /\ (1 <= Page.recordCount p)%nat
  /\ (forall m : Z, maxConstraint = Num m ->
                    Z.of_nat (Page.recordCount p) <= Z.max 1 (m - 2))
  /\ (maxConstraint = NaN -> i = 0%nat /\ length (Response.pages res) = 1%nat)
  /\ length (Page.data p) = min 5 (Page.recordCount p)
  /\ forall r, r ∈ Page.data p ->
       (exists t, getProp r reasonCategoryCol = JStr t
                  /\ calculateChineseLength (JStr t) <= 36
                  /\ endsWith t plus = false)
       /\ forall k, k ∈ map fst r -> includes k reasonDisclosure = false.
Proof.
  intros Hres Hp.
  destruct (processUpload_response _ _ _ _ Hres) as (_ & Hpages & _).
  assert (i < length (Response.pages res))%nat as Hi by (by eapply lookup_lt_Some).
  assert (maxConstraint = NaN -> i = 0%nat /\ length (Response.pages res) = 1%nat) as HNaN.
  { intros ->. revert Hi. rewrite Hpages, length_imap.
    pose proof (splitIntoPagesByCategoryPriority_NaN
                  (sortData stringToNumber
                     (processReasonCategoryField
                        (map (renameRow (Response.finalLimitTimeCol res)
                                        (Response.continuousLimitDaysCol res)
                                        (Response.limitReasonCol res)
                                        (Response.limitReasonCategoryCol res))
                             (cleanDateFields data)))) reasonCol).
    lia. }
  rewrite Hpages, list_lookup_imap in Hp.
  destruct (_ !! i) as [page|] eqn:Hpage; [|done].
  cbn [fmap option_fmap option_map] in Hp. apply (inj Some) in Hp. subst p.
  cbn [Page.pageNumber Page.recordCount Page.data].
  apply list_elem_of_lookup_2 in Hpage.
  destruct (splitIntoPagesByCategoryPriority_page_length _ _ _ _ Hpage) as [Hlen Hmax].
  split_and!; [done | done | done | done | rewrite length_take; lia |].
  intros r Hr.
  assert (r ∈ page) as Hr'.
  { apply list_elem_of_lookup in Hr as [j Hj]. apply lookup_take_Some in Hj as [Hj _].
    by eapply list_elem_of_lookup_2. }
  pose proof (splitIntoPagesByCategoryPriority_elem_of _ _ _ _ _ Hpage Hr') as Hsorted.
  apply (sortedData_elem_of stringToNumber) in Hsorted as (cleaned & _ & ->). split.
  - eexists. split; [apply getProp_setProp|]. unfold trimCell. split.
    + apply trimReasonCategoryField_width. unfold defaultMaxLength. lia.
    + apply trimReasonCategoryField_endsWith.
  - intros k [->|Hk]%keys_setProp; [done|]. by apply renameRow_no_disclosure in Hk.
Qed.

Lemma processUpload_pages_witness :
  exists res p,
    processUpload noNumber NaN datedBoard = Some res
    /\ Response.pages res !! 0%nat = Some p
    /\ Page.pageNumber p = Z.of_nat 0 + 1
    /\ (1 <= Page.recordCount p)%nat
    /\ (forall m : Z, NaN = Num m -> Z.of_nat (Page.recordCount p) <= Z.max 1 (m - 2))
    /\ (NaN = NaN -> 0%nat = 0%nat /\ length (Response.pages res) = 1%nat)
    /\ length (Page.data p) = min 5 (Page.recordCount p)
    /\ forall r, r ∈ Page.data p ->
         (exists t, getProp r reasonCategoryCol = JStr t
                    /\ calculateChineseLength (JStr t) <= 36
                    /\ endsWith t plus = false)
         /\ forall k, k ∈ map fst r -> includes k reasonDisclosure = false.
Proof.
  eexists _, _. split; [vm_compute; reflexivity|]. split; [vm_compute; reflexivity|].
  exact (processUpload_pages noNumber NaN datedBoard _ 0 _
           ltac:(vm_compute; reflexivity) ltac:(vm_compute; reflexivity)).
Defined.

(** The same sheet under the constraint 5 and under NaN: three pages of
    at most 3 rows, and one page of all 4 rows. *)
Example processUpload_datedBoard :
  (Page.recordCount
     <$> default [] (Response.pages <$> processUpload noNumber 5 datedBoard))
  = [2; 1; 1]%nat
  /\ (Page.recordCount
        <$> default [] (Response.pages <$> processUpload noNumber NaN datedBoard))
     = [4]%nat.
Proof. split; vm_compute; reflexivity. Qed.

(** X29: when no cleaned row holds, in the column resolved for the
    reason, a value whose string form is the name of a member of
    Object.prototype, the counts of the category statistics of the response
    add up to the record count of the sheet. *)
Theorem processUpload_stats_total
    (stringToNumber : jsstring -> option Z) (maxConstraint : jsnumber) (data : list row)
    (res : Response.t) :
  processUpload stringToNumber maxConstraint data = Some res ->
  Forall (fun r => ToString (getProp r (Response.limitReasonCol res)) ∉ prototypeKeys)
         (cleanDateFields data) ->
  totalCount (Response.categoryStats res) = Z.of_nat (Response.recordCount res).
Proof.
  intros Hres Hreasons.
  destruct (processUpload_response _ _ _ _ Hres) as (Hcount & _ & Hstats).
  rewrite Hstats, Hcount, getCategoryStats_total.
  - f_equal. apply (length_sortedData stringToNumber).
  - apply Forall_fmap, Forall_forall. intros r (cleaned & Hin & Hr)%sortedData_reason.
    cbn [compose]. unfold keyOf. rewrite Hr.
    rewrite Forall_forall in Hreasons. by apply Hreasons.
Qed.

Lemma processUpload_stats_total_witness :
  exists res,
    processUpload noNumber 5 datedBoard = Some res
    /\ Forall (fun r => ToString (getProp r (Response.limitReasonCol res)) ∉ prototypeKeys)
              (cleanDateFields datedBoard)
    /\ totalCount (Response.categoryStats res) = Z.of_nat (Response.recordCount res).
Proof.
  eexists. split; [reflexivity|].
  assert (Forall (fun r => ToString (getProp r reasonCol) ∉ prototypeKeys)
                 (cleanDateFields datedBoard)) as H.
  { repeat constructor; apply (bool_decide_unpack _); vm_compute; exact I. }
  split; [exact H|].
  exact (processUpload_stats_total noNumber 5 datedBoard _ eq_refl H).
Defined.

(** ** The export of a page *)

Lemma getProp_assignProp (obj : bool * row) (k' k : jsstring) (v : jsval) :
  k <> protoKey ->
  getProp (assignProp obj k' v).2 k = if bool_decide (k' = k) then v else getProp obj.2 k.
Proof.
  intros Hk. destruct obj as [nullProto props]. cbn [assignProp snd].
  destruct (bool_decide (k' = protoKey)) eqn:E; cbn [andb].
  - apply bool_decide_eq_true_1 in E as ->.
    rewrite (bool_decide_eq_false_2 (protoKey = k)) by congruence.
    destruct (negb nullProto); cbn [snd]; [done|].
    rewrite getProp_defineProp. by rewrite bool_decide_eq_false_2 by congruence.
  - cbn [snd]. apply getProp_defineProp.
Qed.

Lemma keys_assignProp (obj : bool * row) (k' k : jsstring) (v : jsval) :
  k <> protoKey ->
  k ∈ map fst (assignProp obj k' v).2 <-> k = k' \/ k ∈ map fst obj.2.
Proof.
  intros Hk. destruct obj as [nullProto props]. cbn [assignProp snd].
  destruct (bool_decide (k' = protoKey)) eqn:E; cbn [andb].
  - apply bool_decide_eq_true_1 in E as ->.
    destruct (negb nullProto); cbn [snd]; [tauto|]. apply keys_defineProp.
  - cbn [snd]. apply keys_defineProp.
Qed.

Lemma getProp_not_key (r : row) (k : jsstring) : k ∉ map fst r -> getProp r k = JUndefined.
Proof.
  induction r as [|[k0 v0] r IH]; [done|]. cbn [map fst getProp].
  intros [Hne Hin]%not_elem_of_cons. by rewrite bool_decide_eq_false_2, IH by congruence.
Qed.

Section ExportRow.
Context (r : row) (k : jsstring) (k_not_proto : k <> protoKey).

Local Abbreviation exportStep :=
  (fun (filteredRow : bool * row) (key : jsstring) =>
     if negb (includes key reasonDisclosure)
     then assignProp filteredRow key (getProp r key)
     else filteredRow).

Lemma exportStep_getProp (obj : bool * row) (key : jsstring) :
  getProp (exportStep obj key).2 k
  = if bool_decide (key = k) && negb (includes key reasonDisclosure)
    then getProp r key else getProp obj.2 k.
Proof.
  cbn beta. destruct (includes key reasonDisclosure); cbn [negb];
    [by rewrite andb_false_r|].
  rewrite andb_true_r. by apply getProp_assignProp.
Qed.

Lemma exportStep_keys (obj : bool * row) (key : jsstring) :
  k ∈ map fst (exportStep obj key).2
  <-> (k = key /\ includes key reasonDisclosure = false) \/ k ∈ map fst obj.2.
Proof.
  cbn beta. destruct (includes key reasonDisclosure); cbn [negb]; [intuition congruence|].
  rewrite keys_assignProp by done. tauto.
Qed.

Lemma exportFold (keys : list jsstring) (obj : bool * row) :
  (k ∈ keys -> includes k reasonDisclosure = false ->
   getProp (fold_left exportStep keys obj).2 k = getProp r k)
  /\ ((k ∉ keys) \/ includes k reasonDisclosure = true ->
      getProp (fold_left exportStep keys obj).2 k = getProp obj.2 k)
  /\ (k ∈ map fst (fold_left exportStep keys obj).2
      <-> (k ∈ keys /\ includes k reasonDisclosure = false) \/ k ∈ map fst obj.2).
Proof.
  revert obj. induction keys as [|key keys IH]; intros obj; cbn [fold_left].
  - split_and!; [by intros ?%elem_of_nil | done | rewrite elem_of_nil; tauto].
  - destruct (IH (exportStep obj key)) as (IH1 & IH2 & IH3). split_and!.
    + intros Hin Hinc. destruct (decide (k ∈ keys)) as [Hk|Hk]; [by apply IH1|].
      rewrite IH2 by (by left). rewrite exportStep_getProp.
      apply elem_of_cons in Hin as [->|Hin]; [|done].
      by rewrite bool_decide_eq_true_2, Hinc by done.
    + intros H. rewrite IH2, exportStep_getProp.
      * destruct (bool_decide (key = k)) eqn:E; [|done].
        apply bool_decide_eq_true_1 in E as ->.
        destruct H as [H|H]; [|by rewrite H]. exfalso. apply H. by left.
      * destruct H as [H|H]; [|by right]. left. intros Hin. apply H. by right.
    + rewrite IH3, exportStep_keys, elem_of_cons. intuition (subst; auto).
Qed.
End ExportRow.

(** X30: the copy that the export writes has, for every key other than
    "__proto__", the fields of the row whose key does not contain the
    disclosure name, with the values they had, and no other field; so a
    row without such a key is written with all its fields. *)
Theorem exportRow_fields (r : row) (k : jsstring) :
  k <> protoKey ->
  getProp (exportRow r) k
  = (if includes k reasonDisclosure then JUndefined else getProp r k)
  /\ (k ∈ map fst (exportRow r)
      <-> k ∈ map fst r /\ includes k reasonDisclosure = false).
Proof.
  intros Hk. unfold exportRow.
  destruct (exportFold r k Hk (map fst r) (false, [])) as (H1 & H2 & H3). split.
  - destruct (includes k reasonDisclosure) eqn:E; [by rewrite H2 by (by right)|].
    destruct (decide (k ∈ map fst r)) as [Hin|Hin]; [by apply H1|].
    rewrite H2 by (by left). cbn [snd getProp]. by rewrite getProp_not_key.
  - rewrite H3. cbn [snd map]. rewrite elem_of_nil. tauto.
Qed.

Lemma exportRow_fields_witness :
  reasonCol <> protoKey
  /\ getProp (exportRow pageRow) reasonCol
     = (if includes reasonCol reasonDisclosure then JUndefined
        else getProp pageRow reasonCol)
  /\ (reasonCol ∈ map fst (exportRow pageRow)
      <-> reasonCol ∈ map fst pageRow /\ includes reasonCol reasonDisclosure = false).
Proof.
  assert (reasonCol <> protoKey) as H by discriminate.
  split; [exact H|]. exact (exportRow_fields pageRow reasonCol H).
Defined.
